(** * The library registry generator (generate.js)

    A shallow embedding of the enrichment pipeline of [generate.js]:
    grouping of the raw index entries, the semantic version comparator,
    the retry wrapper, the rate-limit aware metadata fetch, the batched
    enrichment and the final filter and sort; and of the script as a whole,
    from the fetch of the index to the written file and the exit code.

    Conventions.
    - JavaScript values that may be [undefined] or [null] have type [js A].
    - JavaScript numbers are IEEE doubles. Where the program computes with
      numbers read from text (version components, the reset time of a rate
      limit), they are modelled as doubles ([Number]), with the rounding of
      every operation. Counts that are only copied, compared or subtracted
      from one another (star counts, lengths, attempts) are on [Z]: they
      are integers far below 2^53, on which doubles are exact.
    - Asynchronous code is written in the monad [M]: a computation returns a
      value, throws, or runs out of fuel (it does not terminate), and lists
      the effects it performed (requests, sleeps, console lines).
    - What the outside world answers is an explicit argument: a script of
      [Exchange]s for the metadata endpoint, one per request. *)

From Stdlib Require Import ZArith QArith Qminmax Qround Qabs Qpower.
From Stdlib Require Import List String Ascii Bool.
From Stdlib Require Qcanon.
From Stdlib Require Import Lia Lqa Permutation Sorted PeanoNat DecimalString.
Import ListNotations.

Local Open Scope string_scope.
Local Open Scope list_scope.
Local Open Scope Z_scope.

(** ** Configuration (generate.js, lines 12-14) *)

Definition MAX_RETRIES : nat := 3.
Definition FETCH_TIMEOUT_MS : Z := 30000.
Definition CONCURRENT_REQUESTS : nat := 5.

(** ** JavaScript values *)

Inductive js (A : Type) : Type :=
| undefined
| null
| val (a : A).

Arguments undefined {A}.
Arguments null {A}.
Arguments val {A} a.

(** [v ?? d] *)
Definition nullish {A : Type} (v : js A) (d : A) : A :=
  match v with
  | val a => a
  | _ => d
  end.

Notation "v ?? d" := (nullish v d) (at level 45, left associativity).

(** Truthiness of a string-valued expression: [undefined], [null] and the
    empty string are falsy. *)
Definition truthy_string (v : js string) : bool :=
  match v with
  | val s => negb (s =? "")%string
  | _ => false
  end.

(** Truthiness of a boolean-valued expression. *)
Definition truthy_bool (v : js bool) : bool :=
  match v with
  | val b => b
  | _ => false
  end.

(** Reading a property that may not exist on the object: a missing property
    reads as [undefined]. *)
Definition read {A : Type} (property : option (js A)) : js A :=
  match property with
  | Some v => v
  | None => undefined
  end.

(** ** Numbers

    A JavaScript number is an IEEE 754 double: [NaN], an infinity, or a
    finite double, here given by its exact rational value. The sign of zero
    is not kept: the program never divides by a zero nor prints one. *)

Inductive Number : Type :=
| NaN
| Infinity (negative : bool)
| Num (q : Q).

(** [2^e] *)
Definition pow2 (e : Z) : Q := Qpower 2 e.

(** The exponent of the power of two at or below the positive [q]. *)
Definition binade (q : Q) : Z :=
  let k := Z.log2 (Qnum q) - Z.log2 (Zpos (Qden q)) in
  if Qle_bool (pow2 k) q then k else k - 1.

(** The integer nearest to [t], and the even one of two that are as near. *)
Definition nearest_even (t : Q) : Z :=
  let f := Qfloor t in
  match (t - inject_Z f ?= 1 # 2)%Q with
  | Lt => f
  | Eq => if Z.even f then f else f + 1
  | Gt => f + 1
  end.

(** The positive [q] rounded to 53 significant bits, the last of them not
    below 2^-1074 (round to nearest, ties to even). *)
Definition round_positive (q : Q) : Q :=
  let e := Z.max (binade q - 52) (-1074) in
  Qred (inject_Z (nearest_even (q / pow2 e)) * pow2 e).

(** The double nearest to [q]; what rounds to 2^1024 or more overflows. *)
Definition double (q : Q) : Number :=
  match (q ?= 0)%Q with
  | Eq => Num 0
  | Gt =>
      let r := round_positive q in
      if Qle_bool (pow2 1024) r then Infinity false else Num r
  | Lt =>
      let r := round_positive (- q) in
      if Qle_bool (pow2 1024) r then Infinity true else Num (- r)
  end.

(** [-a], [a + b], [a - b], [a * b], [a / b] *)
Definition Number_opp (a : Number) : Number :=
  match a with
  | NaN => NaN
  | Infinity negative => Infinity (negb negative)
  | Num q => Num (- q)
  end.

Definition Number_plus (a b : Number) : Number :=
  match a, b with
  | NaN, _ | _, NaN => NaN
  | Infinity s, Infinity s' => if Bool.eqb s s' then Infinity s else NaN
  | Infinity s, Num _ | Num _, Infinity s => Infinity s
  | Num p, Num q => double (p + q)
  end.

Definition Number_minus (a b : Number) : Number := Number_plus a (Number_opp b).

Definition Number_times (a b : Number) : Number :=
  match a, b with
  | NaN, _ | _, NaN => NaN
  | Infinity s, Infinity s' => Infinity (xorb s s')
  | Infinity s, Num q | Num q, Infinity s =>
      match (q ?= 0)%Q with
      | Eq => NaN
      | Lt => Infinity (negb s)
      | Gt => Infinity s
      end
  | Num p, Num q => double (p * q)
  end.

(** Division; a zero divisor is taken to be +0. *)
Definition Number_div (a b : Number) : Number :=
  match a, b with
  | NaN, _ | _, NaN => NaN
  | Infinity _, Infinity _ => NaN
  | Infinity s, Num q => Infinity (if negb (Qle_bool 0 q) then negb s else s)
  | Num _, Infinity _ => Num 0
  | Num p, Num q =>
      if Qeq_bool q 0 then
        match (p ?= 0)%Q with
        | Eq => NaN
        | Lt => Infinity true
        | Gt => Infinity false
        end
      else double (p / q)
  end.

(** [Math.max(a, b)] *)
Definition Math_max (a b : Number) : Number :=
  match a, b with
  | NaN, _ | _, NaN => NaN
  | Infinity false, _ | _, Infinity false => Infinity false
  | Infinity true, other | other, Infinity true => other
  | Num p, Num q => if Qle_bool p q then Num q else Num p
  end.

(** The sign of a number: -1, 0 or 1, and 0 for [NaN]. *)
Definition Number_sgn (v : Number) : Z :=
  match v with
  | NaN => 0
  | Infinity negative => if negative then -1 else 1
  | Num q => Z.sgn (Qnum q)
  end.

(** [a === b] on numbers: [NaN] equals nothing. *)
Definition Number_eqb (a b : Number) : bool :=
  match a, b with
  | Num p, Num q => Qeq_bool p q
  | Infinity s, Infinity s' => Bool.eqb s s'
  | _, _ => false
  end.

(** ** Strings *)

Definition is_digit (c : ascii) : bool :=
  let n := nat_of_ascii c in (48 <=? n)%nat && (n <=? 57)%nat.

Definition is_upper (c : ascii) : bool :=
  let n := nat_of_ascii c in (65 <=? n)%nat && (n <=? 90)%nat.

Definition is_lower (c : ascii) : bool :=
  let n := nat_of_ascii c in (97 <=? n)%nat && (n <=? 122)%nat.

(** The class [[\w.-]] of the URL pattern: letters, digits, underscore, dot
    and hyphen. *)
Definition is_repo_char (c : ascii) : bool :=
  is_digit c || is_upper c || is_lower c
  || (c =? "_")%char || (c =? ".")%char || (c =? "-")%char.

(** White space skipped by [parseInt] (the ASCII part of it). *)
Definition is_space (c : ascii) : bool :=
  let n := nat_of_ascii c in
  ((9 <=? n)%nat && (n <=? 13)%nat) || (n =? 32)%nat.

(** The longest prefix of [s] whose characters satisfy [p], and the rest:
    what a greedy [p+] or [p*] consumes. *)
Fixpoint span (p : ascii -> bool) (s : string) : string * string :=
  match s with
  | EmptyString => (EmptyString, EmptyString)
  | String c s' =>
      if p c then let (a, b) := span p s' in (String c a, b)
      else (EmptyString, s)
  end.

Definition digit_value (c : ascii) : Z := Z.of_nat (nat_of_ascii c) - 48.

Fixpoint decimal_value_from (acc : Z) (digits : string) : Z :=
  match digits with
  | EmptyString => acc
  | String c s' => decimal_value_from (10 * acc + digit_value c) s'
  end.

Definition decimal_value (digits : string) : Z := decimal_value_from 0 digits.

Definition string_of_Z (z : Z) : string := NilZero.string_of_int (Z.to_int z).

Definition string_of_nat (n : nat) : string := string_of_Z (Z.of_nat n).

(** The integer that [parseInt(s, 10)] reads: leading white space, an
    optional sign, then the longest run of digits; [None] when there is no
    digit. *)
Definition integer_prefix (s : string) : option Z :=
  let (_, s1) := span is_space s in
  let (sign, s2) :=
    match s1 with
    | String "-" r => (-1, r)
    | String "+" r => (1, r)
    | _ => (1, s1)
    end in
  let (digits, _) := span is_digit s2 in
  if (digits =? "")%string then None else Some (sign * decimal_value digits).

(** [parseInt(s, 10)]: the double nearest to that integer, or [NaN]. (The
    language lets an implementation take the digits after the 20th for
    zeros; the runtime of Node rounds the whole numeral.) *)
Definition parseInt (s : string) : Number :=
  match integer_prefix s with
  | Some z => double (inject_Z z)
  | None => NaN
  end.

(** [parseInt(v, 10)] on a value that may be [undefined] or [null]: the
    argument is first converted to a string. *)
Definition parseInt_js (v : js string) : Number :=
  match v with
  | val s => parseInt s
  | undefined => parseInt "undefined"
  | null => parseInt "null"
  end.

(** [n || d] on numbers: [NaN] and [0] are falsy. *)
Definition number_or (n d : Number) : Number :=
  match n with
  | NaN => d
  | Num q => if Qeq_bool q 0 then d else n
  | Infinity _ => n
  end.

(** ** Array.prototype.sort

    The sort of the runtime is stable, and for a consistent comparison
    function every stable sort returns the same array; it is modelled by the
    stable insertion sort. [compareFn x y <= 0] keeps [x] before [y]. *)

Fixpoint sort_insert {A : Type} (compareFn : A -> A -> Z) (x : A) (l : list A)
  : list A :=
  match l with
  | [] => [x]
  | y :: l' =>
      if compareFn x y <=? 0 then x :: y :: l'
      else y :: sort_insert compareFn x l'
  end.

Definition Array_sort {A : Type} (compareFn : A -> A -> Z) (l : list A)
  : list A :=
  fold_right (sort_insert compareFn) [] l.

(** [x] may stand before [y] in an array sorted by [compareFn]. *)
Definition in_order {A : Type} (compareFn : A -> A -> Z) (x y : A) : Prop :=
  compareFn x y <= 0.

(** ** parseGitHubUrl (generate.js, lines 64-68) *)

Record RepoInfo : Type := mkRepoInfo {
  owner : string;
  repo : string
}.

(** [s.replace(/\.git$/, '')] *)
Fixpoint strip_git_suffix (s : string) : string :=
  match s with
  | EmptyString => EmptyString
  | String c s' =>
      if (s =? ".git")%string then EmptyString
      else String c (strip_git_suffix s')
  end.

(** The pattern [github\.com[/:]([\w.-]+)\/([\w.-]+)] tried at the start of
    [s]: the two captured groups. Neither class contains the slash, so the
    greedy runs are the only way to match. *)
Definition match_github_here (s : string) : option (string * string) :=
  if prefix "github.com" s then
    match substring 10 (String.length s - 10) s with
    | String sep rest =>
        if (sep =? "/")%char || (sep =? ":")%char then
          let (g1, rest1) := span is_repo_char rest in
          match rest1 with
          | String "/" rest2 =>
              let (g2, _) := span is_repo_char rest2 in
              if (g1 =? "")%string || (g2 =? "")%string then None
              else Some (g1, g2)
          | _ => None
          end
        else None
    | EmptyString => None
    end
  else None.

(** [url.match(...)]: the leftmost position at which the pattern matches. *)
Fixpoint match_github (s : string) : option (string * string) :=
  match match_github_here s with
  | Some m => Some m
  | None =>
      match s with
      | EmptyString => None
      | String _ s' => match_github s'
      end
  end.

Definition parseGitHubUrl (url : js string) : option RepoInfo :=
  if negb (truthy_string url) then None
  else
    match url with
    | val u =>
        match match_github u with
        | Some (g1, g2) => Some (mkRepoInfo g1 (strip_git_suffix g2))
        | None => None
        end
    | _ => None
    end.

(** ** compareSemver (generate.js, lines 71-88) *)

(** One optional group [(?:\.(\d+))?] tried at the start of [s]: the capture
    ([undefined] when the group does not take part) and what is left. *)
Definition optional_dot_digits (s : string) : js string * string :=
  match s with
  | String "." rest =>
      let (digits, rest') := span is_digit rest in
      if (digits =? "")%string then (undefined, s) else (val digits, rest')
  | _ => (undefined, s)
  end.

(** [v.match(/^(\d+)(?:\.(\d+))?(?:\.(\d+))?/)]: the three captures, or
    [None] when there is no match. *)
Definition match_version (v : string) : option (string * js string * js string) :=
  let (major, rest1) := span is_digit v in
  if (major =? "")%string then None
  else
    let (minor, rest2) := optional_dot_digits rest1 in
    let (patch, _) := optional_dot_digits rest2 in
    Some (major, minor, patch).

Definition parseVersion (v : string) : Number * Number * Number :=
  match match_version v with
  | None => (Num 0, Num 0, Num 0)
  | Some (m1, m2, m3) =>
      (number_or (parseInt m1) (Num 0),
       number_or (parseInt_js m2) (Num 0),
       number_or (parseInt_js m3) (Num 0))
  end.

Definition compareSemver (a b : string) : Number :=
  let '(aMajor, aMinor, aPatch) := parseVersion a in
  let '(bMajor, bMinor, bPatch) := parseVersion b in
  if negb (Number_eqb aMajor bMajor) then Number_minus bMajor aMajor
  else if negb (Number_eqb aMinor bMinor) then Number_minus bMinor aMinor
  else Number_minus bPatch aPatch.

(** ** Errors, outcomes and effects *)

(** An [Error] object, as far as the program looks at it. *)
Record JsError : Type := mkError {
  err_name : string;
  err_message : string
}.

Definition TypeError (message : string) : JsError := mkError "TypeError" message.

(** How a computation ends. Any value can be thrown, also [undefined]. *)
Inductive Outcome (A : Type) : Type :=
| Returns (a : A)
| Throws (thrown : js JsError)
| OutOfFuel.

Arguments Returns {A} a.
Arguments Throws {A} thrown.
Arguments OutOfFuel {A}.

(** [Math.ceil(n)] inside a template literal (an integer of 10^21 or more
    is printed by the runtime with an exponent, which is not modelled: no
    statement reads the digits of such a line). *)
Definition string_of_ceil (n : Number) : string :=
  match n with
  | NaN => "NaN"
  | Infinity negative => if negative then "-Infinity" else "Infinity"
  | Num q => string_of_Z (Qceiling q)
  end.

(** The effects a computation performs, in order. [Sleep ms] is a timer
    armed with the delay [ms], the argument of [setTimeout]; how long the
    runtime then waits is [timer_delay ms]. [Invoked] is written by an
    instrumented operation only (see [spy]); the program itself never
    emits it. *)
Inductive Event : Type :=
| Request (url : string)
| Sleep (ms : Number)
| Console_log (line : string)
| Console_warn (line : string)
| Console_error (line : string)
| Invoked (attempt : nat).

Definition M (A : Type) : Type := (Outcome A * list Event)%type.

Definition ret {A : Type} (a : A) : M A := (Returns a, []).

Definition throw {A : Type} (thrown : js JsError) : M A := (Throws thrown, []).

Definition out_of_fuel {A : Type} : M A := (OutOfFuel, []).

Definition emit (e : Event) : M unit := (Returns tt, [e]).

Definition bind {A B : Type} (m : M A) (k : A -> M B) : M B :=
  match m with
  | (Returns a, t) => let (r, t') := k a in (r, t ++ t')
  | (Throws e, t) => (Throws e, t)
  | (OutOfFuel, t) => (OutOfFuel, t)
  end.

(** [try { m } catch (error) { handler error }] *)
Definition try_catch {A : Type} (m : M A) (handler : js JsError -> M A) : M A :=
  match m with
  | (Throws e, t) => let (r, t') := handler e in (r, t ++ t')
  | other => other
  end.

Declare Scope js_scope.
Delimit Scope js_scope with js.

Notation "x <- m ;; k" := (bind m (fun x => k))
  (at level 61, m at next level, right associativity) : js_scope.
Notation "m ;; k" := (bind m (fun _ => k))
  (at level 61, right associativity) : js_scope.

Local Open Scope js_scope.

(** The effects [t], replayed. *)
Definition emit_all (t : list Event) : M unit := (Returns tt, t).

(** [await new Promise(resolve => setTimeout(resolve, ms))] *)
Definition sleep (ms : Number) : M unit := emit (Sleep ms).

(** The timers of Node: a delay that is not between 1 and [TIMEOUT_MAX]
    (so also [NaN] and an infinity) is replaced by 1, and the timer waits
    the whole milliseconds of the delay. *)
Definition TIMEOUT_MAX : Z := 2 ^ 31 - 1.

Definition timer_delay (ms : Number) : Z :=
  match ms with
  | Num q =>
      if Qle_bool 1 q && Qle_bool q (inject_Z TIMEOUT_MAX) then Qfloor q
      else 1
  | _ => 1
  end.

(** ** The metadata endpoint *)

Record License : Type := mkLicense {
  spdx_id : js string
}.

(** The body of a repository answer, parsed. *)
Module RepoJson.
Record t : Type := mk {
  stargazers_count : js Z;
  archived : js bool;
  pushed_at : js string;
  open_issues_count : js Z;
  description : js string;
  license : js License;
  topics : js (list string)
}.
End RepoJson.

(** [response.json()]: it rejects, or gives [null], or gives an object. A
    body that is a number, a string or an array reads like an object without
    any of the fields. The body is taken to arrive once the headers have:
    the timer of [fetchWithTimeout] is cleared by then, and a body that
    never ends is not modelled. *)
Inductive JsonBody : Type :=
| JsonRejects (e : JsError)
| JsonNull
| JsonObject (data : RepoJson.t).

(** A response as the program reads it. [x_ratelimit_reset] is
    [response.headers.get('x-ratelimit-reset')], [null] when the header is
    absent; [ok] is the status being in the range 200-299. *)
Module Response.
Record t : Type := mk {
  status : Z;
  statusText : string;
  x_ratelimit_reset : js string;
  body : JsonBody
}.
Definition ok (r : t) : bool := (200 <=? status r) && (status r <? 300).
End Response.

(** What the network does with one request: it answers after some time, it
    fails after some time, or it never settles. *)
Inductive Fetched : Type :=
| Responds (after_ms : Z) (response : Response.t)
| Fails (after_ms : Z) (e : JsError)
| Hangs.

(** One request as the program sees it: what the network does, and what
    [Date.now()] reads while the answer is handled. *)
Record Exchange : Type := mkExchange {
  answer : Fetched;
  now : Z
}.

Definition AbortError : JsError := mkError "AbortError" "The operation was aborted.".

(** fetchWithTimeout (generate.js, lines 30-43): the request is aborted when
    it has not settled after [FETCH_TIMEOUT_MS]. *)
Definition fetchWithTimeout (network : Fetched) (url : string) : M Response.t :=
  emit (Request url) ;;
  match network with
  | Responds after_ms response =>
      if after_ms <? FETCH_TIMEOUT_MS then ret response
      else throw (val AbortError)
  | Fails after_ms e =>
      if after_ms <? FETCH_TIMEOUT_MS then throw (val e)
      else throw (val AbortError)
  | Hangs => throw (val AbortError)
  end.

(** ** withRetry (generate.js, lines 46-61)

    [fn k] is what the [k]-th invocation of the wrapped operation does. The
    loop runs [attempt] from 1 to [maxRetries]; [remaining] counts the
    iterations left. *)

Definition backoff_delay (attempt : nat) : Z :=
  Z.min (1000 * 2 ^ Z.of_nat attempt) 10000.

Fixpoint withRetry_loop {A : Type} (fn : nat -> M A) (maxRetries : nat)
  (context : string) (remaining attempt : nat) (lastError : js JsError) : M A :=
  match remaining with
  | O => throw lastError
  | S remaining' =>
      match fn attempt with
      | (Returns a, t) => (Returns a, t)
      | (OutOfFuel, t) => (OutOfFuel, t)
      | (Throws error, t) =>
          (emit_all t ;;
           (if (attempt <? maxRetries)%nat then
              let delay := backoff_delay attempt in
              match error with
              | val e =>
                  emit (Console_warn
                    ("::warning::" ++ context ++ " Attempt "
                     ++ string_of_nat attempt ++ "/" ++ string_of_nat maxRetries
                     ++ " failed: " ++ err_message e ++ ". Retrying in "
                     ++ string_of_Z delay ++ "ms...")%string) ;;
                  sleep (Num (inject_Z delay))
              | undefined =>
                  throw (val (TypeError
                    "Cannot read properties of undefined (reading 'message')"))
              | null =>
                  throw (val (TypeError
                    "Cannot read properties of null (reading 'message')"))
              end
            else ret tt) ;;
           withRetry_loop fn maxRetries context remaining' (S attempt) error)
      end
  end.

Definition withRetry {A : Type} (fn : nat -> M A) (maxRetries : nat)
  (context : string) : M A :=
  withRetry_loop fn maxRetries context maxRetries 1%nat undefined.

(** ** fetchGitHubData (generate.js, lines 91-147) *)

(** The object the fetch resolves to. Reading a property the object literal
    does not have gives [undefined]. *)
Module GitHubData.
Record t : Type := mk {
  stars : js Z;
  isArchived : js bool;
  pushedAt : js string;
  openIssues : js Z;
  description : js string;
  license : js string;
  topics : js (list string);
  error : js string
}.
End GitHubData.

(** [{ stars: 0, isArchived: true, error: 'not_found' }] *)
Definition not_found : GitHubData.t :=
  GitHubData.mk (val 0) (val true) undefined undefined undefined undefined
    undefined (val "not_found").

(** [data.license?.spdx_id ?? null] *)
Definition license_of (l : js License) : js string :=
  match l with
  | val lic =>
      match spdx_id lic with
      | val s => val s
      | _ => null
      end
  | _ => null
  end.

(** The object built from the parsed body (lines 130-138). *)
Definition github_data_of (data : RepoJson.t) : GitHubData.t :=
  GitHubData.mk
    (val (RepoJson.stargazers_count data ?? 0))
    (val (RepoJson.archived data ?? false))
    (RepoJson.pushed_at data)
    (val (RepoJson.open_issues_count data ?? 0))
    (RepoJson.description data)
    (license_of (RepoJson.license data))
    (val (RepoJson.topics data ?? []))
    undefined.

(** [await response.json()] followed by the property reads of lines 130-138;
    reading a property of [null] throws. *)
Definition read_body (response : Response.t) : M GitHubData.t :=
  match Response.body response with
  | JsonRejects e => throw (val e)
  | JsonNull =>
      throw (val (TypeError
        "Cannot read properties of null (reading 'stargazers_count')"))
  | JsonObject data => ret (github_data_of data)
  end.

(** The wait, in seconds, after a rate-limit answer (lines 106-112);
    [date_now] is what [Date.now()] reads, in milliseconds. *)
Definition waitTimeSec_of (rateLimitReset : js string) (date_now : Z) : Number :=
  if truthy_string rateLimitReset then
    let resetTimeMs := Number_times (parseInt_js rateLimitReset) (Num 1000) in
    Number_plus
      (Math_max (Num 0)
         (Number_div (Number_minus resetTimeMs (double (inject_Z date_now)))
            (Num 1000)))
      (Num 1)
  else Num 60.

Definition repo_path (repoInfo : RepoInfo) : string :=
  (owner repoInfo ++ "/" ++ repo repoInfo)%string.

(** [`https://api.github.com/repos/${repoInfo.owner}/${repoInfo.repo}`] *)
Definition apiUrl_of (info : RepoInfo) : string :=
  ("https://api.github.com/repos/" ++ repo_path info)%string.

(** The catch block (lines 139-146). *)
Definition fetch_failed (repoInfo : RepoInfo) (error : js JsError)
  : M (option GitHubData.t) :=
  match error with
  | val e =>
      (if (err_name e =? "AbortError")%string then
         emit (Console_error
           ("::error::Timeout fetching " ++ repo_path repoInfo)%string)
       else
         emit (Console_error
           ("::error::Error fetching GitHub data for " ++ repo_path repoInfo
            ++ ": " ++ err_message e)%string)) ;;
      ret None
  | undefined =>
      throw (val (TypeError "Cannot read properties of undefined (reading 'name')"))
  | null =>
      throw (val (TypeError "Cannot read properties of null (reading 'name')"))
  end.

(** [api k] is the exchange of the request issued with [retryCount = k]. The
    function calls itself on a rate-limit answer; [fuel] bounds the depth. *)
Fixpoint fetchGitHubData_fuel (fuel : nat) (api : nat -> Exchange)
  (repoInfo : option RepoInfo) (retryCount : nat) : M (option GitHubData.t) :=
  match fuel with
  | O => out_of_fuel
  | S fuel' =>
      match repoInfo with
      | None => ret None
      | Some info =>
          let apiUrl := apiUrl_of info in
          try_catch
            (response <- fetchWithTimeout (answer (api retryCount)) apiUrl ;;
             let status := Response.status response in
             if (status =? 403) || (status =? 429) then
               if (MAX_RETRIES <=? retryCount)%nat then
                 emit (Console_error
                   ("::error::Rate limit: Max retries ("
                    ++ string_of_nat MAX_RETRIES ++ ") exceeded for "
                    ++ repo_path info)%string) ;;
                 ret None
               else
                 let rateLimitReset := Response.x_ratelimit_reset response in
                 let waitTimeSec :=
                   waitTimeSec_of rateLimitReset (now (api retryCount)) in
                 emit (Console_warn
                   ("::warning::Rate limit hit. Waiting "
                    ++ string_of_ceil waitTimeSec ++ "s (attempt "
                    ++ string_of_nat (retryCount + 1) ++ "/"
                    ++ string_of_nat MAX_RETRIES ++ ")...")%string) ;;
                 sleep (Number_times waitTimeSec (Num 1000)) ;;
                 fetchGitHubData_fuel fuel' api repoInfo (retryCount + 1)%nat
             else if status =? 404 then ret (Some not_found)
             else if negb (Response.ok response) then
               throw (val (mkError "Error"
                 ("GitHub API error: " ++ string_of_Z status ++ " "
                  ++ Response.statusText response)%string))
             else
               data <- read_body response ;;
               ret (Some data))
            (fetch_failed info)
      end
  end.

(** The recursion stops at [retryCount >= MAX_RETRIES], so this fuel is
    enough ([fetchGitHubData_returns]). *)
Definition fetchGitHubData (api : nat -> Exchange) (repoInfo : option RepoInfo)
  (retryCount : nat) : M (option GitHubData.t) :=
  fetchGitHubData_fuel (S (MAX_RETRIES - retryCount)) api repoInfo retryCount.

(** ** Index entries and libraries *)

(** One entry of the [libraries] array of the index ([lib] in the grouping
    loop). The index gives [version] as a string; [compareSemver] calls
    [match] on it. *)
Module RawEntry.
Record t : Type := mk {
  name : js string;
  author : js string;
  maintainer : js string;
  sentence : js string;
  paragraph : js string;
  website : js string;
  repository : js string;
  category : js string;
  architectures : js (list string);
  types : js (list string);
  version : string;
  url : js string;
  archiveFileName : js string;
  size : js Z;
  checksum : js string
}.
End RawEntry.

Module VersionInfo.
Record t : Type := mk {
  version : string;
  url : js string;
  archiveFileName : js string;
  size : js Z;
  checksum : js string
}.
End VersionInfo.

(** The object stored in [librariesMap]. The seven properties written by the
    enrichment do not exist before it: [None] is a property the object does
    not have, [Some v] one that was assigned [v]. [_repoInfo] is [None] when
    it is [null] and after [delete lib._repoInfo]. *)
Module Library.
Record t : Type := mk {
  name : string;
  author : js string;
  maintainer : js string;
  sentence : js string;
  paragraph : js string;
  website : js string;
  category : js string;
  architectures : js (list string);
  types : js (list string);
  repository : js string;
  _repoInfo : option RepoInfo;
  versions : list VersionInfo.t;
  stars : option (js Z);
  isArchived : option (js bool);
  pushedAt : option (js string);
  openIssues : option (js Z);
  githubDescription : option (js string);
  license : option (js string);
  topics : option (js (list string))
}.

(** [lib.versions = vs] *)
Definition set_versions (lib : t) (vs : list VersionInfo.t) : t :=
  mk (name lib) (author lib) (maintainer lib) (sentence lib) (paragraph lib)
    (website lib) (category lib) (architectures lib) (types lib)
    (repository lib) (_repoInfo lib) vs (stars lib) (isArchived lib)
    (pushedAt lib) (openIssues lib) (githubDescription lib) (license lib)
    (topics lib).

(** [delete lib._repoInfo] *)
Definition delete_repoInfo (lib : t) : t :=
  mk (name lib) (author lib) (maintainer lib) (sentence lib) (paragraph lib)
    (website lib) (category lib) (architectures lib) (types lib)
    (repository lib) None (versions lib) (stars lib) (isArchived lib)
    (pushedAt lib) (openIssues lib) (githubDescription lib) (license lib)
    (topics lib).

(** The seven assignments of lines 245-251. *)
Definition assign_github (lib : t) (githubData : GitHubData.t) : t :=
  mk (name lib) (author lib) (maintainer lib) (sentence lib) (paragraph lib)
    (website lib) (category lib) (architectures lib) (types lib)
    (repository lib) (_repoInfo lib) (versions lib)
    (Some (GitHubData.stars githubData))
    (Some (GitHubData.isArchived githubData))
    (Some (GitHubData.pushedAt githubData))
    (Some (GitHubData.openIssues githubData))
    (Some (GitHubData.description githubData))
    (Some (GitHubData.license githubData))
    (Some (GitHubData.topics githubData)).
End Library.

(** ** Map, keyed by strings, in insertion order *)

Definition JsMap (V : Type) : Type := list (string * V).

Fixpoint Map_has {V : Type} (m : JsMap V) (key : string) : bool :=
  match m with
  | [] => false
  | (k, _) :: m' => (k =? key)%string || Map_has m' key
  end.

Fixpoint Map_get {V : Type} (m : JsMap V) (key : string) : option V :=
  match m with
  | [] => None
  | (k, v) :: m' => if (k =? key)%string then Some v else Map_get m' key
  end.

(** [m.set(key, value)]: a new key goes last, a known key keeps its place. *)
Fixpoint Map_set {V : Type} (m : JsMap V) (key : string) (value : V) : JsMap V :=
  match m with
  | [] => [(key, value)]
  | (k, v) :: m' =>
      if (k =? key)%string then (k, value) :: m'
      else (k, v) :: Map_set m' key value
  end.

(** The object stored under [key] mutated in place by [change], as in
    [m.get(key).versions.push(...)]. *)
Fixpoint Map_mutate {V : Type} (m : JsMap V) (key : string) (change : V -> V)
  : JsMap V :=
  match m with
  | [] => []
  | (k, v) :: m' =>
      if (k =? key)%string then (k, change v) :: m'
      else (k, v) :: Map_mutate m' key change
  end.

(** [Array.from(m.values())] *)
Definition Map_values {V : Type} (m : JsMap V) : list V := map snd m.

(** ** Grouping (generate.js, lines 190-233) *)

Definition versionInfo_of (lib : RawEntry.t) : VersionInfo.t :=
  VersionInfo.mk (RawEntry.version lib) (RawEntry.url lib)
    (RawEntry.archiveFileName lib) (RawEntry.size lib) (RawEntry.checksum lib).

(** The name of an entry that passes [!lib || !lib.name]; [None] is an entry
    that is [null] or whose name is missing or empty. *)
Definition usable_name (lib : option RawEntry.t) : option string :=
  match lib with
  | None => None
  | Some entry =>
      if truthy_string (RawEntry.name entry) then
        match RawEntry.name entry with
        | val n => Some n
        | _ => None
        end
      else None
  end.

(** [a || b] on two results of [parseGitHubUrl]. *)
Definition or_else {A : Type} (a b : option A) : option A :=
  match a with
  | Some x => Some x
  | None => b
  end.

(** The object created for the first entry of a name (lines 207-221). *)
Definition new_library (lib : RawEntry.t) (name : string) : Library.t :=
  let versionInfo := versionInfo_of lib in
  let repoInfo :=
    or_else (parseGitHubUrl (RawEntry.website lib))
            (parseGitHubUrl (RawEntry.repository lib)) in
  Library.mk name (RawEntry.author lib) (RawEntry.maintainer lib)
    (RawEntry.sentence lib) (RawEntry.paragraph lib) (RawEntry.website lib)
    (RawEntry.category lib) (RawEntry.architectures lib) (RawEntry.types lib)
    (match repoInfo with
     | Some info => val ("https://github.com/" ++ repo_path info)%string
     | None => null
     end)
    repoInfo [versionInfo] None None None None None None None.

(** [lib.versions.push(versionInfo)] *)
Definition push_version (versionInfo : VersionInfo.t) (lib : Library.t)
  : Library.t :=
  Library.set_versions lib (Library.versions lib ++ [versionInfo]).

Definition skip_warning : Event :=
  Console_warn "::warning::Skipping invalid library entry (missing name)".

(** The loop of lines 192-225 over the entries still to read. *)
Fixpoint group_loop (rawLibraries : list (option RawEntry.t))
  (librariesMap : JsMap Library.t) : M (JsMap Library.t) :=
  match rawLibraries with
  | [] => ret librariesMap
  | lib :: rest =>
      match lib, usable_name lib with
      | Some entry, Some name =>
          if negb (Map_has librariesMap name) then
            group_loop rest
              (Map_set librariesMap name (new_library entry name))
          else
            group_loop rest
              (Map_mutate librariesMap name (push_version (versionInfo_of entry)))
      | _, _ => emit skip_warning ;; group_loop rest librariesMap
      end
  end.

(** How [Array.prototype.sort] reads the result of its comparison
    function: [NaN] as 0, and otherwise by its sign only. *)
Definition SortCompare (v : Number) : Z := Number_sgn v.

Definition compare_versions (a b : VersionInfo.t) : Z :=
  SortCompare (compareSemver (VersionInfo.version a) (VersionInfo.version b)).

(** [lib.versions.sort((a, b) => compareSemver(a.version, b.version))] *)
Definition sort_versions (lib : Library.t) : Library.t :=
  Library.set_versions lib (Array_sort compare_versions (Library.versions lib)).

(** Steps 2 and 3: [uniqueLibraries] once every version list is sorted. *)
Definition groupLibraries (rawLibraries : list (option RawEntry.t))
  : M (list Library.t) :=
  librariesMap <- group_loop rawLibraries [] ;;
  ret (map sort_versions (Map_values librariesMap)).

(** ** Enrichment (generate.js, lines 150-164 and 238-259) *)

(** [await Promise.all(tasks)]: the tasks are started together and every
    task runs to its end; the join resolves to all the values, in the order
    of the tasks, or rejects when a task rejected. Time is not modelled:
    the effects of the tasks, which the runtime interleaves, are listed
    task by task, so that of a trace through a join only what does not
    depend on the order among the tasks is meant (which effects, how many,
    and the order within one task); and of several rejections, of which
    the join takes the first in time, the first in the list is taken. *)
Fixpoint Promise_all {B : Type} (tasks : list (M B)) : M (list B) :=
  match tasks with
  | [] => ret []
  | (r, t) :: tasks' =>
      let (rs, t') := Promise_all tasks' in
      (match r, rs with
       | Throws e, _ => Throws e
       | Returns _, Throws e => Throws e
       | OutOfFuel, Throws e => Throws e
       | OutOfFuel, _ => OutOfFuel
       | Returns _, OutOfFuel => OutOfFuel
       | Returns b, Returns bs => Returns (b :: bs)
       end, t ++ t')
  end.

(** [items.slice(from, to)] *)
Definition slice {A : Type} (items : list A) (from to : nat) : list A :=
  firstn (to - from) (skipn from items).

(** The loop of processInBatches from index [i] on, with the [results]
    gathered so far. A batch size of 0 never advances: [fuel] counts the
    iterations allowed. *)
Fixpoint processInBatches_loop {A B : Type} (fuel : nat) (items : list A)
  (batchSize : nat) (processor : A -> M B) (i : nat) (results : list B)
  : M (list B) :=
  if (i <? List.length items)%nat then
    match fuel with
    | O => out_of_fuel
    | S fuel' =>
        let batch := slice items i (i + batchSize) in
        batchResults <- Promise_all (map processor batch) ;;
        let results := results ++ batchResults in
        let processed := Nat.min (i + batchSize) (List.length items) in
        (if (processed mod 50 =? 0)%nat || (processed =? List.length items)%nat then
           emit (Console_log
             ("Processed " ++ string_of_nat processed ++ "/"
              ++ string_of_nat (List.length items) ++ " libraries...")%string)
         else ret tt) ;;
        processInBatches_loop fuel' items batchSize processor
          (i + batchSize)%nat results
    end
  else ret results.

(** With a positive batch size the loop runs at most [length items] times
    ([processInBatches_map]). *)
Definition processInBatches {A B : Type} (items : list A) (batchSize : nat)
  (processor : A -> M B) : M (list B) :=
  processInBatches_loop (List.length items) items batchSize processor 0%nat [].

(** What the metadata endpoint answers, per library name and per request. *)
Definition Remote : Type := string -> nat -> Exchange.

(** The processor of lines 241-258. *)
Definition processor (remote : Remote) (lib : Library.t) : M Library.t :=
  lib' <-
    match Library._repoInfo lib with
    | Some info =>
        githubData <- fetchGitHubData (remote (Library.name lib)) (Some info) 0 ;;
        match githubData with
        | Some data => ret (Library.assign_github lib data)
        | None => ret lib
        end
    | None =>
        emit (Console_warn
          ("::warning::[Skipping] No GitHub URL for library: "
           ++ Library.name lib)%string) ;;
        ret lib
    end ;;
  ret (Library.delete_repoInfo lib').

(** ** Filter and sort (generate.js, lines 263-271) *)

(** [lib.repository && !lib.isArchived] *)
Definition is_active (lib : Library.t) : bool :=
  truthy_string (Library.repository lib)
  && negb (truthy_bool (read (Library.isArchived lib))).

Section FinalRegistry.

(** [String.prototype.localeCompare] belongs to the runtime, which compares
    by the collation of its locale; the pipeline is parametric in it. *)
Variable localeCompare : string -> string -> Z.

Definition by_stars_then_name (a b : Library.t) : Z :=
  let starsA := read (Library.stars a) ?? 0 in
  let starsB := read (Library.stars b) ?? 0 in
  if negb (starsB =? starsA) then starsB - starsA
  else localeCompare (Library.name a) (Library.name b).

Definition finalRegistry (enrichedLibraries : list Library.t) : list Library.t :=
  Array_sort by_stars_then_name (filter is_active enrichedLibraries).

(** generateRegistry, steps 2 to 5, from the entries of the fetched index to
    [finalRegistry]. *)
Definition generateRegistry (remote : Remote)
  (rawLibraries : list (option RawEntry.t)) : M (list Library.t) :=
  emit (Console_log "Grouping libraries by name...") ;;
  uniqueLibraries <- groupLibraries rawLibraries ;;
  emit (Console_log
    ("Grouped into " ++ string_of_nat (List.length uniqueLibraries)
     ++ " unique libraries.")%string) ;;
  emit (Console_log
    ("Enriching libraries with GitHub data ("
     ++ string_of_nat CONCURRENT_REQUESTS ++ " concurrent requests)...")%string) ;;
  enrichedLibraries <-
    processInBatches uniqueLibraries CONCURRENT_REQUESTS (processor remote) ;;
  emit (Console_log "Filtering and sorting the final registry...") ;;
  let final := finalRegistry enrichedLibraries in
  emit (Console_log
    ("Final registry contains " ++ string_of_nat (List.length final)
     ++ " active libraries.")%string) ;;
  ret final.

End FinalRegistry.

(** ** Notions used to state the properties *)

(** The value a computation returns, [d] when it does not return. *)
Definition value_or {A : Type} (m : M A) (d : A) : A :=
  match fst m with
  | Returns a => a
  | _ => d
  end.

(** The libraries after grouping, and a library processed on its own. *)
Definition uniqueLibraries (rawLibraries : list (option RawEntry.t))
  : list Library.t :=
  value_or (groupLibraries rawLibraries) [].

Definition processed_alone (remote : Remote) (lib : Library.t) : Library.t :=
  value_or (processor remote lib) lib.

Definition enrichedLibraries (remote : Remote)
  (rawLibraries : list (option RawEntry.t)) : list Library.t :=
  map (processed_alone remote) (uniqueLibraries rawLibraries).

(** The names of the usable entries, and the version records of the entries
    named [name], both in the order of the index. *)
Definition usable_names (rawLibraries : list (option RawEntry.t)) : list string :=
  flat_map (fun lib =>
    match usable_name lib with
    | Some n => [n]
    | None => []
    end) rawLibraries.

Definition versions_named (name : string)
  (rawLibraries : list (option RawEntry.t)) : list VersionInfo.t :=
  flat_map (fun lib =>
    match lib, usable_name lib with
    | Some entry, Some n =>
        if (n =? name)%string then [versionInfo_of entry] else []
    | _, _ => []
    end) rawLibraries.

(** The names of [names] that are not in [seen], each once, in the order of
    their first occurrence. *)
Fixpoint first_seen (seen names : list string) : list string :=
  match names with
  | [] => []
  | n :: rest =>
      if existsb (fun k => (k =? n)%string) seen then first_seen seen rest
      else n :: first_seen (seen ++ [n]) rest
  end.

Definition unusable_count (rawLibraries : list (option RawEntry.t)) : nat :=
  List.length (filter (fun lib =>
    match usable_name lib with
    | Some _ => false
    | None => true
    end) rawLibraries).

(** Versions as the specification reads them: the numeric prefix
    major[.minor[.patch]], a missing component being 0 and a string without
    a leading number being 0.0.0. *)

Fixpoint all_digits (s : string) : bool :=
  match s with
  | EmptyString => true
  | String c s' => is_digit c && all_digits s'
  end.

Definition numeral (s : string) : Prop := s <> EmptyString /\ all_digits s = true.

Definition starts_with_digit (s : string) : bool :=
  match s with
  | String c _ => is_digit c
  | EmptyString => false
  end.

Definition starts_with_dot_digit (s : string) : bool :=
  match s with
  | String "." s' => starts_with_digit s'
  | _ => false
  end.

Inductive leading_version : string -> Z * Z * Z -> Prop :=
| version_none v :
    starts_with_digit v = false ->
    leading_version v (0, 0, 0)
| version_major d1 rest :
    numeral d1 ->
    starts_with_digit rest = false -> starts_with_dot_digit rest = false ->
    leading_version (d1 ++ rest)%string (decimal_value d1, 0, 0)
| version_minor d1 d2 rest :
    numeral d1 -> numeral d2 ->
    starts_with_digit rest = false -> starts_with_dot_digit rest = false ->
    leading_version (d1 ++ "." ++ d2 ++ rest)%string
      (decimal_value d1, decimal_value d2, 0)
| version_patch d1 d2 d3 rest :
    numeral d1 -> numeral d2 -> numeral d3 ->
    starts_with_digit rest = false ->
    leading_version (d1 ++ "." ++ d2 ++ "." ++ d3 ++ rest)%string
      (decimal_value d1, decimal_value d2, decimal_value d3).

(** [version_lt x y]: [x] is the older version. *)
Definition version_lt (x y : Z * Z * Z) : Prop :=
  let '(x1, x2, x3) := x in
  let '(y1, y2, y3) := y in
  x1 < y1 \/ (x1 = y1 /\ (x2 < y2 \/ (x2 = y2 /\ x3 < y3))).

(** The numbers of the leading prefix, computed exactly. *)
Definition component (capture : js string) : Z :=
  match capture with
  | val digits => decimal_value digits
  | _ => 0
  end.

Definition leading_numbers (v : string) : Z * Z * Z :=
  match match_version v with
  | None => (0, 0, 0)
  | Some (m1, m2, m3) => (decimal_value m1, component m2, component m3)
  end.

(** The exact descending comparison of two versions: negative when [x] is
    the newer one. *)
Definition descending (x y : Z * Z * Z) : Z :=
  let '(x1, x2, x3) := x in
  let '(y1, y2, y3) := y in
  if negb (x1 =? y1) then y1 - x1
  else if negb (x2 =? y2) then y2 - x2
  else y3 - x3.

(** A number the comparator meets, on the scale of the integers: a whole
    double is its own value, and [Infinity] stands above every double. *)
Definition magnitude (n : Number) : Z :=
  match n with
  | Num q => Qnum q
  | Infinity negative => if negative then - 2 ^ 1024 else 2 ^ 1024
  | NaN => 0
  end.

(** [n] is [Infinity] or a whole double that is not negative. *)
Definition whole (n : Number) : Prop :=
  n = Infinity false
  \/ exists z, n = Num (inject_Z z) /\ 0 <= z < 2 ^ 1024.

(** The version the comparator works with: the magnitudes of the parsed
    components. *)
Definition version_key (v : string) : Z * Z * Z :=
  let '(major, minor, patch) := parseVersion v in
  (magnitude major, magnitude minor, magnitude patch).

(** A version whose components are all below 2^53: a double holds each of
    them exactly. *)
Definition modest (x : Z * Z * Z) : Prop :=
  let '(x1, x2, x3) := x in x1 < 2 ^ 53 /\ x2 < 2 ^ 53 /\ x3 < 2 ^ 53.

(** The numbers of a version as doubles hold them: each component rounded
    to the nearest double, one of 2^1024 or more standing above them all. *)
Definition held (x : Z * Z * Z) : Z * Z * Z :=
  let '(x1, x2, x3) := x in
  (magnitude (double (inject_Z x1)), magnitude (double (inject_Z x2)),
   magnitude (double (inject_Z x3))).

(** The version record [a] is not older than [b], by their leading numbers
    as doubles hold them. *)
Definition not_older (a b : VersionInfo.t) : Prop :=
  forall ta tb,
    leading_version (VersionInfo.version a) ta ->
    leading_version (VersionInfo.version b) tb ->
    ~ version_lt (held ta) (held tb).

(** The version record [a] is not older than [b], by their leading numbers
    themselves. *)
Definition not_older_exactly (a b : VersionInfo.t) : Prop :=
  forall ta tb,
    leading_version (VersionInfo.version a) ta ->
    leading_version (VersionInfo.version b) tb ->
    ~ version_lt ta tb.

(** Every entry of the index bears a modest version. *)
Definition modest_versions (rawLibraries : list (option RawEntry.t)) : Prop :=
  forall entry t,
    In (Some entry) rawLibraries ->
    leading_version (RawEntry.version entry) t -> modest t.

(** The entries of the index whose name is [name], in the order of the
    index. *)
Definition entries_named (name : string)
  (rawLibraries : list (option RawEntry.t)) : list RawEntry.t :=
  flat_map (fun lib =>
    match lib with
    | Some entry =>
        match RawEntry.name entry with
        | val n => if (n =? name)%string then [entry] else []
        | _ => []
        end
    | None => []
    end) rawLibraries.

(** The version record [v] holds the version, the url, the archive file
    name, the size and the checksum of [entry]. *)
Definition recorded_from (v : VersionInfo.t) (entry : RawEntry.t) : Prop :=
  VersionInfo.version v = RawEntry.version entry
  /\ VersionInfo.url v = RawEntry.url entry
  /\ VersionInfo.archiveFileName v = RawEntry.archiveFileName entry
  /\ VersionInfo.size v = RawEntry.size entry
  /\ VersionInfo.checksum v = RawEntry.checksum entry.

(** An operation under test for [withRetry]: [script k] is how its [k]-th
    invocation settles, and the spy records each invocation. *)
Inductive Attempt (A : Type) : Type :=
| Resolves (a : A)
| Rejects (e : JsError).

Arguments Resolves {A} a.
Arguments Rejects {A} e.

Definition spy {A : Type} (script : nat -> Attempt A) (k : nat) : M A :=
  match script k with
  | Resolves a => (Returns a, [Invoked k])
  | Rejects e => (Throws (val e), [Invoked k])
  end.

Definition invocations (trace : list Event) : list nat :=
  flat_map (fun e =>
    match e with
    | Invoked k => [k]
    | _ => []
    end) trace.

Definition sleeps (trace : list Event) : list Number :=
  flat_map (fun e =>
    match e with
    | Sleep ms => [ms]
    | _ => []
    end) trace.

Definition requests (trace : list Event) : list string :=
  flat_map (fun e =>
    match e with
    | Request url => [url]
    | _ => []
    end) trace.

(** Enrichment properties as a reader of the object sees them. *)
Definition absent {A : Type} (property : option (js A)) : Prop :=
  read property = undefined.

Definition all_absent (lib : Library.t) : Prop :=
  absent (Library.stars lib) /\ absent (Library.isArchived lib)
  /\ absent (Library.pushedAt lib) /\ absent (Library.openIssues lib)
  /\ absent (Library.topics lib) /\ absent (Library.license lib)
  /\ absent (Library.githubDescription lib).

Definition all_populated (lib : Library.t) : Prop :=
  ~ absent (Library.stars lib) /\ ~ absent (Library.isArchived lib)
  /\ ~ absent (Library.pushedAt lib) /\ ~ absent (Library.openIssues lib)
  /\ ~ absent (Library.topics lib) /\ ~ absent (Library.license lib)
  /\ ~ absent (Library.githubDescription lib).

(** None of the seven properties exists on the object. *)
Definition never_assigned (lib : Library.t) : Prop :=
  Library.stars lib = None /\ Library.isArchived lib = None
  /\ Library.pushedAt lib = None /\ Library.openIssues lib = None
  /\ Library.topics lib = None /\ Library.license lib = None
  /\ Library.githubDescription lib = None.

(** The seven properties were assigned from [data]. *)
Definition assigned_from (data : GitHubData.t) (lib : Library.t) : Prop :=
  Library.stars lib = Some (GitHubData.stars data)
  /\ Library.isArchived lib = Some (GitHubData.isArchived data)
  /\ Library.pushedAt lib = Some (GitHubData.pushedAt data)
  /\ Library.openIssues lib = Some (GitHubData.openIssues data)
  /\ Library.topics lib = Some (GitHubData.topics data)
  /\ Library.license lib = Some (GitHubData.license data)
  /\ Library.githubDescription lib = Some (GitHubData.description data).

(** The seven properties as a 404 answer leaves them: [stars] 0,
    [isArchived] true, the other five assigned [undefined]. *)
Definition enriched_as_not_found (lib : Library.t) : Prop :=
  Library.stars lib = Some (val 0)
  /\ Library.isArchived lib = Some (val true)
  /\ Library.pushedAt lib = Some undefined
  /\ Library.openIssues lib = Some undefined
  /\ Library.topics lib = Some undefined
  /\ Library.license lib = Some undefined
  /\ Library.githubDescription lib = Some undefined.

(** The seven properties as the body [json] of a successful answer leaves
    them: [stars], [isArchived], [openIssues] and [topics] hold the value of
    the body or a default, [license] holds the SPDX identifier or [null],
    [pushedAt] and [githubDescription] hold what the body has. *)
Definition enriched_from_body (json : RepoJson.t) (lib : Library.t) : Prop :=
  Library.stars lib = Some (val (RepoJson.stargazers_count json ?? 0))
  /\ Library.isArchived lib = Some (val (RepoJson.archived json ?? false))
  /\ Library.pushedAt lib = Some (RepoJson.pushed_at json)
  /\ Library.openIssues lib = Some (val (RepoJson.open_issues_count json ?? 0))
  /\ Library.topics lib = Some (val (RepoJson.topics json ?? []))
  /\ ((exists l id, RepoJson.license json = val l /\ spdx_id l = val id
                    /\ Library.license lib = Some (val id))
      \/ Library.license lib = Some null)
  /\ Library.githubDescription lib = Some (RepoJson.description json).

(** Star count as the sort reads it, and the two orders on names. *)
Definition stars_of (lib : Library.t) : Z := read (Library.stars lib) ?? 0.

(** Case-sensitive lexicographic order: code unit by code unit. *)
Definition code_unit_le (a b : string) : Prop := String.compare a b <> Gt.

(** The collation of the runtime on names made of ASCII letters and digits
    (the root collation of CLDR, which the English locales use unchanged):
    digits sort before letters and letters alphabetically whatever their
    case; only between names equal up to case does case decide, lower case
    first. Other characters are placed before the digits by their code,
    which is not the order the runtime gives them among themselves. *)
Definition primary_weight (c : ascii) : nat :=
  if is_lower c then 512 + nat_of_ascii c
  else if is_upper c then 512 + 32 + nat_of_ascii c
  else if is_digit c then 256 + nat_of_ascii c
  else nat_of_ascii c.

Definition tertiary_weight (c : ascii) : nat :=
  if is_upper c then 1 else 0.

Fixpoint compare_weights (a b : list nat) : comparison :=
  match a, b with
  | [], [] => Eq
  | [], _ :: _ => Lt
  | _ :: _, [] => Gt
  | x :: a', y :: b' =>
      match Nat.compare x y with
      | Eq => compare_weights a' b'
      | c => c
      end
  end.

Definition weights (weight : ascii -> nat) (s : string) : list nat :=
  map weight (list_ascii_of_string s).

Definition Z_of_comparison (c : comparison) : Z :=
  match c with
  | Lt => -1
  | Eq => 0
  | Gt => 1
  end.

Definition root_collation (a b : string) : Z :=
  match compare_weights (weights primary_weight a) (weights primary_weight b) with
  | Eq =>
      Z_of_comparison
        (compare_weights (weights tertiary_weight a) (weights tertiary_weight b))
  | c => Z_of_comparison c
  end.

(** Neighbours of the list are in order: stars do not increase, and names
    of equal stars follow [le_name]. *)
Definition ranked (le_name : string -> string -> Prop) (out : list Library.t)
  : Prop :=
  forall i a b,
    nth_error out i = Some a -> nth_error out (S i) = Some b ->
    stars_of b <= stars_of a
    /\ (stars_of a = stars_of b -> le_name (Library.name a) (Library.name b)).

(** The endpoint's answers. [answers x response]: the request of exchange
    [x] is answered by [response] before the timeout. *)
Definition answers (x : Exchange) (response : Response.t) : Prop :=
  exists after_ms,
    answer x = Responds after_ms response /\ after_ms < FETCH_TIMEOUT_MS.

Definition rate_limited (response : Response.t) : Prop :=
  Response.status response = 403 \/ Response.status response = 429.

(** [Date.now()] in seconds. *)
Definition seconds (ms : Z) : Q := (inject_Z ms / 1000)%Q.

(** The wait of the specification after a rate-limit answer that carries the
    reset time [T], in milliseconds: max(0, T - now) seconds and one second
    more. *)
Definition specified_wait (T date_now : Z) : Q :=
  ((Qmax 0 (inject_Z T - seconds date_now) + 1) * 1000)%Q.

(** The keys of a map, in insertion order. *)
Definition keys {V : Type} (m : JsMap V) : list string := map fst m.

(** A library as the grouping creates it: no enrichment property yet, and
    [repository] either [null] or the canonical URL of a repository. *)
Definition as_created (lib : Library.t) : Prop :=
  never_assigned lib
  /\ (Library.repository lib = null
      \/ exists info,
           Library.repository lib
           = val ("https://github.com/" ++ repo_path info)%string).

(** The invariant of [librariesMap] during grouping: no key twice, and
    under each key a library of that name, as created. *)
Definition grouped_ok (m : JsMap Library.t) : Prop :=
  NoDup (keys m)
  /\ forall k lib, In (k, lib) m -> Library.name lib = k /\ as_created lib.

(** The versions recorded under [k] so far. *)
Definition versions_before (m : JsMap Library.t) (k : string)
  : list VersionInfo.t :=
  match Map_get m k with
  | Some lib => Library.versions lib
  | None => []
  end.

(** ** Sample data *)

(** An index entry with a name, a version and a website. *)
Definition sample_entry (name version website : string) : option RawEntry.t :=
  Some (RawEntry.mk (val name) undefined undefined undefined undefined
          (val website) undefined undefined undefined undefined version
          undefined undefined undefined undefined).

(** An answer after 120 ms with the given status, and no reset header. *)
Definition sample_answer (status : Z) (body : JsonBody) : Exchange :=
  mkExchange (Responds 120 (Response.mk status "" null body)) 0.

Definition sample_repo (stars : Z) : JsonBody :=
  JsonObject (RepoJson.mk (val stars) (val false) (val "2024-05-01T10:00:00Z")
                (val 3) null (val (mkLicense (val "MIT"))) (val ["arduino"])).

(** Two libraries of the same repository owner, [a] and [B]. *)
Definition sample_index : list (option RawEntry.t) :=
  [sample_entry "B" "1.0.0" "https://github.com/o/B";
   sample_entry "a" "1.0.0" "https://github.com/o/a";
   sample_entry "B" "1.2.0" "https://github.com/o/B"].

(** An endpoint that never answers, one that knows no repository, and one
    that knows only [a]. *)
Definition silent_remote : Remote := fun _ _ => mkExchange Hangs 0.

Definition missing_remote : Remote := fun _ _ => sample_answer 404 JsonNull.

Definition sample_remote : Remote :=
  fun name _ =>
    if (name =? "a")%string then sample_answer 200 (sample_repo 100)
    else sample_answer 404 JsonNull.

(** The index of the first scenario of the specification: two entries of
    [Foo], whose URL names the repository [a/foo], and one entry of [Bar],
    whose URL names no repository. *)
Definition scenario_index : list (option RawEntry.t) :=
  [sample_entry "Foo" "1.0.0" "https://github.com/a/foo";
   sample_entry "Foo" "2.1.3" "https://github.com/a/foo";
   sample_entry "Bar" "1.0.0" "https://example.org/bar"].

(** An index with two versions of one library that doubles do not tell
    apart by their first number. *)
Definition large_index : list (option RawEntry.t) :=
  [sample_entry "Big" "9007199254740992.0.1" "https://github.com/o/big";
   sample_entry "Big" "9007199254740993" "https://github.com/o/big"].

Definition scenario_remote : Remote :=
  fun _ _ =>
    sample_answer 200
      (JsonObject (RepoJson.mk (val 100) (val false) undefined undefined
                     undefined undefined undefined)).

(** An endpoint that answers every request with a rate-limit status and no
    reset header. *)
Definition limiting_api : nat -> Exchange :=
  fun _ => sample_answer 429 JsonNull.

(** An endpoint that answers for [a] as [sample_remote] does and never
    answers for any other library. *)
Definition partial_remote : Remote :=
  fun name k =>
    if (name =? "a")%string then sample_remote name k else mkExchange Hangs 0.

(** A library to stand for "none" in [nth]. *)
Definition no_library : Library.t :=
  Library.mk "" undefined undefined undefined undefined undefined undefined
    undefined undefined null None [] None None None None None None None.

(** ** Further notions *)

(** Every character of [s] satisfies [p]; [s] starts with a character that
    satisfies [p]. *)
Fixpoint all_chars (p : ascii -> bool) (s : string) : bool :=
  match s with
  | EmptyString => true
  | String c s' => p c && all_chars p s'
  end.

Definition starts_with (p : ascii -> bool) (s : string) : bool :=
  match s with
  | String c _ => p c
  | EmptyString => false
  end.

(** A segment of a repository URL: not empty, and made of the characters of
    the class [[\w.-]]. *)
Definition repo_segment (s : string) : Prop :=
  s <> EmptyString /\ all_chars is_repo_char s = true.

(** No character of [s] is the letter g. *)
Definition without_g (s : string) : Prop :=
  all_chars (fun c => negb (c =? "g")%char) s = true.

(** The request of exchange [x] brings nothing the fetch can use, and no
    rate-limit answer either: the network never settles, or settles after
    the timeout, or fails; or the answer has an error status other than 403,
    429 and 404; or its body cannot be read as an object. *)
Inductive unusable (x : Exchange) : Prop :=
| no_answer :
    answer x = Hangs -> unusable x
| late_answer after_ms response :
    answer x = Responds after_ms response -> FETCH_TIMEOUT_MS <= after_ms ->
    unusable x
| transport_failure after_ms e :
    answer x = Fails after_ms e -> unusable x
| error_status response :
    answers x response -> ~ rate_limited response ->
    Response.status response <> 404 -> Response.ok response = false ->
    unusable x
| unreadable_body response :
    answers x response -> Response.ok response = true ->
    (forall data, Response.body response <> JsonObject data) ->
    unusable x.

(** The endpoint answers the requests [from], ..., [to - 1] with a
    rate-limit status. *)
Definition limited_between (api : nat -> Exchange) (from to : nat) : Prop :=
  forall j, (from <= j < to)%nat ->
    exists response, answers (api j) response /\ rate_limited response.

(** The version record [v] bears a version that compares equal to [w]. *)
Definition same_version (w : string) (v : VersionInfo.t) : bool :=
  SortCompare (compareSemver (VersionInfo.version v) w) =? 0.

(** The first entry of the index that bears the usable name [name]. *)
Fixpoint first_entry (name : string) (rawLibraries : list (option RawEntry.t))
  : option RawEntry.t :=
  match rawLibraries with
  | [] => None
  | lib :: rest =>
      match lib, usable_name lib with
      | Some entry, Some n =>
          if (n =? name)%string then Some entry else first_entry name rest
      | _, _ => first_entry name rest
      end
  end.

(** What the processor leaves untouched: the properties of a library that
    come from the index. *)
Definition as_listed (lib : Library.t) : Library.t :=
  Library.mk (Library.name lib) (Library.author lib) (Library.maintainer lib)
    (Library.sentence lib) (Library.paragraph lib) (Library.website lib)
    (Library.category lib) (Library.architectures lib) (Library.types lib)
    (Library.repository lib) None (Library.versions lib)
    None None None None None None None.

(** The requests the processor issues for [lib]. *)
Definition requests_for (remote : Remote) (lib : Library.t) : list string :=
  requests (snd (processor remote lib)).

(** ** The whole run (generate.js, lines 8-25, 167-186 and 275-290) *)

Definition LIBRARY_INDEX_URL : string :=
  "https://downloads.arduino.cc/libraries/library_index.json".

(** The parsed body of the index, as the validation reads it
    ([!indexData || !Array.isArray(indexData.libraries)]): a falsy value; a
    truthy value whose [libraries] is not an array; or a value whose
    [libraries] is an array, with its entries. *)
Inductive IndexData : Type :=
| IndexFalsy
| IndexWithoutLibraries
| IndexLibraries (libraries : list (option RawEntry.t)).

(** [response.json()] on the answer of the index: it rejects, or parses. *)
Inductive IndexBody : Type :=
| IndexRejects (e : JsError)
| IndexParsed (data : IndexData).

(** One request of the index: what the network does, and what reading the
    body of the answer gives (the [body] of the answer itself is that of a
    repository answer and is not read here). *)
Record IndexExchange : Type := mkIndexExchange {
  index_answer : Fetched;
  index_body : IndexBody
}.

(** The operation handed to [withRetry] (lines 172-178). *)
Definition fetch_index (x : IndexExchange) : M IndexData :=
  response <- fetchWithTimeout (index_answer x) LIBRARY_INDEX_URL ;;
  if negb (Response.ok response) then
    throw (val (mkError "Error"
      ("Failed to fetch Arduino library index: "
       ++ string_of_Z (Response.status response))%string))
  else
    match index_body x with
    | IndexRejects e => throw (val e)
    | IndexParsed data => ret data
    end.

Definition invalid_index : JsError :=
  mkError "Error"
    "Invalid Arduino library index format: 'libraries' array not found".

(** The validation of lines 181-185. *)
Definition validate_index (indexData : IndexData)
  : M (list (option RawEntry.t)) :=
  match indexData with
  | IndexLibraries libraries => ret libraries
  | IndexFalsy | IndexWithoutLibraries => throw (val invalid_index)
  end.

(** The object written to the output file (lines 276-280). *)
Module Registry.
Record t : Type := mk {
  generatedAt : string;
  totalLibraries : nat;
  libraries : list Library.t
}.
End Registry.

(** How the process ends: the promise of [generateRegistry] resolved and the
    process ends on its own; [process.exit(code)] was called; the handler
    of the rejection threw itself; or the run never ends. *)
Inductive Ending : Type :=
| Completes
| Exits (code : Z)
| Unhandled (e : js JsError)
| Never.

(** A run of [generateRegistry], and a run of the script: how it ended, the
    effects in order, and the registry the output file holds once
    [fs.writeFile] has resolved ([None] when no write has completed). *)
Record Run : Type := mkRun {
  result : Outcome unit;
  effects : list Event;
  file : option Registry.t
}.

Record Process : Type := mkProcess {
  ending : Ending;
  output : list Event;
  registry_file : option Registry.t
}.

Section WholeRun.

Variable localeCompare : string -> string -> Z.

(** [path.join(__dirname, 'registry.json')] *)
Variable OUTPUT_FILE : string.

(** [process.env.GITHUB_TOKEN] *)
Variable GITHUB_TOKEN : js string.

(** What the index answers to the request of each attempt, what the
    metadata endpoint answers, [new Date().toISOString()] when the output
    is built, and the error of [fs.writeFile] if it rejects. *)
Variable arduino : nat -> IndexExchange.
Variable remote : Remote.
Variable clock : string.
Variable disk : option JsError.

(** Lines 16-18, run when the script is loaded. *)
Definition startup : list Event :=
  if negb (truthy_string GITHUB_TOKEN) then
    [Console_warn
       "Warning: GITHUB_TOKEN is not set. You may hit rate limits quickly."]
  else [].

(** generateRegistry up to the object [output] (lines 168-280). *)
Definition build_output : M Registry.t :=
  emit (Console_log "Starting registry generation...") ;;
  emit (Console_log "Fetching Arduino library index...") ;;
  indexData <-
    withRetry (fun attempt => fetch_index (arduino attempt)) MAX_RETRIES
      "[Arduino API]" ;;
  rawLibraries <- validate_index indexData ;;
  emit (Console_log
    ("Found " ++ string_of_nat (List.length rawLibraries)
     ++ " raw library entries.")%string) ;;
  finalRegistry <- generateRegistry localeCompare remote rawLibraries ;;
  ret (Registry.mk clock (List.length finalRegistry) finalRegistry).

(** generateRegistry as a whole: the output is written last (lines
    282-283). *)
Definition generateRegistry_whole : Run :=
  match build_output with
  | (Returns output, t) =>
      match disk with
      | None =>
          mkRun (Returns tt)
            (t ++ [Console_log
                     ("Successfully wrote registry to " ++ OUTPUT_FILE)%string])
            (Some output)
      | Some e => mkRun (Throws (val e)) t None
      end
  | (Throws e, t) => mkRun (Throws e) t None
  | (OutOfFuel, t) => mkRun OutOfFuel t None
  end.

(** The script: [generateRegistry().catch(...)] (lines 287-290). *)
Definition script : Process :=
  let run := generateRegistry_whole in
  match result run with
  | Returns _ => mkProcess Completes (startup ++ effects run) (file run)
  | Throws (val error) =>
      mkProcess (Exits 1)
        (startup ++ effects run
         ++ [Console_error
               ("::error::FATAL: Registry generation failed. "
                ++ err_message error)%string])
        (file run)
  | Throws undefined =>
      mkProcess
        (Unhandled (val (TypeError
           "Cannot read properties of undefined (reading 'message')")))
        (startup ++ effects run) (file run)
  | Throws null =>
      mkProcess
        (Unhandled (val (TypeError
           "Cannot read properties of null (reading 'message')")))
        (startup ++ effects run) (file run)
  | OutOfFuel => mkProcess Never (startup ++ effects run) (file run)
  end.

End WholeRun.

(** The request of the index is answered in time with a success status and
    a body that parses to [data]. *)
Definition delivers (x : IndexExchange) (data : IndexData) : Prop :=
  exists after_ms response,
    index_answer x = Responds after_ms response
    /\ after_ms < FETCH_TIMEOUT_MS
    /\ Response.ok response = true
    /\ index_body x = IndexParsed data.

(** The attempts 1, ..., [k - 1] at the index deliver nothing. *)
Definition undelivered_before (arduino : nat -> IndexExchange) (k : nat) : Prop :=
  forall j data, (1 <= j < k)%nat -> ~ delivers (arduino j) data.

(** The sleeps of [withRetry] after [n] failed attempts. *)
Definition backoff_sleeps (n : nat) : list Number :=
  map (fun attempt => Num (inject_Z (backoff_delay attempt))) (seq 1 n).

(** An index exchange for the examples: an answer after 80 ms. *)
Definition index_delivering (data : IndexData) : IndexExchange :=
  mkIndexExchange (Responds 80 (Response.mk 200 "OK" null JsonNull))
    (IndexParsed data).

Definition index_down : IndexExchange :=
  mkIndexExchange (Responds 80 (Response.mk 503 "Service Unavailable" null JsonNull))
    (IndexRejects (mkError "SyntaxError" "Unexpected token < in JSON")).

(** * Properties *)

(** ** Examples *)

Example double_examples :
  double (inject_Z 9007199254740993) = Num 9007199254740992
  /\ double (inject_Z 9007199254740995) = Num 9007199254740996
  /\ double (1 # 10) = Num (3602879701896397 # 36028797018963968)
  /\ double (inject_Z (2 ^ 1024 - 2 ^ 970 - 1))
     = Num (inject_Z (2 ^ 1024 - 2 ^ 971))
  /\ double (inject_Z (2 ^ 1024 - 2 ^ 970)) = Infinity false
  /\ double (1 # Z.to_pos (2 ^ 1075)) = Num 0
  /\ Number_div (Num 6999) (Num 1000)
     = Num (7880173447991525 # 1125899906842624).
Proof. repeat split; vm_compute; reflexivity. Qed.

Example parseVersion_examples :
  parseVersion "1.2.3" = (Num 1, Num 2, Num 3)
  /\ parseVersion "2.10" = (Num 2, Num 10, Num 0)
  /\ parseVersion "7" = (Num 7, Num 0, Num 0)
  /\ parseVersion "1..3" = (Num 1, Num 0, Num 0)
  /\ parseVersion "01.30.4.5-rc1" = (Num 1, Num 30, Num 4)
  /\ parseVersion "v1.3" = (Num 0, Num 0, Num 0)
  /\ parseVersion "" = (Num 0, Num 0, Num 0)
  /\ parseVersion "9007199254740993.1"
     = (Num 9007199254740992, Num 1, Num 0).
Proof. repeat split; vm_compute; reflexivity. Qed.

Example compareSemver_examples :
  compareSemver "2.1.3" "1.0.0" = Num (-1)
  /\ compareSemver "1.0.0" "1.10.0" = Num 10
  /\ compareSemver "1.0" "1.0.0" = Num 0
  /\ compareSemver "9007199254740993" "9007199254740992" = Num 0
  /\ Array_sort (fun a b => SortCompare (compareSemver a b))
       ["1.0.0"; "2.1.3"; "1.5"; "latest"; "1.10.2"]
     = ["2.1.3"; "1.10.2"; "1.5"; "1.0.0"; "latest"].
Proof. repeat split; vm_compute; reflexivity. Qed.

(** The URL shapes of the specification all give the same identity. *)
Example parseGitHubUrl_examples :
  parseGitHubUrl (val "https://github.com/o/r") = Some (mkRepoInfo "o" "r")
  /\ parseGitHubUrl (val "https://github.com/o/r.git") = Some (mkRepoInfo "o" "r")
  /\ parseGitHubUrl (val "git@github.com:o/r.git") = Some (mkRepoInfo "o" "r")
  /\ parseGitHubUrl (val "https://github.com/o/r/tree/main/src")
     = Some (mkRepoInfo "o" "r")
  /\ parseGitHubUrl (val "https://gitlab.com/o/r") = None
  /\ parseGitHubUrl (val "https://github.com/o") = None
  /\ parseGitHubUrl (val "") = None
  /\ parseGitHubUrl null = None
  /\ parseGitHubUrl undefined = None.
Proof. repeat split. Qed.

(** The first scenario of the specification: the registry holds exactly
    [Foo], newest version first, with its stars; [Bar] has no repository and
    is dropped. *)
Example scenario_foo_bar :
  exists foo trace,
    generateRegistry root_collation scenario_remote scenario_index
    = (Returns [foo], trace)
    /\ Library.name foo = "Foo"
    /\ map VersionInfo.version (Library.versions foo) = ["2.1.3"; "1.0.0"]
    /\ Library.stars foo = Some (val 100)
    /\ Library.isArchived foo = Some (val false)
    /\ requests trace = ["https://api.github.com/repos/a/foo"].
Proof. do 2 eexists. split; [vm_compute; reflexivity|]. repeat split. Qed.

(** The last scenario of the specification: rate-limit answers without a
    reset header are waited for 60 s each, three times, and the fetch then
    gives no data. *)
Example scenario_rate_limit :
  fst (fetchGitHubData limiting_api (Some (mkRepoInfo "a" "foo")) 0)
  = Returns None
  /\ sleeps (snd (fetchGitHubData limiting_api (Some (mkRepoInfo "a" "foo")) 0))
     = [Num 60000; Num 60000; Num 60000]
  /\ List.length
       (requests (snd (fetchGitHubData limiting_api (Some (mkRepoInfo "a" "foo")) 0)))
     = 4%nat.
Proof. repeat split. Qed.

(** With no attempt allowed nothing is invoked and [undefined] is thrown;
    with two attempts that fail, the second error is thrown after one sleep
    of 2 s. *)
Example withRetry_examples :
  withRetry (spy (fun _ => Resolves 1)) 0 "" = (Throws undefined, [])
  /\ fst (withRetry
            (spy (fun k => @Rejects Z (mkError "Error" (string_of_nat k)))) 2 "")
     = Throws (val (mkError "Error" "2"))
  /\ sleeps (snd (withRetry
                    (spy (fun k => @Rejects Z (mkError "Error" (string_of_nat k))))
                    2 ""))
     = [Num (inject_Z 2000)].
Proof. repeat split. Qed.

(** ** Numbers *)

Lemma pow2_pos (e : Z) : (0 < pow2 e)%Q.
Proof. apply Qpower_0_lt. reflexivity. Qed.

Lemma pow2_plus (a b : Z) : (pow2 (a + b) == pow2 a * pow2 b)%Q.
Proof. apply Qpower_plus. discriminate. Qed.

Lemma pow2_minus (a b : Z) : (pow2 (a - b) == pow2 a / pow2 b)%Q.
Proof. apply Qpower_minus. discriminate. Qed.

Lemma pow2_Z (n : Z) : 0 <= n -> (pow2 n == inject_Z (2 ^ n))%Q.
Proof. intros H. unfold pow2. now rewrite (Zpower_Qpower 2 n H). Qed.

Lemma pow2_le (a b : Z) : a <= b -> (pow2 a <= pow2 b)%Q.
Proof. intros H. apply Qpower_le_compat_l; [exact H|discriminate]. Qed.

Lemma pow2_lt (a b : Z) : a < b -> (pow2 a < pow2 b)%Q.
Proof. intros H. apply Qpower_lt_compat_l; [exact H|reflexivity]. Qed.

Lemma pow2_lt_inv (a b : Z) : (pow2 a < pow2 b)%Q -> a < b.
Proof.
  intros H. destruct (Z.lt_ge_cases a b) as [Hlt|Hge]; [exact Hlt|].
  apply pow2_le in Hge. exfalso. exact (Qlt_not_le _ _ H Hge).
Qed.

Lemma binade_spec (q : Q) :
  (0 < q)%Q -> (pow2 (binade q) <= q)%Q /\ (q < pow2 (binade q + 1))%Q.
Proof.
  destruct q as [n d]. intros Hq.
  assert (0 < n) as Hn by (unfold Qlt in Hq; cbn in Hq; lia).
  pose proof (Z.log2_spec n Hn) as [Hn1 Hn2].
  pose proof (Z.log2_spec (Zpos d) ltac:(lia)) as [Hd1 Hd2].
  pose proof (Z.log2_nonneg n) as Ha. pose proof (Z.log2_nonneg (Zpos d)) as Hb.
  set (a := Z.log2 n) in *. set (b := Z.log2 (Zpos d)) in *.
  assert (pow2 (a - b - 1) < n # d)%Q as Hlow.
  { replace (a - b - 1) with (a - (b + 1)) by lia.
    rewrite pow2_minus, (pow2_Z a Ha), (pow2_Z (b + 1)) by lia.
    rewrite (Qmake_Qdiv n d). apply Qlt_shift_div_l.
    - change 0%Q with (inject_Z 0). rewrite <- Zlt_Qlt. lia.
    - unfold Qdiv. rewrite <- Qmult_assoc, (Qmult_comm (/ _)).
      rewrite Qmult_assoc. apply Qlt_shift_div_r.
      + change 0%Q with (inject_Z 0). rewrite <- Zlt_Qlt. lia.
      + rewrite <- !inject_Z_mult, <- Zlt_Qlt. nia. }
  assert (n # d < pow2 (a - b + 1))%Q as Hhigh.
  { replace (a - b + 1) with (a + 1 - b) by lia.
    rewrite pow2_minus, (pow2_Z (a + 1)), (pow2_Z b Hb) by lia.
    rewrite (Qmake_Qdiv n d). apply Qlt_shift_div_l.
    - change 0%Q with (inject_Z 0). rewrite <- Zlt_Qlt. lia.
    - unfold Qdiv. rewrite <- Qmult_assoc, (Qmult_comm (/ _)).
      rewrite Qmult_assoc. apply Qlt_shift_div_r.
      + change 0%Q with (inject_Z 0). rewrite <- Zlt_Qlt. lia.
      + rewrite <- !inject_Z_mult, <- Zlt_Qlt. nia. }
  unfold binade. cbn [Qnum Qden]. fold a b.
  destruct (Qle_bool (pow2 (a - b)) (n # d)) eqn:Hk.
  - apply Qle_bool_iff in Hk. split; assumption.
  - split; [now apply Qlt_le_weak|].
    replace (a - b - 1 + 1) with (a - b) by lia.
    apply Qnot_le_lt. intros H. apply Qle_bool_iff in H. congruence.
Qed.

Lemma binade_unique (q : Q) (k : Z) :
  (pow2 k <= q)%Q -> (q < pow2 (k + 1))%Q -> binade q = k.
Proof.
  intros Hlow Hhigh.
  assert (0 < q)%Q as Hq by (eapply Qlt_le_trans; [apply (pow2_pos k)|exact Hlow]).
  destruct (binade_spec q Hq) as [Hlow' Hhigh'].
  assert (binade q < k + 1)
    by (apply pow2_lt_inv; eapply Qle_lt_trans; eassumption).
  assert (k < binade q + 1)
    by (apply pow2_lt_inv; eapply Qle_lt_trans; eassumption).
  lia.
Qed.

Lemma binade_comp (p q : Q) : (0 < p)%Q -> (p == q)%Q -> binade p = binade q.
Proof.
  intros Hp Heq. symmetry. destruct (binade_spec p Hp) as [H1 H2].
  apply binade_unique; now rewrite <- Heq.
Qed.

Lemma binade_Z (z : Z) : 0 < z -> binade (inject_Z z) = Z.log2 z.
Proof.
  intros Hz. destruct (Z.log2_spec z Hz) as [H1 H2].
  pose proof (Z.log2_nonneg z) as H0.
  apply binade_unique.
  - rewrite pow2_Z by lia. now rewrite <- Zle_Qle.
  - rewrite pow2_Z by lia. rewrite <- Zlt_Qlt. now rewrite <- Z.add_1_r in H2.
Qed.

#[local] Instance nearest_even_comp : Proper (Qeq ==> eq) nearest_even.
Proof.
  intros p q Heq. unfold nearest_even.
  assert (Qfloor p = Qfloor q) as -> by now rewrite Heq.
  assert ((p - inject_Z (Qfloor q) ?= 1 # 2) = (q - inject_Z (Qfloor q) ?= 1 # 2))%Q
    as -> by now rewrite Heq.
  reflexivity.
Qed.

Lemma nearest_even_Z (z : Z) : nearest_even (inject_Z z) = z.
Proof.
  unfold nearest_even. rewrite Qfloor_Z.
  assert ((inject_Z z - inject_Z z ?= 1 # 2)%Q = Lt) as ->; [|reflexivity].
  apply Qlt_alt. setoid_replace (inject_Z z - inject_Z z)%Q with 0%Q by ring.
  reflexivity.
Qed.

(** The nearest integer is within a half. *)
Lemma nearest_even_close (t : Q) :
  (Qabs (inject_Z (nearest_even t) - t) <= 1 # 2)%Q.
Proof.
  unfold nearest_even. pose proof (Qfloor_le t) as Hlow.
  pose proof (Qlt_floor t) as Hhigh. rewrite inject_Z_plus in Hhigh.
  change (inject_Z 1) with 1%Q in Hhigh.
  set (f := Qfloor t) in *. apply Qabs_Qle_condition.
  destruct (t - inject_Z f ?= 1 # 2)%Q eqn:Hc.
  - apply Qeq_alt in Hc. destruct (Z.even f); rewrite ?inject_Z_plus;
      change (inject_Z 1) with 1%Q; split; lra.
  - apply Qlt_alt in Hc. split; lra.
  - apply Qgt_alt in Hc. rewrite inject_Z_plus. change (inject_Z 1) with 1%Q.
    split; lra.
Qed.

Lemma nearest_even_bounds (t : Q) (a b : Z) :
  (inject_Z a <= t)%Q -> (t <= inject_Z b)%Q -> a <= nearest_even t <= b.
Proof.
  intros Ha Hb. unfold nearest_even.
  pose proof (Qfloor_resp_le _ _ Ha) as Hfa. rewrite Qfloor_Z in Hfa.
  pose proof (Qfloor_resp_le _ _ Hb) as Hfb. rewrite Qfloor_Z in Hfb.
  pose proof (Qfloor_le t) as Hlow. set (f := Qfloor t) in *.
  assert (f = b \/ f + 1 <= b) as [Heq|Hlt] by lia.
  - assert (t == inject_Z f)%Q as Ht by (subst b; now apply Qle_antisym).
    assert ((t - inject_Z f ?= 1 # 2)%Q = Lt) as ->; [|lia].
    apply Qlt_alt. rewrite Ht. setoid_replace (inject_Z f - inject_Z f)%Q with 0%Q by ring.
    reflexivity.
  - destruct (t - inject_Z f ?= 1 # 2)%Q; [destruct (Z.even f)| |]; lia.
Qed.

Lemma round_positive_comp (p q : Q) :
  (0 < p)%Q -> (p == q)%Q -> round_positive p = round_positive q.
Proof.
  intros Hp Heq. unfold round_positive. rewrite (binade_comp p q Hp Heq).
  apply Qred_complete. now rewrite Heq.
Qed.

Lemma double_comp (p q : Q) : (p == q)%Q -> double p = double q.
Proof.
  intros Heq. unfold double.
  assert ((p ?= 0) = (q ?= 0))%Q as -> by now rewrite Heq.
  destruct (q ?= 0)%Q eqn:Hc; [reflexivity| |].
  - apply Qlt_alt in Hc.
    rewrite (round_positive_comp (- p) (- q)); [reflexivity| |now rewrite Heq].
    rewrite Heq. lra.
  - apply Qgt_alt in Hc.
    rewrite (round_positive_comp p q); [reflexivity| |exact Heq].
    rewrite Heq. exact Hc.
Qed.

Lemma Qred_inject_Z (z : Z) : Qred (inject_Z z) = inject_Z z.
Proof. apply Qcanon.Qred_identity. cbn. apply Z.gcd_1_r. Qed.

(** A positive integer rounds to a positive integer, and to itself below
    2^53. *)
Lemma round_positive_Z (z : Z) :
  0 < z ->
  exists z', round_positive (inject_Z z) = inject_Z z' /\ 0 < z'
    /\ (z < 2 ^ 53 -> z' = z).
Proof.
  intros Hz. unfold round_positive. rewrite (binade_Z z Hz).
  destruct (Z.log2_spec z Hz) as [Hlow Hhigh].
  pose proof (Z.log2_nonneg z) as H0. set (L := Z.log2 z) in *.
  rewrite Z.max_l by lia.
  destruct (Z.le_gt_cases L 52) as [Hsmall|Hbig].
  - (* below 2^53: exact *)
    exists z. split; [|split; [exact Hz|reflexivity]].
    transitivity (Qred (inject_Z z)); [apply Qred_complete|apply Qred_inject_Z].
    assert (inject_Z z / pow2 (L - 52) == inject_Z (z * 2 ^ (52 - L)))%Q as Ht.
    { rewrite inject_Z_mult, <- (pow2_Z (52 - L)) by lia.
      replace (52 - L) with (- (L - 52)) by lia. unfold pow2.
      rewrite Qpower_opp. reflexivity. }
    rewrite Ht, nearest_even_Z, inject_Z_mult, <- (pow2_Z (52 - L)) by lia.
    rewrite <- Qmult_assoc, <- pow2_plus.
    replace (52 - L + (L - 52)) with 0 by lia. change (pow2 0) with 1%Q. ring.
  - (* from 2^53 on: a multiple of the last place *)
    set (e := L - 52) in *.
    assert (0 < pow2 e)%Q as He by apply pow2_pos.
    assert (inject_Z (2 ^ 52) <= inject_Z z / pow2 e)%Q as Hm1.
    { apply Qle_shift_div_l; [exact He|].
      rewrite <- (pow2_Z 52), <- pow2_plus by lia.
      replace (52 + e) with L by (unfold e; lia).
      rewrite pow2_Z by lia. now rewrite <- Zle_Qle. }
    assert (inject_Z z / pow2 e <= inject_Z (2 ^ 53))%Q as Hm2.
    { apply Qle_shift_div_r; [exact He|].
      rewrite <- (pow2_Z 53), <- pow2_plus by lia.
      replace (53 + e) with (Z.succ L) by (unfold e; lia).
      rewrite pow2_Z by lia. rewrite <- Zle_Qle. lia. }
    pose proof (nearest_even_bounds _ _ _ Hm1 Hm2) as Hm.
    set (m := nearest_even (inject_Z z / pow2 e)) in *.
    exists (m * 2 ^ e). split; [|split].
    + transitivity (Qred (inject_Z (m * 2 ^ e)));
        [apply Qred_complete|apply Qred_inject_Z].
      rewrite inject_Z_mult, <- (pow2_Z e) by (unfold e; lia). reflexivity.
    + assert (0 < 2 ^ e) by (apply Z.pow_pos_nonneg; unfold e; lia). nia.
    + intros Hlt. exfalso.
      assert (2 ^ 53 <= 2 ^ L) by (apply Z.pow_le_mono_r; lia). lia.
Qed.


Lemma Qcompare_inject_Z (a b : Z) : (inject_Z a ?= inject_Z b)%Q = (a ?= b).
Proof. unfold Qcompare. cbn. now rewrite !Z.mul_1_r. Qed.

(** An integer rounds to an integer of the same sign or overflows, and to
    itself when its magnitude is below 2^53. *)
Lemma double_Z (z : Z) :
  (double (inject_Z z) = Infinity (z <? 0) /\ z <> 0)
  \/ exists z',
       double (inject_Z z) = Num (inject_Z z')
       /\ Z.sgn z' = Z.sgn z /\ Z.abs z' < 2 ^ 1024
       /\ (Z.abs z < 2 ^ 53 -> z' = z).
Proof.
  assert (forall p z',
            0 < p -> round_positive (inject_Z p) = inject_Z z' -> 0 < z' ->
            (p < 2 ^ 53 -> z' = p) ->
            if Qle_bool (pow2 1024) (round_positive (inject_Z p)) then True
            else z' < 2 ^ 1024) as Hbound.
  { intros p z' Hp Hr Hz' Hsmall. rewrite Hr.
    destruct (Qle_bool (pow2 1024) (inject_Z z')) eqn:Hover; [exact I|].
    apply not_true_iff_false in Hover. rewrite Qle_bool_iff, pow2_Z in Hover by lia.
    rewrite <- Zle_Qle in Hover. lia. }
  unfold double. change 0%Q with (inject_Z 0). rewrite Qcompare_inject_Z.
  destruct (Z.compare_spec z 0) as [->|Hneg|Hpos].
  - right. exists 0. repeat split; cbn; lia.
  - assert (- inject_Z z = inject_Z (- z))%Q as -> by reflexivity.
    destruct (round_positive_Z (- z) ltac:(lia)) as (z' & Hr & Hz' & Hsmall).
    pose proof (Hbound (- z) z' ltac:(lia) Hr Hz' Hsmall) as Hb.
    assert ((z <? 0) = true) as -> by (apply Z.ltb_lt; lia).
    destruct (Qle_bool _ _); [left; split; [reflexivity|lia]|right].
    rewrite Hr. exists (- z'). split; [reflexivity|]. repeat split; lia.
  - destruct (round_positive_Z z Hpos) as (z' & Hr & Hz' & Hsmall).
    pose proof (Hbound z z' Hpos Hr Hz' Hsmall) as Hb.
    assert ((z <? 0) = false) as -> by (apply Z.ltb_ge; lia).
    destruct (Qle_bool _ _); [left; split; [reflexivity|lia]|right].
    rewrite Hr. exists z'. split; [reflexivity|]. repeat split; lia.
Qed.

Lemma double_Z_exact (z : Z) :
  Z.abs z < 2 ^ 53 -> double (inject_Z z) = Num (inject_Z z).
Proof.
  intros Hz. destruct (double_Z z) as [[Hinf Hne]|(z' & Hr & _ & _ & Hsmall)].
  - exfalso. revert Hinf. unfold double. change 0%Q with (inject_Z 0).
    rewrite Qcompare_inject_Z.
    assert (2 ^ 53 <= 2 ^ 1024) as Hpow by (apply Z.pow_le_mono_r; lia).
    destruct (Z.compare_spec z 0) as [->|Hneg|Hpos]; [discriminate| |].
    + assert (- inject_Z z = inject_Z (- z))%Q as -> by reflexivity.
      destruct (round_positive_Z (- z) ltac:(lia)) as (z' & -> & _ & Hsmall).
      rewrite Hsmall by lia.
      assert (Qle_bool (pow2 1024) (inject_Z (- z)) = false) as ->;
        [|discriminate].
      apply not_true_is_false. rewrite Qle_bool_iff, pow2_Z by lia.
      rewrite <- Zle_Qle. lia.
    + destruct (round_positive_Z z Hpos) as (z' & -> & _ & Hsmall).
      rewrite Hsmall by lia.
      assert (Qle_bool (pow2 1024) (inject_Z z) = false) as ->;
        [|discriminate].
      apply not_true_is_false. rewrite Qle_bool_iff, pow2_Z by lia.
      rewrite <- Zle_Qle. lia.
  - now rewrite Hr, Hsmall.
Qed.



(** The rounding error is at most half a unit in the last place: a
    2^-53rd of the number, for a number that is not subnormal. *)
Lemma round_positive_error (q : Q) :
  (pow2 (-1022) <= q)%Q ->
  (Qabs (round_positive q - q) <= q * pow2 (-53))%Q.
Proof.
  intros Hq.
  assert (0 < q)%Q as Hpos
    by (eapply Qlt_le_trans; [apply (pow2_pos (-1022))|exact Hq]).
  destruct (binade_spec q Hpos) as [Hlow Hhigh].
  assert (-1022 <= binade q) as Hb.
  { assert (pow2 (-1022) < pow2 (binade q + 1))%Q as H
      by (eapply Qle_lt_trans; eassumption).
    apply pow2_lt_inv in H. lia. }
  unfold round_positive. rewrite Qred_correct, Z.max_l by lia.
  set (e := binade q - 52) in *. pose proof (pow2_pos e) as He.
  pose proof (nearest_even_close (q / pow2 e)) as Hm.
  set (m := nearest_even (q / pow2 e)) in *.
  assert (inject_Z m * pow2 e - q == (inject_Z m - q / pow2 e) * pow2 e)%Q as ->.
  { field. intros H. rewrite H in He. now apply Qlt_irrefl in He. }
  rewrite Qabs_Qmult, (Qabs_pos (pow2 e)) by now apply Qlt_le_weak.
  apply Qle_trans with ((1 # 2) * pow2 e)%Q.
  - apply Qmult_le_compat_r; [exact Hm|now apply Qlt_le_weak].
  - apply Qle_trans with (pow2 (binade q) * pow2 (-53))%Q.
    + rewrite <- pow2_plus. replace (binade q + -53) with (e + -1) by (unfold e; lia).
      rewrite pow2_plus. change (pow2 (-1)) with (1 # 2)%Q. lra.
    + apply Qmult_le_compat_r; [exact Hlow|]. apply Qlt_le_weak, pow2_pos.
Qed.

(** ** Strings *)

Lemma span_append (p : ascii -> bool) (s : string) :
  (fst (span p s) ++ snd (span p s))%string = s.
Proof.
  induction s as [|c s IH]; simpl; [reflexivity|].
  destruct (p c); simpl; [|reflexivity].
  destruct (span p s) as [a b]; simpl in *. now rewrite IH.
Qed.

Lemma span_digits_all (s : string) : all_digits (fst (span is_digit s)) = true.
Proof.
  induction s as [|c s IH]; simpl; [reflexivity|].
  destruct (is_digit c) eqn:E; simpl; [|reflexivity].
  destruct (span is_digit s) as [a b]; simpl in *. now rewrite E, IH.
Qed.

Lemma span_digits_rest (s : string) :
  starts_with_digit (snd (span is_digit s)) = false.
Proof.
  induction s as [|c s IH]; simpl; [reflexivity|].
  destruct (is_digit c) eqn:E; simpl; [|exact E].
  destruct (span is_digit s) as [a b]; simpl in *. exact IH.
Qed.

Lemma span_digits_empty (s : string) :
  fst (span is_digit s) = EmptyString <-> starts_with_digit s = false.
Proof.
  destruct s as [|c s]; simpl; [tauto|].
  destruct (is_digit c); [|tauto].
  destruct (span is_digit s); simpl. split; discriminate.
Qed.

(** The greedy run of digits of [d ++ rest] is [d] when [rest] does not go
    on with a digit. *)
Lemma span_digits_app (d rest : string) :
  all_digits d = true -> starts_with_digit rest = false ->
  span is_digit (d ++ rest) = (d, rest).
Proof.
  intros Hd Hr. induction d as [|c d IH]; simpl in *.
  - destruct rest as [|c r]; simpl in *; [reflexivity|]. now rewrite Hr.
  - apply andb_true_iff in Hd as [Hc Hd]. rewrite Hc, (IH Hd). reflexivity.
Qed.

Lemma span_space_digit (s : string) :
  starts_with_digit s = true -> span is_space s = (EmptyString, s).
Proof.
  destruct s as [|c s]; cbn [starts_with_digit span]; [discriminate|]. intros H.
  assert (is_space c = false) as ->; [|reflexivity].
  unfold is_digit, is_space in *.
  apply andb_true_iff in H as [H1 H2].
  apply Nat.leb_le in H1. apply Nat.leb_le in H2.
  apply orb_false_iff. split.
  - apply andb_false_iff. right. apply Nat.leb_gt. lia.
  - apply Nat.eqb_neq. lia.
Qed.

Lemma numeral_starts (d rest : string) :
  numeral d -> starts_with_digit (d ++ rest) = true.
Proof.
  intros [Hne Hd]. destruct d as [|c d]; [congruence|]. simpl in *.
  now apply andb_true_iff in Hd.
Qed.

Lemma is_digit_not_sign (c : ascii) :
  is_digit c = true -> c <> "-"%char /\ c <> "+"%char.
Proof.
  intros H. split; intros ->; discriminate.
Qed.

(** [parseInt] reads a numeral as the double of its decimal value. *)
Lemma integer_prefix_numeral (d : string) :
  numeral d -> integer_prefix d = Some (decimal_value d).
Proof.
  intros Hn. pose proof (numeral_starts d EmptyString Hn) as Hs.
  destruct Hn as [Hne Hd].
  assert (d ++ "" = d)%string as Happ.
  { clear. induction d; simpl; congruence. }
  rewrite Happ in Hs. unfold integer_prefix. rewrite (span_space_digit d Hs).
  destruct d as [|c d]; [congruence|].
  simpl in Hs. destruct (is_digit_not_sign c Hs) as [Hm Hp].
  assert (match String c d with
          | String "-" r => (-1, r)
          | String "+" r => (1, r)
          | _ => (1, String c d)
          end = (1, String c d)) as ->.
  { destruct c as [[] [] [] [] [] [] [] []]; try reflexivity; congruence. }
  pose proof (span_digits_app (String c d) EmptyString Hd eq_refl) as Hsp.
  rewrite Happ in Hsp. rewrite Hsp. cbn [String.eqb].
  now rewrite Z.mul_1_l.
Qed.

Lemma parseInt_numeral (d : string) :
  numeral d -> parseInt d = double (inject_Z (decimal_value d)).
Proof. intros Hn. unfold parseInt. now rewrite (integer_prefix_numeral d Hn). Qed.

(** [|| 0] changes nothing to the double of an integer. *)
Lemma number_or_double (z : Z) :
  number_or (double (inject_Z z)) (Num 0) = double (inject_Z z).
Proof.
  destruct (double_Z z) as [[-> _]|(z' & Hr & Hsgn & _)]; [reflexivity|].
  rewrite Hr. unfold number_or.
  destruct (Qeq_bool (inject_Z z') 0) eqn:Hz; [|reflexivity].
  apply Qeq_bool_eq in Hz. unfold Qeq in Hz. cbn in Hz.
  assert (z' = 0) as -> by lia. reflexivity.
Qed.

Lemma decimal_value_from_nonneg (s : string) (acc : Z) :
  all_digits s = true -> 0 <= acc -> 0 <= decimal_value_from acc s.
Proof.
  revert acc.
  induction s as [|c s IH]; cbn [decimal_value_from all_digits];
    intros acc Hd Hacc; [exact Hacc|].
  apply andb_true_iff in Hd as [Hc Hd]. apply IH; [exact Hd|].
  unfold digit_value, is_digit in *. apply andb_true_iff in Hc as [H1 _].
  apply Nat.leb_le in H1. lia.
Qed.

Lemma decimal_value_nonneg (s : string) :
  all_digits s = true -> 0 <= decimal_value s.
Proof. intros H. apply decimal_value_from_nonneg; [exact H|lia]. Qed.

(** ** compareSemver *)

Lemma numeral_not_empty (d : string) : numeral d -> (d =? "")%string = false.
Proof. intros [H _]. now apply String.eqb_neq. Qed.

Lemma optional_dot_digits_none (s : string) :
  starts_with_dot_digit s = false -> optional_dot_digits s = (undefined, s).
Proof.
  unfold optional_dot_digits, starts_with_dot_digit. intros H.
  destruct s as [|c r]; [reflexivity|].
  destruct (Ascii.eqb_spec c "."%char) as [->|Hc].
  - apply span_digits_empty in H.
    destruct (span is_digit r) as [d r']. simpl in H. now subst d.
  - destruct c as [[] [] [] [] [] [] [] []]; try reflexivity. congruence.
Qed.

Lemma optional_dot_digits_some (d rest : string) :
  numeral d -> starts_with_digit rest = false ->
  optional_dot_digits ("." ++ d ++ rest) = (val d, rest).
Proof.
  intros Hn Hr. cbn [optional_dot_digits String.append].
  rewrite (span_digits_app d rest (proj2 Hn) Hr).
  now rewrite (numeral_not_empty d Hn).
Qed.

Lemma optional_dot_digits_cases (s : string) :
  (starts_with_dot_digit s = false /\ optional_dot_digits s = (undefined, s))
  \/ (exists d rest, s = ("." ++ d ++ rest)%string /\ numeral d
        /\ starts_with_digit rest = false
        /\ optional_dot_digits s = (val d, rest)).
Proof.
  destruct (starts_with_dot_digit s) eqn:E.
  - right. unfold starts_with_dot_digit in E.
    destruct s as [|c r]; [discriminate|].
    assert (c = "."%char) as ->.
    { destruct c as [[] [] [] [] [] [] [] []]; try discriminate. reflexivity. }
    exists (fst (span is_digit r)), (snd (span is_digit r)).
    assert (numeral (fst (span is_digit r))) as Hn.
    { split; [|apply span_digits_all].
      intros H. apply span_digits_empty in H. congruence. }
    pose proof (span_digits_rest r) as Hr.
    split; [|split; [exact Hn|split; [exact Hr|]]].
    + cbn [String.append]. now rewrite span_append.
    + rewrite <- (optional_dot_digits_some _ _ Hn Hr).
      cbn [String.append]. now rewrite span_append.
  - left. split; [reflexivity|]. now apply optional_dot_digits_none.
Qed.

Lemma dot_not_digit (s : string) : starts_with_digit ("." ++ s) = false.
Proof. reflexivity. Qed.

(** What the pattern captures: a numeral, and for each optional group
    nothing or a numeral. *)
Lemma match_version_cases (v : string) :
  (match_version v = None /\ starts_with_digit v = false)
  \/ exists m1 m2 m3,
       match_version v = Some (m1, m2, m3) /\ numeral m1
       /\ (m2 = undefined \/ exists d, m2 = val d /\ numeral d)
       /\ (m3 = undefined \/ exists d, m3 = val d /\ numeral d).
Proof.
  unfold match_version.
  pose proof (span_digits_all v) as Hall.
  pose proof (span_digits_empty v) as Hempty.
  destruct (span is_digit v) as [major rest1]. cbn [fst snd] in *.
  destruct (String.eqb_spec major "") as [->|Hne].
  - left. split; [reflexivity|]. now apply Hempty.
  - right. assert (numeral major) as Hmajor by (split; assumption).
    destruct (optional_dot_digits_cases rest1)
      as [[_ E1]|(d2 & rest2 & _ & Hd2 & _ & E1)]; rewrite E1.
    + destruct (optional_dot_digits_cases rest1)
        as [[_ E2]|(d3 & rest3 & _ & Hd3 & _ & E2)]; rewrite E2;
        do 3 eexists; (split; [reflexivity|]); (split; [exact Hmajor|]);
        split; try (now left); right; eexists; split; try reflexivity;
        assumption.
    + destruct (optional_dot_digits_cases rest2)
        as [[_ E2]|(d3 & rest3 & _ & Hd3 & _ & E2)]; rewrite E2;
        do 3 eexists; (split; [reflexivity|]); (split; [exact Hmajor|]);
        split; try (now left); right; eexists; split; try reflexivity;
        assumption.
Qed.

(** Every string has the version [leading_numbers] gives it. *)
Lemma leading_numbers_leading (v : string) : leading_version v (leading_numbers v).
Proof.
  unfold leading_numbers, match_version.
  pose proof (span_append is_digit v) as Hv.
  pose proof (span_digits_all v) as Hall.
  pose proof (span_digits_rest v) as Hrest.
  pose proof (span_digits_empty v) as Hempty.
  destruct (span is_digit v) as [major rest1]. cbn [fst snd] in *.
  destruct (String.eqb_spec major "") as [->|Hne].
  - apply version_none. now apply Hempty.
  - assert (numeral major) as Hmajor by (split; assumption).
    destruct (optional_dot_digits_cases rest1)
      as [[Hnd E1]|(d2 & rest2 & Hs1 & Hd2 & Hr2 & E1)]; rewrite E1.
    + rewrite E1. cbn [component]. subst v. now apply version_major.
    + destruct (optional_dot_digits_cases rest2)
        as [[Hnd E2]|(d3 & rest3 & Hs2 & Hd3 & Hr3 & E2)]; rewrite E2;
        cbn [component]; subst.
      * now apply version_minor.
      * now apply version_patch.
Qed.

(** A string has no other version. *)
Lemma leading_version_numbers (v : string) (t : Z * Z * Z) :
  leading_version v t -> leading_numbers v = t.
Proof.
  intros H. unfold leading_numbers, match_version.
  destruct H as [v H|d1 rest H1 Hr Hd|d1 d2 rest H1 H2 Hr Hd|d1 d2 d3 rest H1 H2 H3 Hr].
  - apply span_digits_empty in H.
    destruct (span is_digit v) as [major rest1]. cbn [fst] in H. now subst.
  - rewrite (span_digits_app d1 rest (proj2 H1) Hr), (numeral_not_empty d1 H1).
    rewrite (optional_dot_digits_none rest Hd). cbv beta iota.
    rewrite (optional_dot_digits_none rest Hd). reflexivity.
  - rewrite (span_digits_app d1 _ (proj2 H1) (dot_not_digit _)).
    rewrite (numeral_not_empty d1 H1), (optional_dot_digits_some d2 rest H2 Hr).
    cbv beta iota.
    rewrite (optional_dot_digits_none rest Hd). reflexivity.
  - rewrite (span_digits_app d1 _ (proj2 H1) (dot_not_digit _)).
    rewrite (numeral_not_empty d1 H1).
    rewrite (optional_dot_digits_some d2 _ H2 (dot_not_digit _)).
    cbv beta iota.
    rewrite (optional_dot_digits_some d3 rest H3 Hr). reflexivity.
Qed.

Lemma leading_numbers_nonneg (v : string) :
  let '(major, minor, patch) := leading_numbers v in
  0 <= major /\ 0 <= minor /\ 0 <= patch.
Proof.
  destruct (leading_numbers_leading v)
    as [v _|d1 rest [_ H1] _ _|d1 d2 rest [_ H1] [_ H2] _ _
       |d1 d2 d3 rest [_ H1] [_ H2] [_ H3] _];
    repeat split; try lia; now apply decimal_value_nonneg.
Qed.

(** The comparator reads the doubles nearest to the leading numbers. *)
Lemma parseVersion_double (v : string) :
  parseVersion v
  = let '(major, minor, patch) := leading_numbers v in
    (double (inject_Z major), double (inject_Z minor), double (inject_Z patch)).
Proof.
  assert (forall m,
            m = undefined \/ (exists d, m = val d /\ numeral d) ->
            number_or (parseInt_js m) (Num 0) = double (inject_Z (component m)))
    as Hcapture.
  { intros m [->|(d & -> & Hd)]; [reflexivity|].
    cbn [parseInt_js component].
    now rewrite (parseInt_numeral d Hd), number_or_double. }
  unfold parseVersion, leading_numbers.
  destruct (match_version_cases v) as [[-> _]|(m1 & m2 & m3 & -> & H1 & H2 & H3)];
    [reflexivity|].
  now rewrite (parseInt_numeral m1 H1), number_or_double, (Hcapture m2 H2),
    (Hcapture m3 H3).
Qed.

(** The double of an integer that is not negative is whole, and keeps the
    integer when that is below 2^53. *)
Lemma double_whole (z : Z) :
  0 <= z ->
  whole (double (inject_Z z))
  /\ 0 <= magnitude (double (inject_Z z))
  /\ (z < 2 ^ 53 -> double (inject_Z z) = Num (inject_Z z)).
Proof.
  intros Hz. split; [|split].
  - destruct (double_Z z) as [[-> _]|(z' & -> & Hsgn & Hbound & _)].
    + assert ((z <? 0) = false) as -> by (apply Z.ltb_ge; lia). now left.
    + right. exists z'. split; [reflexivity|]. lia.
  - destruct (double_Z z) as [[-> _]|(z' & -> & Hsgn & Hbound & _)].
    + assert ((z <? 0) = false) as -> by (apply Z.ltb_ge; lia).
      cbn [magnitude]. apply Z.pow_nonneg. lia.
    + cbn [magnitude inject_Z Qnum]. lia.
  - intros Hsmall. apply double_Z_exact. lia.
Qed.

(** Subtracting whole numbers, as the sort reads the result, compares
    their magnitudes; and they are equal when their magnitudes are. *)
Lemma minus_whole (a b : Number) :
  whole a -> whole b ->
  SortCompare (Number_minus b a) = Z.sgn (magnitude b - magnitude a)
  /\ Number_eqb a b = (magnitude a =? magnitude b).
Proof.
  assert (0 < 2 ^ 1024) as Hpow by (apply Z.pow_pos_nonneg; lia).
  intros [->|(za & -> & Ha)] [->|(zb & -> & Hb)];
    cbn [Number_minus Number_opp Number_plus Number_eqb magnitude negb
         Bool.eqb SortCompare Number_sgn inject_Z Qnum].
  - rewrite Z.sub_diag, Z.eqb_refl. split; reflexivity.
  - split; [|symmetry; apply Z.eqb_neq; lia].
    symmetry. apply Z.sgn_neg. lia.
  - split; [|symmetry; apply Z.eqb_neq; lia].
    symmetry. apply Z.sgn_pos. lia.
  - split.
    + rewrite (double_comp _ (inject_Z (zb - za)))
        by (unfold Z.sub; rewrite inject_Z_plus, inject_Z_opp; reflexivity).
      destruct (double_Z (zb - za)) as [[-> Hne]|(z' & -> & Hsgn & _)].
      * cbn [Number_sgn]. destruct (Z.ltb_spec (zb - za) 0).
        -- symmetry. apply Z.sgn_neg. lia.
        -- symmetry. apply Z.sgn_pos. lia.
      * cbn [Number_sgn inject_Z Qnum]. exact Hsgn.
    + unfold Qeq_bool. cbn [inject_Z Qnum Qden]. now rewrite !Z.mul_1_r.
Qed.

(** The exact comparison of versions, by its sign. *)
Lemma descending_sign (x y : Z * Z * Z) :
  (descending x y < 0 <-> version_lt y x)
  /\ (descending x y = 0 <-> x = y)
  /\ (0 < descending x y <-> version_lt x y).
Proof.
  unfold descending, version_lt.
  destruct x as [[a1 a2] a3], y as [[b1 b2] b3].
  destruct (Z.eqb_spec a1 b1), (Z.eqb_spec a2 b2); cbn [negb];
    repeat split; intros; try (injection H as -> -> ->); try lia;
    try (f_equal; [f_equal|]; lia); congruence.
Qed.

Lemma descending_flip (x y : Z * Z * Z) : descending y x = - descending x y.
Proof.
  unfold descending.
  destruct x as [[a1 a2] a3], y as [[b1 b2] b3].
  destruct (Z.eqb_spec a1 b1), (Z.eqb_spec a2 b2), (Z.eqb_spec b1 a1),
    (Z.eqb_spec b2 a2); cbn [negb]; lia.
Qed.

Lemma descending_trans (x y z : Z * Z * Z) :
  descending x y <= 0 -> descending y z <= 0 -> descending x z <= 0.
Proof.
  unfold descending.
  destruct x as [[a1 a2] a3], y as [[b1 b2] b3], z as [[c1 c2] c3].
  destruct (Z.eqb_spec a1 b1), (Z.eqb_spec a2 b2), (Z.eqb_spec b1 c1),
    (Z.eqb_spec b2 c2), (Z.eqb_spec a1 c1), (Z.eqb_spec a2 c2); cbn [negb]; lia.
Qed.

(** The parsed components are whole, and their magnitudes are those of
    the leading numbers when these are modest. *)
Lemma parseVersion_whole (v : string) :
  let '(major, minor, patch) := parseVersion v in
  whole major /\ whole minor /\ whole patch.
Proof.
  rewrite parseVersion_double. pose proof (leading_numbers_nonneg v) as H.
  destruct (leading_numbers v) as [[x1 x2] x3]. destruct H as (H1 & H2 & H3).
  repeat split; now apply double_whole.
Qed.

Lemma version_key_modest (v : string) :
  modest (leading_numbers v) -> version_key v = leading_numbers v.
Proof.
  unfold version_key. rewrite parseVersion_double.
  pose proof (leading_numbers_nonneg v) as H.
  destruct (leading_numbers v) as [[x1 x2] x3]. destruct H as (H1 & H2 & H3).
  intros (M1 & M2 & M3).
  now rewrite (proj2 (proj2 (double_whole x1 H1)) M1),
    (proj2 (proj2 (double_whole x2 H2)) M2),
    (proj2 (proj2 (double_whole x3 H3)) M3).
Qed.

Lemma version_key_nonneg (v : string) :
  let '(major, minor, patch) := version_key v in
  0 <= major /\ 0 <= minor /\ 0 <= patch.
Proof.
  unfold version_key. rewrite parseVersion_double.
  pose proof (leading_numbers_nonneg v) as H.
  destruct (leading_numbers v) as [[x1 x2] x3]. destruct H as (H1 & H2 & H3).
  repeat split; now apply double_whole.
Qed.

(** What the sort reads of the comparator: the sign of the exact
    comparison of the rounded versions. *)
Lemma compareSemver_key (a b : string) :
  SortCompare (compareSemver a b)
  = Z.sgn (descending (version_key a) (version_key b)).
Proof.
  unfold compareSemver, version_key, descending.
  pose proof (parseVersion_whole a) as Ha.
  pose proof (parseVersion_whole b) as Hb.
  destruct (parseVersion a) as [[a1 a2] a3], (parseVersion b) as [[b1 b2] b3].
  destruct Ha as (A1 & A2 & A3), Hb as (B1 & B2 & B3).
  destruct (minus_whole a1 b1 A1 B1) as [M1 ->].
  destruct (minus_whole a2 b2 A2 B2) as [M2 ->].
  destruct (minus_whole a3 b3 A3 B3) as [M3 _].
  destruct (magnitude a1 =? magnitude b1); cbn [negb]; [|exact M1].
  destruct (magnitude a2 =? magnitude b2); cbn [negb]; [exact M3|exact M2].
Qed.

(** On modest versions the comparator is exact. *)
Lemma compareSemver_modest (a b : string) :
  modest (leading_numbers a) -> modest (leading_numbers b) ->
  compareSemver a b
  = Num (inject_Z (descending (leading_numbers a) (leading_numbers b))).
Proof.
  intros Ma Mb. unfold compareSemver, descending. rewrite !parseVersion_double.
  pose proof (leading_numbers_nonneg a) as Ha.
  pose proof (leading_numbers_nonneg b) as Hb.
  destruct (leading_numbers a) as [[a1 a2] a3], (leading_numbers b) as [[b1 b2] b3].
  destruct Ha as (A1 & A2 & A3), Hb as (B1 & B2 & B3).
  destruct Ma as (Ma1 & Ma2 & Ma3), Mb as (Mb1 & Mb2 & Mb3).
  rewrite !double_Z_exact by lia.
  assert (forall x y, Number_eqb (Num (inject_Z x)) (Num (inject_Z y)) = (x =? y))
    as Heqb.
  { intros x y. cbn [Number_eqb]. unfold Qeq_bool. cbn [inject_Z Qnum Qden].
    now rewrite !Z.mul_1_r. }
  assert (forall x y, Z.abs (y - x) < 2 ^ 53 ->
            Number_minus (Num (inject_Z y)) (Num (inject_Z x))
            = Num (inject_Z (y - x))) as Hminus.
  { intros x y Hxy. cbn [Number_minus Number_opp Number_plus].
    rewrite (double_comp _ (inject_Z (y - x)))
      by (unfold Z.sub; rewrite inject_Z_plus, inject_Z_opp; reflexivity).
    now apply double_Z_exact. }
  rewrite !Heqb.
  destruct (a1 =? b1); cbn [negb]; [|apply Hminus; lia].
  destruct (a2 =? b2); cbn [negb]; apply Hminus; lia.
Qed.

(** The comparator works with the leading numbers as doubles hold them. *)
Lemma version_key_held (v : string) (t : Z * Z * Z) :
  leading_version v t -> version_key v = held t.
Proof.
  intros Hlead. apply leading_version_numbers in Hlead. subst t.
  unfold version_key. rewrite parseVersion_double.
  now destruct (leading_numbers v) as [[x1 x2] x3].
Qed.

(** C8, as the code has it. Every string has a version (the leading
    major[.minor[.patch]] numerals, a missing component being 0, a string
    that does not start with a number being 0.0.0), and the comparator
    returns a number for every pair of strings. When the components of both
    versions are below 2^53 that number is the exact descending comparison
    of the versions: negative when the first is newer, zero when the
    versions are equal, positive when it is older. A string without a
    leading number is never placed before another one. For every pair of
    strings, as a sort reads the result ([NaN] as 0, the others by their
    sign), it is the descending comparison of the versions as doubles hold
    them: components of 2^53 and more are compared as the doubles nearest
    to them. *)
Theorem compareSemver_total_descending :
  (forall v, exists t, leading_version v t)
  /\ (forall a b va vb,
        leading_version a va -> leading_version b vb ->
        modest va -> modest vb ->
        compareSemver a b = Num (inject_Z (descending va vb))
        /\ (Number_sgn (compareSemver a b) < 0 <-> version_lt vb va)
        /\ (Number_sgn (compareSemver a b) = 0 <-> va = vb)
        /\ (0 < Number_sgn (compareSemver a b) <-> version_lt va vb))
  /\ (forall a b,
        starts_with_digit a = false ->
        leading_version a (0, 0, 0)
        /\ 0 <= Number_sgn (compareSemver a b))
  /\ (forall a b va vb,
        leading_version a va -> leading_version b vb ->
        SortCompare (compareSemver a b) = Z.sgn (descending (held va) (held vb))).
Proof.
  split; [|split; [|split]];
    [| | |intros a b va vb Ha Hb;
          now rewrite compareSemver_key, (version_key_held a va Ha),
                (version_key_held b vb Hb)].
  - intros v. exists (leading_numbers v). apply leading_numbers_leading.
  - intros a b va vb Ha Hb Ma Mb.
    apply leading_version_numbers in Ha, Hb. subst va vb.
    rewrite (compareSemver_modest a b Ma Mb). split; [reflexivity|].
    cbn [Number_sgn inject_Z Qnum].
    destruct (descending_sign (leading_numbers a) (leading_numbers b))
      as (Hnewer & Hsame & Holder).
    rewrite <- Hnewer, <- Hsame, <- Holder.
    destruct (descending (leading_numbers a) (leading_numbers b));
      cbn [Z.sgn]; repeat split; intros; lia.
  - intros a b Ha. pose proof (version_none a Ha) as Hv. split; [exact Hv|].
    apply leading_version_numbers in Hv.
    change (Number_sgn (compareSemver a b)) with (SortCompare (compareSemver a b)).
    rewrite compareSemver_key, version_key_modest
      by (rewrite Hv; cbn; repeat split; reflexivity).
    rewrite Hv. pose proof (version_key_nonneg b) as Hb.
    destruct (version_key b) as [[b1 b2] b3]. destruct Hb as (H1 & H2 & H3).
    apply Z.sgn_nonneg. unfold descending.
    destruct (Z.eqb_spec 0 b1), (Z.eqb_spec 0 b2); cbn [negb]; lia.
Qed.

Lemma compareSemver_total_descending_witness :
  Number_sgn (compareSemver "2.1.3" "1.0") < 0
  /\ 0 <= Number_sgn (compareSemver "beta" "1.0").
Proof.
  destruct compareSemver_total_descending as (_ & Horder & Hlast & _).
  assert (forall d, d <> EmptyString -> all_digits d = true -> numeral d)
    as N by (intros d H1 H2; split; assumption).
  split.
  - apply (Horder "2.1.3" "1.0" (2, 1, 3) (1, 0, 0)).
    + apply (version_patch "2" "1" "3" "");
        try apply N; try discriminate; reflexivity.
    + apply (version_minor "1" "0" "");
        try apply N; try discriminate; reflexivity.
    + repeat split; reflexivity.
    + repeat split; reflexivity.
    + cbv [version_lt]. lia.
  - apply (Hlast "beta" "1.0"). reflexivity.
Defined.

(** The claim as it is written fails beyond 2^53: the first version is the
    newer one by its leading numbers, and the comparator answers that it is
    the older one (2^53 + 1 is read as 2^53, and the patch then decides). *)
Lemma compareSemver_beyond_doubles :
  leading_version "9007199254740993" (9007199254740993, 0, 0)
  /\ leading_version "9007199254740992.0.1" (9007199254740992, 0, 1)
  /\ version_lt (9007199254740992, 0, 1) (9007199254740993, 0, 0)
  /\ compareSemver "9007199254740993" "9007199254740992.0.1" = Num 1
  /\ ~ Number_sgn (compareSemver "9007199254740993" "9007199254740992.0.1") < 0.
Proof.
  assert (forall d, d <> EmptyString -> all_digits d = true -> numeral d)
    as N by (intros d H1 H2; split; assumption).
  split; [|split; [|split; [|split]]].
  - apply (version_major "9007199254740993" "");
      try apply N; try discriminate; reflexivity.
  - apply (version_patch "9007199254740992" "0" "1" "");
      try apply N; try discriminate; reflexivity.
  - cbv [version_lt]. lia.
  - vm_compute. reflexivity.
  - vm_compute. discriminate.
Qed.

(** ** Array_sort *)

Section SortFacts.

Context {A : Type}.
Variable compareFn : A -> A -> Z.

Lemma sort_insert_perm (x : A) (l : list A) :
  Permutation (sort_insert compareFn x l) (x :: l).
Proof.
  induction l as [|y l IH]; cbn [sort_insert]; [reflexivity|].
  destruct (compareFn x y <=? 0); [reflexivity|].
  rewrite IH. apply perm_swap.
Qed.

Lemma Array_sort_perm (l : list A) : Permutation (Array_sort compareFn l) l.
Proof.
  induction l as [|x l IH]; cbn [Array_sort fold_right]; [reflexivity|].
  fold (Array_sort compareFn l). rewrite sort_insert_perm. now constructor.
Qed.

Lemma Array_sort_In (x : A) (l : list A) :
  In x (Array_sort compareFn l) <-> In x l.
Proof.
  split; apply Permutation_in; [|symmetry]; apply Array_sort_perm.
Qed.

Lemma Array_sort_length (l : list A) :
  List.length (Array_sort compareFn l) = List.length l.
Proof. apply Permutation_length, Array_sort_perm. Qed.

(** A comparison function that answers "after" one way answers "before"
    the other way. *)
Hypothesis compareFn_flip : forall x y, 0 < compareFn x y -> compareFn y x <= 0.

Lemma sort_insert_HdRel (a x : A) (l : list A) :
  in_order compareFn a x -> HdRel (in_order compareFn) a l ->
  HdRel (in_order compareFn) a (sort_insert compareFn x l).
Proof.
  intros Hax Hl. destruct l as [|y l]; cbn [sort_insert].
  - now constructor.
  - destruct (compareFn x y <=? 0); constructor; [exact Hax|].
    now inversion Hl.
Qed.

Lemma sort_insert_Sorted (x : A) (l : list A) :
  Sorted (in_order compareFn) l ->
  Sorted (in_order compareFn) (sort_insert compareFn x l).
Proof.
  induction 1 as [|y l Hs IH Hhd]; cbn [sort_insert].
  - repeat constructor.
  - destruct (Z.leb_spec (compareFn x y) 0) as [Hle|Hgt].
    + constructor; [now constructor|now constructor].
    + constructor; [exact IH|].
      apply sort_insert_HdRel; [|exact Hhd]. now apply compareFn_flip.
Qed.

Lemma Array_sort_Sorted (l : list A) :
  Sorted (in_order compareFn) (Array_sort compareFn l).
Proof.
  induction l as [|x l IH]; cbn [Array_sort fold_right]; [constructor|].
  now apply sort_insert_Sorted.
Qed.

(** Neighbours of a sorted list are in order. *)
Lemma Sorted_neighbours (l : list A) (i : nat) (a b : A) :
  Sorted (in_order compareFn) l ->
  nth_error l i = Some a -> nth_error l (S i) = Some b -> in_order compareFn a b.
Proof.
  intros Hs. revert i. induction Hs as [|x l Hs IH Hhd]; intros i Ha Hb.
  - destruct i; discriminate.
  - destruct i as [|i].
    + cbn in Ha, Hb. injection Ha as ->.
      destruct l as [|y l]; [discriminate|]. cbn in Hb. injection Hb as ->.
      now inversion Hhd.
    + now apply (IH i).
Qed.

Hypothesis compareFn_trans :
  forall x y z, compareFn x y <= 0 -> compareFn y z <= 0 -> compareFn x z <= 0.

Lemma Array_sort_StronglySorted (l : list A) :
  StronglySorted (in_order compareFn) (Array_sort compareFn l).
Proof.
  apply Sorted_StronglySorted; [|apply Array_sort_Sorted].
  intros x y z. apply compareFn_trans.
Qed.

End SortFacts.

(** ** fetchGitHubData *)

Lemma fetch_failed_returns (info : RepoInfo) (e : JsError) :
  exists trace, fetch_failed info (val e) = (Returns None, trace).
Proof.
  unfold fetch_failed. destruct (err_name e =? "AbortError")%string;
    eexists; reflexivity.
Qed.

Lemma rate_limited_test (response : Response.t) :
  rate_limited response <->
  (Response.status response =? 403) || (Response.status response =? 429) = true.
Proof.
  unfold rate_limited. rewrite orb_true_iff, !Z.eqb_eq. tauto.
Qed.

(** A thrown error reaches the catch block, which returns [null]; and a
    goal that asks for what a finished computation returned is read off. *)
Ltac caught :=
  match goal with
  | |- context [fetch_failed ?info (val ?e)] =>
      destruct (fetch_failed_returns info e) as (? & ->)
  end.

Ltac returned := eexists; eexists; reflexivity.

Lemma fetchGitHubData_fuel_returns (api : nat -> Exchange)
  (repoInfo : option RepoInfo) (fuel retryCount : nat) :
  (MAX_RETRIES - retryCount < fuel)%nat ->
  exists data trace,
    fetchGitHubData_fuel fuel api repoInfo retryCount = (Returns data, trace).
Proof.
  revert retryCount. induction fuel as [|fuel IH]; intros retryCount Hfuel; [lia|].
  cbn [fetchGitHubData_fuel]. destruct repoInfo as [info|]; [|returned].
  unfold fetchWithTimeout.
  destruct (answer (api retryCount)) as [after_ms response|after_ms e|];
    try destruct (after_ms <? FETCH_TIMEOUT_MS);
    cbn [bind emit throw ret try_catch fst snd app];
    try (caught; returned).
  (* the request was answered in time *)
  destruct ((Response.status response =? 403) || (Response.status response =? 429)).
  - destruct (Nat.leb_spec MAX_RETRIES retryCount) as [Hmax|Hless]; [returned|].
    destruct (IH (retryCount + 1)%nat ltac:(lia)) as (data & trace & ->).
    returned.
  - destruct (Response.status response =? 404); [returned|].
    destruct (Response.ok response); cbn [negb].
    + unfold read_body.
      destruct (Response.body response) as [e| |data];
        cbn [bind throw ret try_catch app]; try caught; returned.
    + cbn [bind throw ret try_catch app]. caught. returned.
Qed.

(** The fuel [fetchGitHubData] gives itself is enough, and it returns. *)
Lemma fetchGitHubData_returns (api : nat -> Exchange)
  (repoInfo : option RepoInfo) (retryCount : nat) :
  exists data trace, fetchGitHubData api repoInfo retryCount = (Returns data, trace).
Proof.
  unfold fetchGitHubData. apply fetchGitHubData_fuel_returns. lia.
Qed.

(** C5. Whatever the endpoint does at each request (an answer with any
    status, a transport failure, no answer before the timeout, a body that
    cannot be read) and whichever repository is asked for, the fetch
    returns: either data or [null]. It never throws and never runs out of
    fuel. *)
Theorem fetchGitHubData_never_throws (api : nat -> Exchange)
  (repoInfo : option RepoInfo) (retryCount : nat) :
  (exists data trace,
     fetchGitHubData api repoInfo retryCount = (Returns data, trace))
  /\ (forall thrown, fst (fetchGitHubData api repoInfo retryCount) <> Throws thrown)
  /\ fst (fetchGitHubData api repoInfo retryCount) <> OutOfFuel.
Proof.
  destruct (fetchGitHubData_returns api repoInfo retryCount)
    as (data & trace & Hrun).
  split; [now exists data, trace|]. rewrite Hrun. split.
  - intros thrown. discriminate.
  - discriminate.
Qed.

Lemma fetchGitHubData_step (api : nat -> Exchange) (info : RepoInfo)
  (retryCount : nat) :
  (retryCount < MAX_RETRIES)%nat ->
  fetchGitHubData_fuel (MAX_RETRIES - retryCount) api (Some info) (retryCount + 1)
  = fetchGitHubData api (Some info) (S retryCount).
Proof.
  intros H. unfold fetchGitHubData. rewrite Nat.add_1_r. f_equal. lia.
Qed.

(** A rate-limit answer with retries left: warn, sleep, and call again. *)
Lemma fetchGitHubData_rate_limited (api : nat -> Exchange) (info : RepoInfo)
  (retryCount : nat) (response : Response.t) :
  answers (api retryCount) response -> rate_limited response ->
  (retryCount < MAX_RETRIES)%nat ->
  exists line,
    fetchGitHubData api (Some info) retryCount
    = (fst (fetchGitHubData api (Some info) (S retryCount)),
       [Request (apiUrl_of info); Console_warn line;
        Sleep (Number_times
                 (waitTimeSec_of (Response.x_ratelimit_reset response)
                    (now (api retryCount))) (Num 1000))]
       ++ snd (fetchGitHubData api (Some info) (S retryCount))).
Proof.
  intros (after_ms & Hans & Hafter) Hlim Hretry.
  destruct (fetchGitHubData_returns api (Some info) (S retryCount))
    as (data & trace & Hrec).
  rewrite <- (fetchGitHubData_step api info retryCount Hretry) in Hrec |- *.
  unfold fetchGitHubData at 1. cbn [fetchGitHubData_fuel].
  unfold fetchWithTimeout. rewrite Hans.
  apply Z.ltb_lt in Hafter. rewrite Hafter.
  cbn [bind emit ret fst snd app].
  apply rate_limited_test in Hlim. rewrite Hlim.
  destruct (Nat.leb_spec MAX_RETRIES retryCount) as [Hmax|_]; [lia|].
  rewrite Hrec. eexists. reflexivity.
Qed.

(** A 404 answer: the not-found result, with nothing more done. *)
Lemma fetchGitHubData_404 (api : nat -> Exchange) (info : RepoInfo)
  (retryCount : nat) (response : Response.t) :
  answers (api retryCount) response -> Response.status response = 404 ->
  fetchGitHubData api (Some info) retryCount
  = (Returns (Some not_found), [Request (apiUrl_of info)]).
Proof.
  intros (after_ms & Hans & Hafter) Hstatus.
  unfold fetchGitHubData. cbn [fetchGitHubData_fuel].
  unfold fetchWithTimeout. rewrite Hans.
  apply Z.ltb_lt in Hafter. rewrite Hafter.
  cbn [bind emit ret fst snd app]. rewrite Hstatus. reflexivity.
Qed.

Lemma bind_trace {A B : Type} (m : M A) (k : A -> M B) :
  exists rest, snd (bind m k) = snd m ++ rest.
Proof.
  destruct m as [[a|e|] t]; cbn [bind snd].
  - destruct (k a) as [r t']. now exists t'.
  - exists []. now rewrite app_nil_r.
  - exists []. now rewrite app_nil_r.
Qed.

Lemma try_catch_trace {A : Type} (m : M A) (handler : js JsError -> M A) :
  exists rest, snd (try_catch m handler) = snd m ++ rest.
Proof.
  destruct m as [[a|e|] t]; cbn [try_catch snd].
  - exists []. now rewrite app_nil_r.
  - destruct (handler e) as [r t']. now exists t'.
  - exists []. now rewrite app_nil_r.
Qed.

Lemma fetchWithTimeout_trace (network : Fetched) (url : string) :
  snd (fetchWithTimeout network url) = [Request url].
Proof.
  unfold fetchWithTimeout.
  destruct network as [after_ms response|after_ms e|];
    try destruct (after_ms <? FETCH_TIMEOUT_MS); reflexivity.
Qed.

(** Every call for a repository starts with its request. *)
Lemma fetchGitHubData_requests_first (api : nat -> Exchange) (info : RepoInfo)
  (retryCount : nat) :
  exists rest,
    snd (fetchGitHubData api (Some info) retryCount)
    = Request (apiUrl_of info) :: rest.
Proof.
  unfold fetchGitHubData. cbn [fetchGitHubData_fuel].
  match goal with |- context [try_catch (bind ?m ?k) ?h] =>
    destruct (try_catch_trace (bind m k) h) as (r1 & ->);
    destruct (bind_trace m k) as (r2 & ->)
  end.
  rewrite fetchWithTimeout_trace. now eexists.
Qed.



(** A positive number that is neither subnormal nor huge rounds to a double
    within a 2^-53rd of it. *)
Lemma double_error (q : Q) :
  (pow2 (-1022) <= q)%Q -> (q <= pow2 1000)%Q ->
  exists r, double q = Num r /\ (Qabs (r - q) <= q * pow2 (-53))%Q.
Proof.
  intros Hlow Hhigh.
  assert (0 < q)%Q as Hpos
    by (eapply Qlt_le_trans; [apply (pow2_pos (-1022))|exact Hlow]).
  pose proof (round_positive_error q Hlow) as Herr.
  unfold double. pose proof Hpos as Hgt. apply Qgt_alt in Hgt. rewrite Hgt.
  assert (Qle_bool (pow2 1024) (round_positive q) = false) as ->.
  { apply not_true_is_false. rewrite Qle_bool_iff. apply Qlt_not_le.
    apply Qabs_Qle_condition in Herr as [_ Herr].
    apply Qle_lt_trans with (q + q * pow2 (-53))%Q; [lra|].
    apply Qle_lt_trans with (pow2 1000 + pow2 1000 * pow2 (-53))%Q.
    - apply Qplus_le_compat; [exact Hhigh|].
      apply Qmult_le_compat_r; [exact Hhigh|apply Qlt_le_weak, pow2_pos].
    - apply Qlt_le_trans with (pow2 1000 + pow2 1000)%Q.
      + apply Qplus_lt_r. rewrite <- pow2_plus. apply pow2_lt. lia.
      + setoid_replace (pow2 1000 + pow2 1000)%Q with (pow2 1 * pow2 1000)%Q
          by (change (pow2 1) with 2%Q; ring).
        rewrite <- pow2_plus. apply pow2_le. lia. }
  eexists. split; [reflexivity|exact Herr].
Qed.

Lemma Math_max_0 (r : Q) :
  Math_max (Num 0) (Num r) = if Qle_bool 0 r then Num r else Num 0.
Proof. reflexivity. Qed.

(** The argument of the timer when the reset lies [d] milliseconds ahead. *)
Lemma wait_ahead (d : Z) :
  0 < d < 2 ^ 53 ->
  exists q,
    Number_times
      (Number_plus
         (Math_max (Num 0) (Number_div (Num (inject_Z d)) (Num 1000))) (Num 1))
      (Num 1000) = Num q
    /\ (Qabs (q - inject_Z (d + 1000)) <= inject_Z (d + 1000) * pow2 (-51))%Q.
Proof.
  intros [Hpos Hd].
  assert (0 < inject_Z d)%Q as HposQ
    by (change 0%Q with (inject_Z 0); now rewrite <- Zlt_Qlt).
  assert (inject_Z d <= 9007199254740992)%Q as HdQ.
  { change 9007199254740992%Q with (inject_Z (2 ^ 53)). rewrite <- Zle_Qle. lia. }
  assert (1 <= inject_Z d)%Q as Hone
    by (change 1%Q with (inject_Z 1); rewrite <- Zle_Qle; lia).
  assert (pow2 (-1022) <= 1 # 1000)%Q as Hsmall.
  { apply Qle_trans with (pow2 (-10)); [apply pow2_le; lia|].
    vm_compute. discriminate. }
  assert (9007199254741992 <= pow2 1000)%Q as Hlarge.
  { apply Qle_trans with (pow2 54); [vm_compute; discriminate|apply pow2_le; lia]. }
  cbn [Number_div]. change (Qeq_bool 1000 0) with false. cbv iota.
  change (inject_Z d / 1000)%Q with (inject_Z d * (1 # 1000))%Q.
  destruct (double_error (inject_Z d * (1 # 1000))) as (r1 & -> & H1).
  { apply Qle_trans with (1 # 1000)%Q; [exact Hsmall|]. lra. }
  { apply Qle_trans with 9007199254741992%Q; [lra|exact Hlarge]. }
  change (pow2 (-53)) with (1 # 9007199254740992)%Q in H1.
  apply Qabs_Qle_condition in H1 as [H1l H1u].
  rewrite Math_max_0.
  assert (Qle_bool 0 r1 = true) as -> by (apply Qle_bool_iff; lra).
  cbn [Number_plus].
  destruct (double_error (r1 + 1)) as (r2 & -> & H2).
  { apply Qle_trans with (1 # 1000)%Q; [exact Hsmall|]. lra. }
  { apply Qle_trans with 9007199254741992%Q; [lra|exact Hlarge]. }
  change (pow2 (-53)) with (1 # 9007199254740992)%Q in H2.
  apply Qabs_Qle_condition in H2 as [H2l H2u].
  cbn [Number_times].
  destruct (double_error (r2 * 1000)) as (r3 & -> & H3).
  { apply Qle_trans with (1 # 1000)%Q; [exact Hsmall|]. lra. }
  { apply Qle_trans with (pow2 64); [|apply pow2_le; lia].
    change (pow2 64) with 18446744073709551616%Q. lra. }
  change (pow2 (-53)) with (1 # 9007199254740992)%Q in H3.
  apply Qabs_Qle_condition in H3 as [H3l H3u].
  exists r3. split; [reflexivity|].
  rewrite inject_Z_plus. change (inject_Z 1000) with 1000%Q.
  change (pow2 (-51)) with (1 # 2251799813685248)%Q.
  apply Qabs_Qle_condition. split; lra.
Qed.

Lemma double_opp (q : Q) : double (- q) = Number_opp (double q).
Proof.
  unfold double. destruct (q ?= 0)%Q eqn:Hc.
  - apply Qeq_alt in Hc.
    assert (((- q) ?= 0) = Eq)%Q as -> by (rewrite <- Qeq_alt; lra). reflexivity.
  - apply Qlt_alt in Hc.
    assert (((- q) ?= 0) = Gt)%Q as -> by (rewrite <- Qgt_alt; lra).
    destruct (Qle_bool _ _); [reflexivity|].
    cbn [Number_opp]. f_equal. destruct (round_positive (- q)) as [n d].
    unfold Qopp. cbn [Qnum Qden]. now rewrite Z.opp_involutive.
  - apply Qgt_alt in Hc.
    assert (((- q) ?= 0) = Lt)%Q as -> by (rewrite <- Qlt_alt; lra).
    rewrite (round_positive_comp (- - q) q);
      [now destruct (Qle_bool _ _)|lra|apply Qopp_involutive].
Qed.

(** The argument of the timer when the reset is not ahead of the clock. *)
Lemma wait_behind (d : Z) :
  - 2 ^ 54 < d <= 0 ->
  Number_times
    (Number_plus
       (Math_max (Num 0) (Number_div (double (inject_Z d)) (Num 1000))) (Num 1))
    (Num 1000) = Num 1000.
Proof.
  intros [Hlow Hd].
  assert (Math_max (Num 0) (Number_div (double (inject_Z d)) (Num 1000)) = Num 0)
    as ->; [|reflexivity].
  destruct (Z.eq_dec d 0) as [->|Hne]; [reflexivity|].
  assert (pow2 (-1022) <= 1 # 1000)%Q as Hsmall.
  { apply Qle_trans with (pow2 (-10)); [apply pow2_le; lia|].
    vm_compute. discriminate. }
  assert (1 <= inject_Z (- d))%Q as Hone
    by (change 1%Q with (inject_Z 1); rewrite <- Zle_Qle; lia).
  assert (inject_Z (- d) <= 18014398509481984)%Q as Hup.
  { change 18014398509481984%Q with (inject_Z (2 ^ 54)). rewrite <- Zle_Qle. lia. }
  rewrite (double_comp (inject_Z d) (- inject_Z (- d)))
    by (rewrite inject_Z_opp; symmetry; apply Qopp_involutive).
  rewrite double_opp.
  destruct (double_error (inject_Z (- d))) as (r & -> & Hr).
  { apply Qle_trans with (1 # 1000)%Q; [exact Hsmall|]. lra. }
  { apply Qle_trans with (pow2 54); [exact Hup|apply pow2_le; lia]. }
  change (pow2 (-53)) with (1 # 9007199254740992)%Q in Hr.
  apply Qabs_Qle_condition in Hr as [Hrl Hru].
  cbn [Number_opp Number_div]. change (Qeq_bool 1000 0) with false. cbv iota.
  rewrite (double_comp (- r / 1000) (- (r * (1 # 1000))))
    by (change (- r / 1000)%Q with (- r * (1 # 1000))%Q; ring).
  rewrite double_opp.
  destruct (double_error (r * (1 # 1000))) as (r1 & -> & Hr1).
  { apply Qle_trans with (1 # 2000)%Q; [|lra].
    apply Qle_trans with (pow2 (-11)); [apply pow2_le; lia|].
    vm_compute. discriminate. }
  { apply Qle_trans with (pow2 54); [|apply pow2_le; lia].
    change (pow2 54) with 18014398509481984%Q. lra. }
  change (pow2 (-53)) with (1 # 9007199254740992)%Q in Hr1.
  apply Qabs_Qle_condition in Hr1 as [Hr1l Hr1u].
  cbn [Number_opp]. rewrite Math_max_0.
  assert (Qle_bool 0 (- r1) = false) as ->; [|reflexivity].
  apply not_true_is_false. rewrite Qle_bool_iff. apply Qlt_not_le. lra.
Qed.

Lemma specified_wait_ms (T date_now : Z) :
  (specified_wait T date_now
   == inject_Z (Z.max 0 (T * 1000 - date_now) + 1000))%Q.
Proof.
  unfold specified_wait, seconds.
  change (inject_Z date_now / 1000)%Q with (inject_Z date_now * (1 # 1000))%Q.
  rewrite inject_Z_plus. change (inject_Z 1000) with 1000%Q.
  assert (inject_Z (T * 1000 - date_now)
          == inject_Z T * 1000 - inject_Z date_now)%Q as Hd.
  { unfold Z.sub. rewrite inject_Z_plus, inject_Z_mult, inject_Z_opp.
    reflexivity. }
  destruct (Q.max_spec 0 (inject_Z T - inject_Z date_now * (1 # 1000)))
    as [[Hq ->]|[Hq ->]];
    destruct (Z.max_spec 0 (T * 1000 - date_now)) as [[Hz ->]|[Hz ->]];
    try (rewrite Zlt_Qlt in Hz); try (rewrite Zle_Qle in Hz);
    change (inject_Z 0) with 0%Q in *; lra.
Qed.

(** With a reset time and a clock that doubles hold exactly, the wait is
    computed from their difference in milliseconds. *)
Lemma wait_of_difference (s : string) (T date_now : Z) :
  integer_prefix s = Some T -> Z.abs (T * 1000) < 2 ^ 53 ->
  Z.abs date_now < 2 ^ 53 ->
  Number_times (waitTimeSec_of (val s) date_now) (Num 1000)
  = Number_times
      (Number_plus
         (Math_max (Num 0)
            (Number_div (double (inject_Z (T * 1000 - date_now))) (Num 1000)))
         (Num 1))
      (Num 1000).
Proof.
  intros HT Hreset Hnow. unfold waitTimeSec_of.
  assert (truthy_string (val s) = true) as ->
    by (destruct s; [discriminate HT|reflexivity]).
  cbn [parseInt_js]. unfold parseInt. rewrite HT.
  rewrite double_Z_exact by lia.
  replace (Number_times (Num (inject_Z T)) (Num 1000))
    with (Num (inject_Z (T * 1000))).
  2:{ cbn [Number_times]. rewrite <- double_Z_exact by lia.
      apply double_comp. now rewrite inject_Z_mult. }
  rewrite (double_Z_exact date_now) by lia.
  replace (Number_minus (Num (inject_Z (T * 1000))) (Num (inject_Z date_now)))
    with (double (inject_Z (T * 1000 - date_now))); [reflexivity|].
  unfold Number_minus. cbn [Number_opp Number_plus]. apply double_comp.
  unfold Z.sub. now rewrite inject_Z_plus, inject_Z_opp.
Qed.

(** What the timer is given after an answer that carries the reset time. *)
Lemma wait_of_reset (s : string) (T date_now : Z) :
  integer_prefix s = Some T -> Z.abs (T * 1000) < 2 ^ 53 ->
  0 <= date_now < 2 ^ 53 ->
  exists q,
    Number_times (waitTimeSec_of (val s) date_now) (Num 1000) = Num q
    /\ (Qabs (q - specified_wait T date_now)
        <= specified_wait T date_now * pow2 (-51))%Q.
Proof.
  intros HT Hreset Hnow.
  rewrite (wait_of_difference s T date_now HT Hreset) by lia.
  destruct (Z_lt_le_dec 0 (T * 1000 - date_now)) as [Hahead|Hbehind].
  - rewrite double_Z_exact by lia.
    destruct (wait_ahead (T * 1000 - date_now)) as (q & -> & Hq); [lia|].
    exists q. split; [reflexivity|].
    rewrite specified_wait_ms, Z.max_r by lia. exact Hq.
  - rewrite wait_behind by lia. exists 1000%Q. split; [reflexivity|].
    rewrite specified_wait_ms, Z.max_l by lia.
    vm_compute. discriminate.
Qed.

(** The delay of a timer whose argument is that near to [w] milliseconds. *)
Lemma timer_delay_near (q : Q) (w : Z) :
  1000 <= w -> (Qabs (q - inject_Z w) <= inject_Z w * pow2 (-51))%Q ->
  (w < TIMEOUT_MAX -> w - 1 <= timer_delay (Num q) <= w)
  /\ (TIMEOUT_MAX < w -> timer_delay (Num q) = 1).
Proof.
  intros Hw Hq. change (pow2 (-51)) with (1 # 2251799813685248)%Q in Hq.
  apply Qabs_Qle_condition in Hq as [Hl Hu].
  assert (1000 <= inject_Z w)%Q as HwQ
    by (change 1000%Q with (inject_Z 1000); now rewrite <- Zle_Qle).
  unfold timer_delay, TIMEOUT_MAX. split; intros Hrange.
  - assert (inject_Z w <= 2147483646)%Q as Hmax.
    { change 2147483646%Q with (inject_Z (2 ^ 31 - 2)). rewrite <- Zle_Qle. lia. }
    assert (Qle_bool 1 q = true) as -> by (apply Qle_bool_iff; lra).
    assert (Qle_bool q (inject_Z (2 ^ 31 - 1)) = true) as ->.
    { apply Qle_bool_iff. change (inject_Z (2 ^ 31 - 1)) with 2147483647%Q. lra. }
    cbn [andb]. pose proof (Qfloor_le q) as Hfloor.
    pose proof (Qlt_floor q) as Hceil.
    rewrite inject_Z_plus in Hceil. change (inject_Z 1) with 1%Q in Hceil.
    split.
    + apply Z.lt_succ_r. unfold Z.succ. rewrite Zlt_Qlt, !inject_Z_plus.
      unfold Z.sub. rewrite inject_Z_plus.
      change (inject_Z 1) with 1%Q. change (inject_Z (- (1))) with (- (1))%Q. lra.
    + apply Z.lt_succ_r. unfold Z.succ. rewrite Zlt_Qlt, inject_Z_plus.
      change (inject_Z 1) with 1%Q. lra.
  - assert (2147483648 <= inject_Z w)%Q as Hmin.
    { change 2147483648%Q with (inject_Z (2 ^ 31)). rewrite <- Zle_Qle. lia. }
    assert (Qle_bool q (inject_Z (2 ^ 31 - 1)) = false) as ->.
    { apply not_true_is_false. rewrite Qle_bool_iff. apply Qlt_not_le.
      change (inject_Z (2 ^ 31 - 1)) with 2147483647%Q. lra. }
    now rewrite andb_false_r.
Qed.

(** C7. A rate-limit answer (403 or 429) with retries left is followed by one
    sleep and then by the next request. When the answer carries the reset
    time [T] (seconds since the epoch, with [T * 1000] and the clock within
    what a double holds exactly), the timer is given the (max(0, T - now) + 1)
    seconds of the specification up to the rounding of three operations on
    doubles; below the greatest delay of a timer the wait is that time in
    whole milliseconds or one millisecond less, and above it the timer fires
    after one millisecond. When the answer carries no reset time, the wait is
    60 seconds exactly. *)
Theorem rate_limit_wait (api : nat -> Exchange) (info : RepoInfo)
  (retryCount : nat) (response : Response.t) :
  answers (api retryCount) response -> rate_limited response ->
  (retryCount < MAX_RETRIES)%nat ->
  exists line ms rest,
    snd (fetchGitHubData api (Some info) retryCount)
    = Request (apiUrl_of info) :: Console_warn line :: Sleep ms
      :: Request (apiUrl_of info) :: rest
    /\ (forall s T,
          Response.x_ratelimit_reset response = val s ->
          integer_prefix s = Some T ->
          Z.abs (T * 1000) < 2 ^ 53 -> 0 <= now (api retryCount) < 2 ^ 53 ->
          let wait := specified_wait T (now (api retryCount)) in
          (exists q, ms = Num q /\ (Qabs (q - wait) <= wait * pow2 (-51))%Q)
          /\ ((wait < inject_Z TIMEOUT_MAX)%Q ->
                (wait - 1 <= inject_Z (timer_delay ms) <= wait)%Q)
          /\ ((inject_Z TIMEOUT_MAX < wait)%Q -> timer_delay ms = 1))
    /\ (Response.x_ratelimit_reset response = null ->
          ms = Num 60000 /\ timer_delay ms = 60000).
Proof.
  intros Hans Hlim Hretry.
  destruct (fetchGitHubData_rate_limited api info retryCount response
              Hans Hlim Hretry) as (line & ->).
  destruct (fetchGitHubData_requests_first api info (S retryCount))
    as (rest & ->).
  exists line. eexists. exists rest. split; [reflexivity|]. split.
  - intros s T Hs HT Hreset Hnow wait. rewrite Hs.
    destruct (wait_of_reset s T (now (api retryCount)) HT Hreset Hnow)
      as (q & -> & Hq).
    fold wait in Hq. split; [now exists q|].
    pose proof (specified_wait_ms T (now (api retryCount))) as Hms.
    fold wait in Hms.
    destruct (timer_delay_near q
                (Z.max 0 (T * 1000 - now (api retryCount)) + 1000))
      as [Hbelow Habove]; [lia|now rewrite <- Hms|].
    split; intros Hrange; rewrite Hms in Hrange; rewrite <- Zlt_Qlt in Hrange.
    + specialize (Hbelow Hrange). rewrite Hms.
      rewrite (Zle_Qle _ (timer_delay (Num q))), Zle_Qle in Hbelow.
      unfold Z.sub in Hbelow. rewrite inject_Z_plus in Hbelow.
      exact Hbelow.
    + exact (Habove Hrange).
  - intros Hnull. rewrite Hnull. split; reflexivity.
Qed.

Lemma rate_limit_wait_witness :
  exists line ms rest,
    snd (fetchGitHubData
           (fun k =>
              match k with
              | O => mkExchange
                       (Responds 120
                          (Response.mk 429 "Too Many Requests"
                             (val "1700000100") JsonNull))
                       1700000000500
              | _ => mkExchange Hangs 0
              end)
           (Some (mkRepoInfo "a" "foo")) 0)
    = Request "https://api.github.com/repos/a/foo" :: Console_warn line
      :: Sleep ms :: Request "https://api.github.com/repos/a/foo" :: rest
    /\ 100499 <= timer_delay ms <= 100500.
Proof.
  destruct (rate_limit_wait
              (fun k =>
                 match k with
                 | O => mkExchange
                          (Responds 120
                             (Response.mk 429 "Too Many Requests"
                                (val "1700000100") JsonNull))
                          1700000000500
                 | _ => mkExchange Hangs 0
                 end)
              (mkRepoInfo "a" "foo") 0
              (Response.mk 429 "Too Many Requests" (val "1700000100") JsonNull))
    as (line & ms & rest & Htrace & Hreset & _).
  - exists 120. split; reflexivity.
  - right. reflexivity.
  - unfold MAX_RETRIES. lia.
  - exists line, ms, rest. split; [exact Htrace|].
    destruct (Hreset "1700000100" 1700000100 eq_refl eq_refl)
      as (_ & Hbelow & _); [cbn; lia|cbn; lia|].
    cbn [now] in Hbelow.
    assert (specified_wait 1700000100 1700000000500 == 100500)%Q as Hwait
      by reflexivity.
    rewrite Hwait in Hbelow. destruct Hbelow as [Hl Hu]; [reflexivity|].
    change (100500 - 1)%Q with (inject_Z 100499) in Hl.
    change 100500%Q with (inject_Z 100500) in Hu.
    rewrite <- Zle_Qle in Hl, Hu. split; assumption.
Defined.

(** C7, as the specification words it, fails twice. With the reset 7 ms
    ahead of the clock the specified wait is 1007 ms, but the timer is given
    a double just below 1007 and waits 1006 ms. With the reset 3000100
    seconds ahead the specified wait is 3000101 seconds, above the greatest
    delay of a timer, and the timer fires after 1 ms. *)
Lemma rate_limit_wait_not_as_specified :
  (exists line q rest,
     snd (fetchGitHubData
            (fun k =>
               match k with
               | O => mkExchange
                        (Responds 120
                           (Response.mk 429 "Too Many Requests"
                              (val "1700000001") JsonNull))
                        1700000000993
               | _ => mkExchange Hangs 0
               end)
            (Some (mkRepoInfo "a" "foo")) 0)
     = Request "https://api.github.com/repos/a/foo" :: Console_warn line
       :: Sleep (Num q) :: rest
     /\ (specified_wait 1700000001 1700000000993 == 1007)%Q
     /\ (q < 1007)%Q
     /\ timer_delay (Num q) = 1006
     /\ ~ (q == specified_wait 1700000001 1700000000993)%Q
     /\ ~ (inject_Z (timer_delay (Num q))
           == specified_wait 1700000001 1700000000993)%Q)
  /\ (exists line q rest,
        snd (fetchGitHubData
               (fun k =>
                  match k with
                  | O => mkExchange
                           (Responds 120
                              (Response.mk 429 "Too Many Requests"
                                 (val "1703000100") JsonNull))
                           1700000000000
                  | _ => mkExchange Hangs 0
                  end)
               (Some (mkRepoInfo "a" "foo")) 0)
        = Request "https://api.github.com/repos/a/foo" :: Console_warn line
          :: Sleep (Num q) :: rest
        /\ (specified_wait 1703000100 1700000000000 == 3000101000)%Q
        /\ timer_delay (Num q) = 1
        /\ ~ (inject_Z (timer_delay (Num q))
              == specified_wait 1703000100 1700000000000)%Q).
Proof.
  split.
  - eexists. eexists. eexists. split; [vm_compute; reflexivity|].
    split; [reflexivity|]. split; [reflexivity|].
    split; [vm_compute; reflexivity|]. split; vm_compute; discriminate.
  - eexists. eexists. eexists. split; [vm_compute; reflexivity|].
    split; [reflexivity|]. split; [vm_compute; reflexivity|].
    vm_compute. discriminate.
Qed.

(** If the endpoint answers 404 at request [n], after rate-limit answers to
    the requests before, the fetch resolves to the not-found result. *)
Lemma fetchGitHubData_not_found (api : nat -> Exchange) (info : RepoInfo)
  (n : nat) :
  (n <= MAX_RETRIES)%nat ->
  (forall j, (j < n)%nat ->
     exists response, answers (api j) response /\ rate_limited response) ->
  (exists response,
     answers (api n) response /\ Response.status response = 404) ->
  fst (fetchGitHubData api (Some info) 0) = Returns (Some not_found).
Proof.
  intros Hn Hlimited (r404 & Hans & H404).
  assert (forall d k, (k + d = n)%nat ->
            fst (fetchGitHubData api (Some info) k) = Returns (Some not_found))
    as Hall.
  { induction d as [|d IH]; intros k Hk.
    - replace k with n by lia.
      now rewrite (fetchGitHubData_404 api info n r404 Hans H404).
    - destruct (Hlimited k ltac:(lia)) as (r & Hr & Hlim).
      destruct (fetchGitHubData_rate_limited api info k r Hr Hlim ltac:(lia))
        as (line & ->).
      cbn [fst]. apply IH. lia. }
  apply (Hall n 0%nat). lia.
Qed.

(** ** withRetry *)

Lemma invocations_app (t1 t2 : list Event) :
  invocations (t1 ++ t2) = invocations t1 ++ invocations t2.
Proof. apply flat_map_app. Qed.

Lemma sleeps_app (t1 t2 : list Event) :
  sleeps (t1 ++ t2) = sleeps t1 ++ sleeps t2.
Proof. apply flat_map_app. Qed.

Section WithRetry.

Context {A : Type}.
Variable script : nat -> Attempt A.
Variable maxRetries : nat.
Variable context : string.

Let loop := withRetry_loop (spy script) maxRetries context.

Lemma withRetry_loop_resolves (remaining attempt : nat) (lastError : js JsError)
  (a : A) :
  script attempt = Resolves a ->
  loop (S remaining) attempt lastError = (Returns a, [Invoked attempt]).
Proof.
  intros H. unfold loop. cbn [withRetry_loop]. unfold spy. now rewrite H.
Qed.

(** A rejected attempt: the warning and the sleep when another attempt will
    follow, then the rest of the loop with the error remembered. *)
Lemma withRetry_loop_rejects (remaining attempt : nat) (lastError : js JsError)
  (e : JsError) :
  script attempt = Rejects e ->
  exists between,
    loop (S remaining) attempt lastError
    = (fst (loop remaining (S attempt) (val e)),
       Invoked attempt :: between ++ snd (loop remaining (S attempt) (val e)))
    /\ invocations between = []
    /\ sleeps between
       = if (attempt <? maxRetries)%nat
         then [Num (inject_Z (backoff_delay attempt))] else [].
Proof.
  intros H. unfold loop. cbn [withRetry_loop]. unfold spy. rewrite H.
  destruct (withRetry_loop _ maxRetries context remaining (S attempt) (val e))
    as [r t].
  destruct (attempt <? maxRetries)%nat.
  - eexists. split; [reflexivity|]. split; reflexivity.
  - exists []. split; [reflexivity|]. split; reflexivity.
Qed.

Lemma withRetry_loop_bound (remaining attempt : nat) (lastError : js JsError) :
  exists n, (n <= remaining)%nat
    /\ invocations (snd (loop remaining attempt lastError)) = seq attempt n.
Proof.
  revert attempt lastError.
  induction remaining as [|remaining IH]; intros attempt lastError.
  - exists 0%nat. split; [lia|reflexivity].
  - destruct (script attempt) as [a|e] eqn:E.
    + rewrite (withRetry_loop_resolves _ _ _ a E).
      exists 1%nat. split; [lia|reflexivity].
    + destruct (withRetry_loop_rejects remaining attempt lastError e E)
        as (between & -> & Hinv & _).
      destruct (IH (S attempt) (val e)) as (n & Hn & Hseq).
      exists (S n). split; [lia|].
      cbn [snd invocations flat_map app]. fold (invocations (between ++ snd
        (loop remaining (S attempt) (val e)))).
      now rewrite invocations_app, Hinv, Hseq.
Qed.

Lemma withRetry_loop_success (k : nat) (a : A) :
  script k = Resolves a ->
  forall d attempt remaining lastError,
    (attempt + d = k)%nat -> (d < remaining)%nat ->
    (attempt + remaining = S maxRetries)%nat ->
    (forall j, (attempt <= j < k)%nat -> exists e, script j = Rejects e) ->
    fst (loop remaining attempt lastError) = Returns a
    /\ invocations (snd (loop remaining attempt lastError)) = seq attempt (S d)
    /\ sleeps (snd (loop remaining attempt lastError))
       = map (fun j => Num (inject_Z (backoff_delay j))) (seq attempt d).
Proof.
  intros Hk. induction d as [|d IH]; intros attempt remaining lastError Hd Hrem Hsum Hrej;
    (destruct remaining as [|remaining]; [lia|]).
  - replace attempt with k by lia.
    rewrite (withRetry_loop_resolves _ _ _ a Hk). repeat split.
  - destruct (Hrej attempt ltac:(lia)) as (e & He).
    destruct (withRetry_loop_rejects remaining attempt lastError e He)
      as (between & -> & Hinv & Hsl).
    destruct (IH (S attempt) remaining (val e) ltac:(lia) ltac:(lia) ltac:(lia))
      as (Hres & Hseq & Hsleeps).
    { intros j Hj. apply Hrej. lia. }
    assert ((attempt <? maxRetries)%nat = true) as Hlt
      by (apply Nat.ltb_lt; lia).
    rewrite Hlt in Hsl. cbn [fst snd]. split; [exact Hres|]. split.
    + change (Invoked attempt :: ?t) with ([Invoked attempt] ++ t).
      rewrite !invocations_app, Hinv, Hseq. reflexivity.
    + change (Invoked attempt :: ?t) with ([Invoked attempt] ++ t).
      rewrite !sleeps_app, Hsl, Hsleeps. reflexivity.
Qed.

Lemma withRetry_loop_exhausted (e : JsError) :
  script maxRetries = Rejects e ->
  forall remaining attempt lastError,
    (1 <= remaining)%nat -> (attempt + remaining = S maxRetries)%nat ->
    (forall j, (attempt <= j <= maxRetries)%nat -> exists e', script j = Rejects e') ->
    fst (loop remaining attempt lastError) = Throws (val e)
    /\ invocations (snd (loop remaining attempt lastError)) = seq attempt remaining
    /\ sleeps (snd (loop remaining attempt lastError))
       = map (fun j => Num (inject_Z (backoff_delay j)))
           (seq attempt (remaining - 1)).
Proof.
  intros Hlast. induction remaining as [|remaining IH];
    intros attempt lastError Hpos Hsum Hrej; [lia|].
  destruct (Hrej attempt ltac:(lia)) as (e' & He').
  destruct (withRetry_loop_rejects remaining attempt lastError e' He')
    as (between & -> & Hinv & Hsl).
  cbn [fst snd].
  change (Invoked attempt :: ?t) with ([Invoked attempt] ++ t).
  rewrite !invocations_app, !sleeps_app, Hinv, Hsl.
  destruct remaining as [|remaining].
  - assert (attempt = maxRetries) as -> by lia.
    rewrite Nat.ltb_irrefl. assert (e' = e) as -> by congruence.
    repeat split.
  - destruct (IH (S attempt) (val e') ltac:(lia) ltac:(lia))
      as (Hres & Hseq & Hsleeps).
    { intros j Hj. apply Hrej. lia. }
    assert ((attempt <? maxRetries)%nat = true) as ->
      by (apply Nat.ltb_lt; lia).
    rewrite Hres, Hseq, Hsleeps.
    replace (S (S remaining) - 1)%nat with (S (S remaining - 1)) by lia.
    repeat split.
Qed.

End WithRetry.

(** C6. [withRetry] invokes the operation at most [maxRetries] times. When
    the [k]-th invocation is the first to succeed ([k <= maxRetries]) its
    value is returned after exactly [k] invocations; when all [maxRetries]
    invocations fail, the error of the last one is thrown. In both cases
    the sleeps are those between two consecutive invocations, and the one
    after the failed attempt [j] lasts min(1000 * 2^j, 10000) ms. *)
Theorem withRetry_bounded_backoff {A : Type} (script : nat -> Attempt A)
  (maxRetries : nat) (context : string) :
  let result := fst (withRetry (spy script) maxRetries context) in
  let trace := snd (withRetry (spy script) maxRetries context) in
  let delay := fun j => Num (inject_Z (Z.min (1000 * 2 ^ Z.of_nat j) 10000)) in
  (List.length (invocations trace) <= maxRetries)%nat
  /\ (forall k a,
        (1 <= k <= maxRetries)%nat ->
        (forall j, (1 <= j < k)%nat -> exists e, script j = Rejects e) ->
        script k = Resolves a ->
        result = Returns a
        /\ invocations trace = seq 1 k
        /\ sleeps trace = map delay (seq 1 (k - 1)))
  /\ (forall e,
        (1 <= maxRetries)%nat ->
        (forall j, (1 <= j <= maxRetries)%nat -> exists e', script j = Rejects e') ->
        script maxRetries = Rejects e ->
        result = Throws (val e)
        /\ invocations trace = seq 1 maxRetries
        /\ sleeps trace = map delay (seq 1 (maxRetries - 1))).
Proof.
  cbv zeta. unfold withRetry. split; [|split].
  - destruct (withRetry_loop_bound script maxRetries context maxRetries 1 undefined)
      as (n & Hn & ->).
    now rewrite length_seq.
  - intros k a Hk Hrej Hres.
    destruct (withRetry_loop_success script maxRetries context k a Hres
                (k - 1) 1 maxRetries undefined) as (H1 & H2 & H3);
      try lia; [exact Hrej|].
    replace (S (k - 1)) with k in H2 by lia. now rewrite H1, H2, H3.
  - intros e Hpos Hrej Hlast.
    apply (withRetry_loop_exhausted script maxRetries context e Hlast
             maxRetries 1 undefined); [lia|lia|exact Hrej].
Qed.

Lemma withRetry_bounded_backoff_witness :
  let script := fun k =>
    if (k <? 3)%nat then Rejects (mkError "Error" "ETIMEDOUT") else Resolves 7 in
  fst (withRetry (spy script) 3 "[Arduino API]") = Returns 7
  /\ invocations (snd (withRetry (spy script) 3 "[Arduino API]")) = [1; 2; 3]%nat
  /\ sleeps (snd (withRetry (spy script) 3 "[Arduino API]"))
     = [Num (inject_Z 2000); Num (inject_Z 4000)].
Proof.
  intros script.
  destruct (withRetry_bounded_backoff script 3 "[Arduino API]")
    as (_ & Hsuccess & _).
  apply (Hsuccess 3%nat 7).
  - lia.
  - intros j Hj. exists (mkError "Error" "ETIMEDOUT"). unfold script.
    destruct j as [|[|[|j]]]; try lia; reflexivity.
  - reflexivity.
Defined.

(** ** Maps *)

Section MapFacts.

Context {V : Type}.

Lemma Map_has_keys (m : JsMap V) (key : string) :
  Map_has m key = true <-> In key (keys m).
Proof.
  induction m as [|[k v] m IH]; cbn [Map_has keys map fst In].
  - split; [discriminate|tauto].
  - rewrite orb_true_iff, String.eqb_eq. fold (keys m). tauto.
Qed.

Lemma Map_get_None (m : JsMap V) (key : string) :
  Map_get m key = None <-> ~ In key (keys m).
Proof.
  induction m as [|[k v] m IH]; cbn [Map_get keys map fst In]; [tauto|].
  fold (keys m). destruct (String.eqb_spec k key) as [->|Hne].
  - split; [discriminate|tauto].
  - rewrite IH. tauto.
Qed.

Lemma Map_get_In (m : JsMap V) (key : string) (v : V) :
  Map_get m key = Some v -> In (key, v) m.
Proof.
  induction m as [|[k w] m IH]; cbn [Map_get In]; [discriminate|].
  destruct (String.eqb_spec k key) as [->|Hne].
  - intros [= ->]. now left.
  - intros H. right. now apply IH.
Qed.

Lemma In_Map_get (m : JsMap V) (key : string) (v : V) :
  NoDup (keys m) -> In (key, v) m -> Map_get m key = Some v.
Proof.
  induction m as [|[k w] m IH]; cbn [Map_get In keys map fst]; [tauto|].
  fold (keys m). intros Hnd [[= -> ->]|Hin].
  - now rewrite String.eqb_refl.
  - inversion Hnd as [|? ? Hk Hnd']; subst.
    destruct (String.eqb_spec k key) as [->|Hne].
    + exfalso. apply Hk. change key with (fst (key, v)). now apply in_map.
    + now apply IH.
Qed.

(** A new key goes to the end. *)
Lemma Map_set_new (m : JsMap V) (key : string) (value : V) :
  Map_has m key = false -> Map_set m key value = m ++ [(key, value)].
Proof.
  induction m as [|[k v] m IH]; cbn [Map_has Map_set app]; [reflexivity|].
  intros H. apply orb_false_iff in H as [Hk Hm]. rewrite Hk. now rewrite IH.
Qed.

Lemma Map_mutate_keys (m : JsMap V) (key : string) (change : V -> V) :
  keys (Map_mutate m key change) = keys m.
Proof.
  induction m as [|[k v] m IH]; cbn [Map_mutate keys map fst]; [reflexivity|].
  destruct (k =? key)%string; cbn [keys map fst]; [reflexivity|].
  fold (keys m) (keys (Map_mutate m key change)). now rewrite IH.
Qed.

Lemma Map_get_mutate (m : JsMap V) (key key' : string) (change : V -> V) :
  Map_get (Map_mutate m key change) key'
  = if (key =? key')%string then option_map change (Map_get m key')
    else Map_get m key'.
Proof.
  induction m as [|[k v] m IH]; cbn [Map_mutate Map_get option_map].
  - now destruct (key =? key')%string.
  - destruct (String.eqb_spec k key) as [->|Hk]; cbn [Map_get].
    + destruct (String.eqb_spec key key') as [->|Hne]; reflexivity.
    + destruct (String.eqb_spec k key') as [->|Hk'].
      * destruct (String.eqb_spec key key') as [->|Hne]; [congruence|reflexivity].
      * exact IH.
Qed.

Lemma Map_get_app_new (m : JsMap V) (key key' : string) (value : V) :
  Map_get (m ++ [(key, value)]) key'
  = match Map_get m key' with
    | Some v => Some v
    | None => if (key =? key')%string then Some value else None
    end.
Proof.
  induction m as [|[k v] m IH]; cbn [app Map_get]; [reflexivity|].
  destruct (k =? key')%string; [reflexivity|exact IH].
Qed.

End MapFacts.

Lemma In_Map_mutate {V : Type} (m : JsMap V) (key : string) (change : V -> V)
  (k : string) (v : V) :
  In (k, v) (Map_mutate m key change) ->
  In (k, v) m \/ exists v0, In (k, v0) m /\ v = change v0.
Proof.
  induction m as [|[k0 v0] m IH]; cbn [Map_mutate In]; [tauto|].
  destruct (k0 =? key)%string; cbn [In].
  - intros [[= <- <-]|Hin]; [right; exists v0; tauto|tauto].
  - intros [Heq|Hin]; [tauto|].
    destruct (IH Hin) as [H|(v1 & H1 & H2)]; [tauto|].
    right. exists v1. tauto.
Qed.

(** ** Grouping *)

Lemma push_version_created (versionInfo : VersionInfo.t) (lib : Library.t) :
  as_created lib -> as_created (push_version versionInfo lib).
Proof. intros H. exact H. Qed.

Lemma new_library_created (entry : RawEntry.t) (name : string) :
  as_created (new_library entry name).
Proof.
  split; [repeat split|]. cbn [new_library Library.repository].
  destruct (or_else _ _) as [info|]; [right; now exists info|now left].
Qed.

Lemma usable_name_entry (lib : option RawEntry.t) (n : string) :
  usable_name lib = Some n -> exists entry, lib = Some entry.
Proof. destruct lib as [entry|]; [now exists entry|discriminate]. Qed.

Lemma group_loop_skip (lib : option RawEntry.t)
  (rest : list (option RawEntry.t)) (m : JsMap Library.t) :
  usable_name lib = None ->
  group_loop (lib :: rest) m = (emit skip_warning ;; group_loop rest m).
Proof.
  intros H. cbn [group_loop]. destruct lib; [now rewrite H|reflexivity].
Qed.

Lemma group_loop_usable (entry : RawEntry.t) (n : string)
  (rest : list (option RawEntry.t)) (m : JsMap Library.t) :
  usable_name (Some entry) = Some n ->
  group_loop (Some entry :: rest) m
  = if negb (Map_has m n)
    then group_loop rest (Map_set m n (new_library entry n))
    else group_loop rest (Map_mutate m n (push_version (versionInfo_of entry))).
Proof.
  intros H. cbn [group_loop]. now rewrite H.
Qed.

Lemma versions_named_cons (k : string) (lib : option RawEntry.t)
  (rest : list (option RawEntry.t)) :
  versions_named k (lib :: rest)
  = match lib, usable_name lib with
    | Some entry, Some n =>
        if (n =? k)%string then [versionInfo_of entry] else []
    | _, _ => []
    end ++ versions_named k rest.
Proof. reflexivity. Qed.

Lemma usable_names_cons (lib : option RawEntry.t)
  (rest : list (option RawEntry.t)) :
  usable_names (lib :: rest)
  = match usable_name lib with
    | Some n => [n]
    | None => []
    end ++ usable_names rest.
Proof. reflexivity. Qed.

Lemma unusable_count_cons (lib : option RawEntry.t)
  (rest : list (option RawEntry.t)) :
  unusable_count (lib :: rest)
  = match usable_name lib with
    | Some _ => unusable_count rest
    | None => S (unusable_count rest)
    end.
Proof.
  unfold unusable_count. cbn [filter]. now destruct (usable_name lib).
Qed.

Lemma group_loop_spec (rawLibraries : list (option RawEntry.t)) :
  forall m, grouped_ok m ->
  exists m',
    group_loop rawLibraries m
    = (Returns m', repeat skip_warning (unusable_count rawLibraries))
    /\ grouped_ok m'
    /\ (forall k, In k (keys m') <-> In k (keys m) \/ In k (usable_names rawLibraries))
    /\ (forall k lib',
          Map_get m' k = Some lib' ->
          Library.versions lib'
          = versions_before m k ++ versions_named k rawLibraries).
Proof.
  induction rawLibraries as [|lib rest IH]; intros m Hm.
  - exists m. cbn [group_loop unusable_count filter List.length repeat
                   usable_names versions_named flat_map In].
    split; [reflexivity|]. split; [exact Hm|]. split; [tauto|].
    intros k lib' Hget. unfold versions_before. now rewrite Hget, app_nil_r.
  - destruct (usable_name lib) as [n|] eqn:Hname.
    + destruct (usable_name_entry lib n Hname) as (entry & ->).
      rewrite (group_loop_usable entry n rest m Hname).
      rewrite unusable_count_cons, usable_names_cons, Hname.
      destruct (Map_has m n) eqn:Hhas; cbn [negb].
      * (* a further version of a known library *)
        set (m1 := Map_mutate m n (push_version (versionInfo_of entry))).
        assert (grouped_ok m1) as Hm1.
        { destruct Hm as [Hnd Hall]. split.
          - unfold m1. now rewrite Map_mutate_keys.
          - intros k l Hin. apply In_Map_mutate in Hin as [Hin|(l0 & Hin & ->)].
            + now apply Hall.
            + destruct (Hall k l0 Hin). split; assumption. }
        destruct (IH m1 Hm1) as (m' & Hrun & Hok & Hkeys & Hvers).
        exists m'. split; [exact Hrun|]. split; [exact Hok|]. split.
        -- intros k. rewrite Hkeys. unfold m1. rewrite Map_mutate_keys.
           apply Map_has_keys in Hhas. cbn [app In]. split; [tauto|].
           intros [H|[<-|H]]; tauto.
        -- intros k lib' Hget. rewrite (Hvers k lib' Hget).
           rewrite versions_named_cons, Hname.
           unfold versions_before, m1. rewrite Map_get_mutate.
           destruct (String.eqb_spec n k) as [->|Hne].
           ++ apply Map_has_keys in Hhas.
              destruct (Map_get m k) as [l0|] eqn:Hl0.
              ** cbn [option_map push_version Library.set_versions
                      Library.versions]. now rewrite <- app_assoc.
              ** apply Map_get_None in Hl0. tauto.
           ++ reflexivity.
      * (* the first entry of a library *)
        rewrite (Map_set_new m n _ Hhas).
        set (m1 := m ++ [(n, new_library entry n)]).
        assert (~ In n (keys m)) as Hfresh.
        { intros H. apply Map_has_keys in H. congruence. }
        assert (grouped_ok m1) as Hm1.
        { destruct Hm as [Hnd Hall]. split.
          - unfold m1, keys. rewrite map_app. cbn [map fst].
            apply NoDup_app; [exact Hnd|repeat constructor; tauto|].
            intros x Hx [<-|[]]. now apply Hfresh.
          - intros k l Hin. apply in_app_or in Hin as [Hin|[[= <- <-]|[]]].
            + now apply Hall.
            + split; [reflexivity|apply new_library_created]. }
        destruct (IH m1 Hm1) as (m' & Hrun & Hok & Hkeys & Hvers).
        exists m'. split; [exact Hrun|]. split; [exact Hok|]. split.
        -- intros k. rewrite Hkeys. unfold m1, keys. rewrite map_app, in_app_iff.
           cbn [map fst In app]. tauto.
        -- intros k lib' Hget. rewrite (Hvers k lib' Hget).
           rewrite versions_named_cons, Hname.
           unfold versions_before, m1. rewrite Map_get_app_new.
           destruct (Map_get m k) as [l0|] eqn:Hl0.
           ++ destruct (String.eqb_spec n k) as [->|Hne]; [|reflexivity].
              exfalso. apply Hfresh. apply Map_get_In in Hl0.
              change k with (fst (k, l0)). now apply in_map.
           ++ destruct (String.eqb_spec n k) as [->|Hne]; reflexivity.
    + (* an entry without a usable name *)
      rewrite (group_loop_skip lib rest m Hname).
      rewrite unusable_count_cons, usable_names_cons, Hname.
      destruct (IH m Hm) as (m' & Hrun & Hok & Hkeys & Hvers).
      exists m'. split; [|split; [exact Hok|split]].
      * rewrite Hrun. reflexivity.
      * intros k. rewrite Hkeys. cbn [app]. tauto.
      * intros k lib' Hget. rewrite (Hvers k lib' Hget).
        rewrite versions_named_cons. destruct lib; [rewrite Hname|]; reflexivity.
Qed.

(** The map lists the names in the order in which the index first has
    them. *)
Lemma Map_has_existsb {V : Type} (m : JsMap V) (key : string) :
  Map_has m key = existsb (fun k => (k =? key)%string) (keys m).
Proof.
  induction m as [|[k v] m IH]; cbn [Map_has keys map fst existsb]; [reflexivity|].
  fold (keys m). now rewrite IH.
Qed.

Lemma group_loop_keys (rawLibraries : list (option RawEntry.t)) :
  forall m m' trace,
    group_loop rawLibraries m = (Returns m', trace) ->
    keys m' = keys m ++ first_seen (keys m) (usable_names rawLibraries).
Proof.
  induction rawLibraries as [|lib rest IH]; intros m m' trace.
  - cbn [group_loop ret usable_names flat_map first_seen].
    intros [= <- _]. now rewrite app_nil_r.
  - rewrite usable_names_cons.
    destruct (usable_name lib) as [n|] eqn:Hname.
    + destruct (usable_name_entry lib n Hname) as (entry & ->).
      rewrite (group_loop_usable entry n rest m Hname).
      cbn [app first_seen]. rewrite <- Map_has_existsb.
      destruct (Map_has m n) eqn:Hhas; cbn [negb]; intros Hrun.
      * rewrite (IH _ _ _ Hrun). now rewrite Map_mutate_keys.
      * rewrite (Map_set_new m n _ Hhas) in Hrun. rewrite (IH _ _ _ Hrun).
        unfold keys. rewrite map_app. cbn [map fst].
        now rewrite <- app_assoc.
    + rewrite (group_loop_skip lib rest m Hname). cbn [app emit bind].
      destruct (group_loop rest m) as [[m1|e|] t] eqn:Hrun; try discriminate.
      intros [= <- _]. exact (IH _ _ _ Hrun).
Qed.

Lemma versions_named_not_empty (k : string)
  (rawLibraries : list (option RawEntry.t)) :
  In k (usable_names rawLibraries) -> versions_named k rawLibraries <> [].
Proof.
  induction rawLibraries as [|lib rest IH]; [intros []|].
  rewrite usable_names_cons, versions_named_cons, in_app_iff.
  destruct (usable_name lib) as [n|] eqn:Hname.
  - destruct (usable_name_entry lib n Hname) as (entry & ->). rewrite Hname.
    intros [[<-|[]]|Hin].
    + rewrite String.eqb_refl. discriminate.
    + intros H. apply app_eq_nil in H as [_ H]. now apply IH.
  - intros [[]|Hin]. destruct lib; [rewrite Hname|]; now apply IH.
Qed.

Lemma grouped_ok_empty : grouped_ok [].
Proof. split; [constructor|intros k lib []]. Qed.

(** What grouping gives: the libraries in the order of the map, each with
    the versions of its entries, sorted. *)
Lemma groupLibraries_spec (rawLibraries : list (option RawEntry.t)) :
  exists m,
    groupLibraries rawLibraries
    = (Returns (map sort_versions (Map_values m)),
       repeat skip_warning (unusable_count rawLibraries))
    /\ grouped_ok m
    /\ keys m = first_seen [] (usable_names rawLibraries)
    /\ (forall k, In k (keys m) <-> In k (usable_names rawLibraries))
    /\ (forall k lib,
          In (k, lib) m ->
          Library.versions lib = versions_named k rawLibraries).
Proof.
  destruct (group_loop_spec rawLibraries [] grouped_ok_empty)
    as (m & Hrun & Hok & Hkeys & Hvers).
  exists m. split; [|split; [exact Hok|split; [|split]]].
  - unfold groupLibraries. rewrite Hrun. cbn [bind ret]. now rewrite app_nil_r.
  - exact (group_loop_keys rawLibraries [] m _ Hrun).
  - intros k. rewrite Hkeys. cbn [keys map In]. tauto.
  - intros k lib Hin. apply (Hvers k lib). apply In_Map_get; [apply Hok|exact Hin].
Qed.

Lemma uniqueLibraries_names (m : JsMap Library.t) :
  grouped_ok m -> map Library.name (map sort_versions (Map_values m)) = keys m.
Proof.
  intros [_ Hall]. unfold Map_values, keys. rewrite !map_map.
  apply map_ext_in. intros [k lib] Hin. cbn [snd fst].
  now destruct (Hall k lib Hin).
Qed.

Lemma compare_versions_key (a b : VersionInfo.t) :
  compare_versions a b
  = Z.sgn (descending (version_key (VersionInfo.version a))
             (version_key (VersionInfo.version b))).
Proof. apply compareSemver_key. Qed.

Lemma compare_versions_flip (a b : VersionInfo.t) :
  0 < compare_versions a b -> compare_versions b a <= 0.
Proof.
  rewrite !compare_versions_key.
  rewrite (descending_flip (version_key (VersionInfo.version a))). lia.
Qed.

Lemma compare_versions_trans (a b c : VersionInfo.t) :
  compare_versions a b <= 0 -> compare_versions b c <= 0 ->
  compare_versions a c <= 0.
Proof.
  rewrite !compare_versions_key. intros Hab Hbc.
  pose proof (descending_trans (version_key (VersionInfo.version a))
                (version_key (VersionInfo.version b))
                (version_key (VersionInfo.version c))) as Htrans.
  lia.
Qed.

Lemma held_modest (v : string) (t : Z * Z * Z) :
  leading_version v t -> modest t -> held t = t.
Proof.
  intros Hlead Hmodest. apply leading_version_numbers in Hlead. subst t.
  pose proof (leading_numbers_nonneg v) as Hpos.
  destruct (leading_numbers v) as [[x1 x2] x3].
  destruct Hpos as (H1 & H2 & H3). destruct Hmodest as (M1 & M2 & M3).
  destruct (double_whole x1 H1) as (_ & _ & E1).
  destruct (double_whole x2 H2) as (_ & _ & E2).
  destruct (double_whole x3 H3) as (_ & _ & E3).
  unfold held. rewrite (E1 M1), (E2 M2), (E3 M3). cbn [magnitude inject_Z Qnum].
  reflexivity.
Qed.

Lemma in_order_not_older (a b : VersionInfo.t) :
  in_order compare_versions a b -> not_older a b.
Proof.
  unfold in_order. rewrite compare_versions_key. intros Hle ta tb Ha Hb Hlt.
  rewrite (version_key_held _ ta Ha), (version_key_held _ tb Hb) in Hle.
  apply (descending_sign (held ta) (held tb)) in Hlt. lia.
Qed.

Lemma StronglySorted_weaken {A : Type} (R S : A -> A -> Prop) (l : list A) :
  (forall x y, In x l -> In y l -> R x y -> S x y) ->
  StronglySorted R l -> StronglySorted S l.
Proof.
  intros Himp Hsorted. induction Hsorted as [|x l Hsorted IH Hall].
  - constructor.
  - constructor.
    + apply IH. intros y z Hy Hz. apply Himp; now right.
    + rewrite Forall_forall in Hall |- *. intros y Hy.
      apply Himp; [now left|now right|now apply Hall].
Qed.

Lemma usable_name_named (lib : option RawEntry.t) (n : string) :
  usable_name lib = Some n ->
  exists entry, lib = Some entry /\ RawEntry.name entry = val n /\ n <> ""%string.
Proof.
  destruct lib as [entry|]; [|discriminate]. cbn [usable_name].
  destruct (RawEntry.name entry) as [| |name] eqn:Hname;
    cbn [truthy_string]; try discriminate.
  destruct (String.eqb_spec name "") as [->|Hne]; cbn [negb]; [discriminate|].
  intros [= <-]. now exists entry.
Qed.

Lemma versions_named_entries (k : string)
  (rawLibraries : list (option RawEntry.t)) :
  k <> ""%string ->
  versions_named k rawLibraries
  = map versionInfo_of (entries_named k rawLibraries).
Proof.
  intros Hk. unfold versions_named, entries_named.
  induction rawLibraries as [|lib rest IH]; [reflexivity|].
  cbn [flat_map]. rewrite map_app, IH. f_equal.
  destruct lib as [entry|]; [|reflexivity]. cbn [usable_name].
  destruct (RawEntry.name entry) as [| |name]; cbn [truthy_string];
    try reflexivity.
  destruct (String.eqb_spec name "") as [->|Hne]; cbn [negb].
  - destruct (String.eqb_spec "" k) as [<-|_]; [now contradiction Hk|reflexivity].
  - now destruct (name =? k)%string.
Qed.

Lemma usable_names_not_empty (k : string)
  (rawLibraries : list (option RawEntry.t)) :
  In k (usable_names rawLibraries) -> k <> ""%string.
Proof.
  unfold usable_names. rewrite in_flat_map. intros (lib & _ & Hin).
  destruct (usable_name lib) as [n|] eqn:Hname; [|destruct Hin].
  destruct Hin as [<-|[]].
  now destruct (usable_name_named lib n Hname) as (_ & _ & _ & Hne).
Qed.

Lemma entries_named_in (k : string) (rawLibraries : list (option RawEntry.t))
  (entry : RawEntry.t) :
  In entry (entries_named k rawLibraries) -> In (Some entry) rawLibraries.
Proof.
  unfold entries_named. rewrite in_flat_map. intros ([e|] & Hin & Hentry);
    [|destruct Hentry].
  destruct (RawEntry.name e) as [| |n]; try destruct Hentry.
  destruct (n =? k)%string; [|destruct Hentry].
  now destruct Hentry as [<-|[]].
Qed.

Lemma map_recorded_from (entries : list RawEntry.t) :
  Forall2 recorded_from (map versionInfo_of entries) entries.
Proof.
  induction entries as [|entry rest IH]; constructor; [|exact IH].
  repeat split.
Qed.

(** C9. Grouping reads the entries in the order of the index and returns one
    library per distinct usable name, in the order in which the index first
    has the names; an entry without a usable name adds one warning and no
    library; the versions of a library are exactly the version records of the
    entries that bear its name, each holding the version, url, archive file
    name, size and checksum of its entry, and there is at least one. They
    are sorted by the version comparator: no record stands before one that
    is newer by the leading major.minor.patch numbers as doubles hold them,
    which are the numbers themselves when every component in the index is
    below 2^53. *)
Theorem grouping_one_library_per_name (rawLibraries : list (option RawEntry.t)) :
  exists libs,
    groupLibraries rawLibraries
    = (Returns libs, repeat skip_warning (unusable_count rawLibraries))
    /\ map Library.name libs = first_seen [] (usable_names rawLibraries)
    /\ NoDup (map Library.name libs)
    /\ (forall n, In n (map Library.name libs) <-> In n (usable_names rawLibraries))
    /\ (forall lib,
          In lib libs ->
          Permutation (Library.versions lib)
            (versions_named (Library.name lib) rawLibraries)
          /\ (exists entries,
                Permutation entries (entries_named (Library.name lib) rawLibraries)
                /\ Forall2 recorded_from (Library.versions lib) entries)
          /\ StronglySorted (in_order compare_versions) (Library.versions lib)
          /\ StronglySorted not_older (Library.versions lib)
          /\ (modest_versions rawLibraries ->
                StronglySorted not_older_exactly (Library.versions lib))
          /\ Library.versions lib <> []).
Proof.
  destruct (groupLibraries_spec rawLibraries)
    as (m & Hrun & Hok & Horder & Hkeys & Hvers).
  exists (map sort_versions (Map_values m)).
  split; [exact Hrun|]. rewrite (uniqueLibraries_names m Hok).
  split; [exact Horder|]. split; [apply Hok|]. split; [exact Hkeys|].
  intros lib Hin. apply in_map_iff in Hin as (lib0 & <- & Hin).
  apply in_map_iff in Hin as ([k lib1] & <- & Hin). cbn [snd].
  destruct Hok as [_ Hall]. destruct (Hall k lib1 Hin) as [Hk _].
  cbn [sort_versions Library.set_versions Library.name Library.versions].
  rewrite Hk, (Hvers k lib1 Hin).
  assert (In k (usable_names rawLibraries)) as Hused.
  { apply Hkeys. change k with (fst (k, lib1)). now apply in_map. }
  pose proof (Array_sort_perm compare_versions (versions_named k rawLibraries))
    as Hperm.
  pose proof (Array_sort_StronglySorted compare_versions
                compare_versions_flip compare_versions_trans
                (versions_named k rawLibraries)) as Hsorted.
  split; [exact Hperm|]. split; [|split; [exact Hsorted|split; [|split]]].
  - assert (Permutation
              (Array_sort compare_versions (versions_named k rawLibraries))
              (map versionInfo_of (entries_named k rawLibraries))) as Hrecords.
    { rewrite <- (versions_named_entries k rawLibraries
                    (usable_names_not_empty k rawLibraries Hused)).
      exact Hperm. }
    apply Permutation_map_inv in Hrecords as (entries & Heq & Hentries).
    exists entries. split; [now symmetry|].
    rewrite Heq. apply map_recorded_from.
  - revert Hsorted. apply StronglySorted_weaken.
    intros a b _ _. apply in_order_not_older.
  - intros Hmodest. revert Hsorted. apply StronglySorted_weaken.
    intros a b Ha Hb Hle ta tb Hta Htb.
    assert (forall v t,
              In v (Array_sort compare_versions (versions_named k rawLibraries)) ->
              leading_version (VersionInfo.version v) t -> held t = t) as Hheld.
    { intros v t Hv Ht. apply (held_modest _ t Ht).
      apply (Permutation_in _ Hperm) in Hv.
      rewrite (versions_named_entries k rawLibraries
                 (usable_names_not_empty k rawLibraries Hused)) in Hv.
      apply in_map_iff in Hv as (entry & <- & Hentry).
      apply (Hmodest entry t); [|exact Ht].
      now apply entries_named_in with k. }
    rewrite <- (Hheld a ta Ha Hta), <- (Hheld b tb Hb Htb).
    now apply (in_order_not_older a b Hle).
  - intros Hnil.
    apply (versions_named_not_empty k rawLibraries Hused).
    apply length_zero_iff_nil.
    rewrite <- (Array_sort_length compare_versions), Hnil. reflexivity.
Qed.

(** Of the index with the versions 1.0.0 and 2.1.3 of Foo, in this order,
    grouping returns Foo with 2.1.3 before 1.0.0. *)
Lemma grouping_one_library_per_name_witness :
  exists libs,
    fst (groupLibraries scenario_index) = Returns libs
    /\ map Library.name libs = ["Foo"; "Bar"]%string
    /\ map (fun lib => map VersionInfo.version (Library.versions lib)) libs
       = [["2.1.3"; "1.0.0"]; ["1.0.0"]]%string
    /\ (forall lib, In lib libs ->
          StronglySorted not_older_exactly (Library.versions lib)).
Proof.
  destruct (grouping_one_library_per_name scenario_index)
    as (libs & Hrun & Hnames & _ & _ & Hlibs).
  exists libs. split; [now rewrite Hrun|]. split; [exact Hnames|].
  split.
  - vm_compute in Hrun. injection Hrun as <-. reflexivity.
  - intros lib Hin. destruct (Hlibs lib Hin) as (_ & _ & _ & _ & Hexact & _).
    apply Hexact. intros entry t Hentry Ht.
    apply leading_version_numbers in Ht. subst t.
    destruct Hentry as [[= <-]|[[= <-]|[[= <-]|[]]]]; vm_compute;
      repeat split.
Defined.

(** Beyond 2^53 the sorted order need not be the exact one: the versions
    9007199254740992.0.1 and 9007199254740993 keep this order, though the
    second is the newer by its first number. *)
Example versions_beyond_doubles :
  map (fun lib => map VersionInfo.version (Library.versions lib))
    (uniqueLibraries large_index)
  = [["9007199254740992.0.1"; "9007199254740993"]]%string.
Proof. vm_compute. reflexivity. Qed.

(** ** Enrichment *)

Lemma firstn_plus {A : Type} (i b : nat) (l : list A) :
  firstn (i + b) l = firstn i l ++ firstn b (skipn i l).
Proof.
  revert l. induction i as [|i IH]; intros l; [reflexivity|].
  destruct l as [|x l]; cbn [Nat.add firstn skipn app].
  - now rewrite firstn_nil.
  - now rewrite IH.
Qed.

Section Batches.

Context {A B : Type}.
Variable processor : A -> M B.
Variable result_of : A -> B.

(** The processor resolves, whatever the item. *)
Hypothesis processor_resolves : forall a, fst (processor a) = Returns (result_of a).

Lemma Promise_all_resolves (batch : list A) :
  fst (Promise_all (map processor batch)) = Returns (map result_of batch).
Proof.
  induction batch as [|a batch IH]; [reflexivity|].
  cbn [map Promise_all]. specialize (processor_resolves a).
  destruct (processor a) as [r t]. cbn [fst] in processor_resolves. subst r.
  destruct (Promise_all (map processor batch)) as [rs t']. cbn [fst] in IH.
  now subst rs.
Qed.

Lemma processInBatches_loop_resolves (items : list A) (batchSize : nat) :
  (0 < batchSize)%nat ->
  forall fuel i results,
    (List.length items - i <= fuel)%nat ->
    results = map result_of (firstn i items) ->
    fst (processInBatches_loop fuel items batchSize processor i results)
    = Returns (map result_of items).
Proof.
  intros Hsize. induction fuel as [|fuel IH]; intros i results Hfuel Hresults.
  - cbn [processInBatches_loop].
    destruct (Nat.ltb_spec i (List.length items)) as [Hlt|Hge]; [lia|].
    cbn [ret fst]. now rewrite Hresults, firstn_all2.
  - cbn [processInBatches_loop].
    destruct (Nat.ltb_spec i (List.length items)) as [Hlt|Hge].
    + pose proof (Promise_all_resolves (slice items i (i + batchSize))) as Hall.
      destruct (Promise_all _) as [rs t]. cbn [fst] in Hall. subst rs.
      cbn [bind].
      assert (fst (processInBatches_loop fuel items batchSize processor
                     (i + batchSize)
                     (results ++ map result_of (slice items i (i + batchSize))))
              = Returns (map result_of items)) as Hrec.
      { apply IH; [lia|].
        rewrite Hresults, <- map_app. f_equal. unfold slice.
        replace (i + batchSize - i)%nat with batchSize by lia.
        now rewrite firstn_plus. }
      destruct (processInBatches_loop fuel items batchSize processor _ _)
        as [r t3]. cbn [fst] in Hrec. subst r.
      match goal with |- context [if ?c then _ else _] => destruct c end;
        reflexivity.
    + cbn [ret fst]. now rewrite Hresults, firstn_all2.
Qed.

(** Batching changes nothing to the results: one per item, in the order of
    the items. *)
Lemma processInBatches_map (items : list A) (batchSize : nat) :
  (0 < batchSize)%nat ->
  fst (processInBatches items batchSize processor) = Returns (map result_of items).
Proof.
  intros Hsize. unfold processInBatches.
  apply processInBatches_loop_resolves; [exact Hsize|lia|reflexivity].
Qed.

End Batches.

Lemma bind_ext {A B : Type} (m : M A) (k k' : A -> M B) :
  (forall a, k a = k' a) -> bind m k = bind m k'.
Proof.
  intros H. destruct m as [[a|e|] t]; cbn [bind]; [|reflexivity|reflexivity].
  now rewrite H.
Qed.

(** The fetch only looks at the exchanges it is given. *)
Lemma fetchGitHubData_fuel_ext (api api' : nat -> Exchange)
  (repoInfo : option RepoInfo) :
  (forall k, api k = api' k) ->
  forall fuel retryCount,
    fetchGitHubData_fuel fuel api repoInfo retryCount
    = fetchGitHubData_fuel fuel api' repoInfo retryCount.
Proof.
  intros Hsame. induction fuel as [|fuel IH]; intros retryCount; [reflexivity|].
  cbn [fetchGitHubData_fuel]. destruct repoInfo as [info|]; [|reflexivity].
  rewrite <- (Hsame retryCount). f_equal. apply bind_ext. intros response.
  cbv zeta. now rewrite IH.
Qed.

Lemma fetchGitHubData_ext (api api' : nat -> Exchange)
  (repoInfo : option RepoInfo) (retryCount : nat) :
  (forall k, api k = api' k) ->
  fetchGitHubData api repoInfo retryCount
  = fetchGitHubData api' repoInfo retryCount.
Proof. intros H. now apply fetchGitHubData_fuel_ext. Qed.

(** The three ways the processor ends, by what the fetch gives. *)
Lemma processed_alone_cases (remote : Remote) (lib : Library.t) :
  (Library._repoInfo lib = None
   /\ processed_alone remote lib = Library.delete_repoInfo lib)
  \/ (exists info,
        Library._repoInfo lib = Some info
        /\ fst (fetchGitHubData (remote (Library.name lib)) (Some info) 0)
           = Returns None
        /\ processed_alone remote lib = Library.delete_repoInfo lib)
  \/ (exists info data,
        Library._repoInfo lib = Some info
        /\ fst (fetchGitHubData (remote (Library.name lib)) (Some info) 0)
           = Returns (Some data)
        /\ processed_alone remote lib
           = Library.delete_repoInfo (Library.assign_github lib data)).
Proof.
  unfold processed_alone, value_or, processor.
  destruct (Library._repoInfo lib) as [info|].
  - destruct (fetchGitHubData_returns (remote (Library.name lib))
                (Some info) 0) as ([data|] & trace & Hfetch);
      rewrite Hfetch; cbn [bind ret fst].
    + right. right. exists info, data. rewrite Hfetch. repeat split.
    + right. left. exists info. rewrite Hfetch. repeat split.
  - left. split; reflexivity.
Qed.

Lemma processor_resolves (remote : Remote) (lib : Library.t) :
  fst (processor remote lib) = Returns (processed_alone remote lib).
Proof.
  unfold processed_alone, value_or, processor.
  destruct (Library._repoInfo lib) as [info|]; [|reflexivity].
  destruct (fetchGitHubData_returns (remote (Library.name lib))
              (Some info) 0) as ([data|] & trace & ->); reflexivity.
Qed.

Lemma processed_alone_ext (remote remote' : Remote) (lib : Library.t) :
  (forall k, remote' (Library.name lib) k = remote (Library.name lib) k) ->
  processed_alone remote' lib = processed_alone remote lib.
Proof.
  intros Hsame. unfold processed_alone, value_or, processor.
  destruct (Library._repoInfo lib) as [info|]; [|reflexivity].
  now rewrite (fetchGitHubData_ext _ _ (Some info) 0 Hsame).
Qed.

(** C10. Processing the libraries in batches of five gives one result per
    library, in the order of the input, each equal to the library processed
    on its own; and a library processed on its own depends, besides the
    library, only on what the endpoint answers to its own requests: two
    endpoints that answer alike for this library give the same result,
    whatever they answer (or fail to answer) for the others. *)
Theorem enrichment_isolated :
  (forall remote libs,
     fst (processInBatches libs CONCURRENT_REQUESTS (processor remote))
     = Returns (map (processed_alone remote) libs))
  /\ (forall remote remote' lib,
        (forall k, remote' (Library.name lib) k = remote (Library.name lib) k) ->
        processed_alone remote' lib = processed_alone remote lib).
Proof.
  split.
  - intros remote libs. apply processInBatches_map.
    + apply processor_resolves.
    + unfold CONCURRENT_REQUESTS. lia.
  - intros remote remote' lib. apply processed_alone_ext.
Qed.

Lemma enrichment_isolated_witness :
  fst (processInBatches (uniqueLibraries sample_index) CONCURRENT_REQUESTS
         (processor partial_remote))
  = Returns (map (processed_alone partial_remote) (uniqueLibraries sample_index))
  /\ processed_alone partial_remote
       (nth 1 (uniqueLibraries sample_index) no_library)
     = processed_alone sample_remote
         (nth 1 (uniqueLibraries sample_index) no_library).
Proof.
  destruct enrichment_isolated as (Hbatches & Hown).
  split; [apply Hbatches|].
  apply Hown. intros k. reflexivity.
Defined.

(** ** The pipeline *)

Lemma sort_versions_created (lib : Library.t) :
  as_created lib -> as_created (sort_versions lib).
Proof. intros H. exact H. Qed.

(** The libraries after grouping: no name twice, each as created. *)
Lemma uniqueLibraries_spec (rawLibraries : list (option RawEntry.t)) :
  (exists warnings,
     groupLibraries rawLibraries = (Returns (uniqueLibraries rawLibraries), warnings))
  /\ NoDup (map Library.name (uniqueLibraries rawLibraries))
  /\ (forall lib, In lib (uniqueLibraries rawLibraries) -> as_created lib).
Proof.
  destruct (groupLibraries_spec rawLibraries) as (m & Hrun & Hok & _).
  unfold uniqueLibraries, value_or. rewrite Hrun. cbn [fst].
  split; [now eexists|]. rewrite (uniqueLibraries_names m Hok).
  split; [apply Hok|].
  intros lib Hin. apply in_map_iff in Hin as (lib0 & <- & Hin).
  apply in_map_iff in Hin as ([k lib1] & <- & Hin).
  apply sort_versions_created. now apply (proj2 Hok k lib1).
Qed.

(** The two stages before the filter return [uniqueLibraries] and
    [enrichedLibraries]. *)
Lemma enrichment_stage (remote : Remote)
  (rawLibraries : list (option RawEntry.t)) :
  fst (groupLibraries rawLibraries) = Returns (uniqueLibraries rawLibraries)
  /\ fst (processInBatches (uniqueLibraries rawLibraries) CONCURRENT_REQUESTS
            (processor remote))
     = Returns (enrichedLibraries remote rawLibraries).
Proof.
  destruct (uniqueLibraries_spec rawLibraries) as ((warnings & Hrun) & _ & _).
  split; [now rewrite Hrun|].
  apply processInBatches_map; [apply processor_resolves|].
  unfold CONCURRENT_REQUESTS. lia.
Qed.

Lemma generateRegistry_spec (localeCompare : string -> string -> Z)
  (remote : Remote) (rawLibraries : list (option RawEntry.t)) :
  exists trace,
    generateRegistry localeCompare remote rawLibraries
    = (Returns (finalRegistry localeCompare (enrichedLibraries remote rawLibraries)),
       trace).
Proof.
  destruct (uniqueLibraries_spec rawLibraries) as ((warnings & Hrun) & _ & _).
  destruct (enrichment_stage remote rawLibraries) as (_ & Hbatches).
  unfold generateRegistry. rewrite Hrun. cbn [bind emit].
  destruct (processInBatches _ _ _) as [r t]. cbn [fst] in Hbatches. subst r.
  cbn [bind emit ret]. now eexists.
Qed.

Lemma processed_alone_name (remote : Remote) (lib : Library.t) :
  Library.name (processed_alone remote lib) = Library.name lib.
Proof.
  destruct (processed_alone_cases remote lib)
    as [[_ ->]|[(info & _ & _ & ->)|(info & data & _ & _ & ->)]]; reflexivity.
Qed.

Lemma processed_alone_repository (remote : Remote) (lib : Library.t) :
  Library.repository (processed_alone remote lib) = Library.repository lib.
Proof.
  destruct (processed_alone_cases remote lib)
    as [[_ ->]|[(info & _ & _ & ->)|(info & data & _ & _ & ->)]]; reflexivity.
Qed.

(** The truthiness tests of the filter, on the values they meet. *)
Lemma truthy_repository (lib : Library.t) :
  as_created lib ->
  truthy_string (Library.repository lib) = true <-> Library.repository lib <> null.
Proof.
  intros [_ [->|(info & ->)]]; cbn [truthy_string String.append String.eqb negb].
  - split; [discriminate|congruence].
  - split; [discriminate|reflexivity].
Qed.

Lemma truthy_bool_true (v : js bool) : truthy_bool v = true <-> v = val true.
Proof.
  destruct v as [| |[]]; cbn [truthy_bool]; split; congruence.
Qed.

Lemma enrichedLibraries_In (remote : Remote)
  (rawLibraries : list (option RawEntry.t)) (lib : Library.t) :
  In lib (enrichedLibraries remote rawLibraries) <->
  exists lib0, In lib0 (uniqueLibraries rawLibraries)
    /\ lib = processed_alone remote lib0.
Proof.
  unfold enrichedLibraries. rewrite in_map_iff.
  split; intros (lib0 & H1 & H2); exists lib0; [now split|]. now split.
Qed.

Lemma is_active_spec (remote : Remote)
  (rawLibraries : list (option RawEntry.t)) (lib : Library.t) :
  In lib (enrichedLibraries remote rawLibraries) ->
  is_active lib = true <->
  Library.repository lib <> null /\ read (Library.isArchived lib) <> val true.
Proof.
  intros Hin. apply enrichedLibraries_In in Hin as (lib0 & Hin & ->).
  destruct (uniqueLibraries_spec rawLibraries) as (_ & _ & Hcreated).
  specialize (Hcreated lib0 Hin).
  unfold is_active. rewrite andb_true_iff, negb_true_iff.
  rewrite processed_alone_repository, (truthy_repository lib0 Hcreated).
  rewrite <- not_true_iff_false, truthy_bool_true. tauto.
Qed.

Lemma finalRegistry_In (localeCompare : string -> string -> Z)
  (libs : list Library.t) (lib : Library.t) :
  In lib (finalRegistry localeCompare libs) <-> In lib libs /\ is_active lib = true.
Proof.
  unfold finalRegistry. rewrite Array_sort_In. apply filter_In.
Qed.

(** C2. A library is in the final registry exactly when it is one of the
    enriched libraries (what the batched enrichment returns), its repository
    is not [null] and its [isArchived] does not read [true]. In particular a library with a repository whose
    fetch gave no data is kept. *)
Theorem finalRegistry_keeps_active (localeCompare : string -> string -> Z)
  (remote : Remote) (rawLibraries : list (option RawEntry.t)) :
  exists final trace,
    generateRegistry localeCompare remote rawLibraries = (Returns final, trace)
    /\ fst (processInBatches (uniqueLibraries rawLibraries) CONCURRENT_REQUESTS
              (processor remote))
       = Returns (enrichedLibraries remote rawLibraries)
    /\ (forall lib,
          In lib final <->
          In lib (enrichedLibraries remote rawLibraries)
          /\ Library.repository lib <> null
          /\ read (Library.isArchived lib) <> val true)
    /\ (forall lib,
          In lib (uniqueLibraries rawLibraries) ->
          Library.repository lib <> null ->
          fst (fetchGitHubData (remote (Library.name lib))
                 (Library._repoInfo lib) 0) = Returns None ->
          Library.isArchived (processed_alone remote lib) = None
          /\ In (processed_alone remote lib) final).
Proof.
  destruct (generateRegistry_spec localeCompare remote rawLibraries)
    as (trace & Hrun).
  eexists. exists trace. split; [exact Hrun|].
  split; [apply enrichment_stage|].
  assert (forall lib,
            In lib (finalRegistry localeCompare (enrichedLibraries remote rawLibraries))
            <-> In lib (enrichedLibraries remote rawLibraries)
                /\ Library.repository lib <> null
                /\ read (Library.isArchived lib) <> val true) as Hiff.
  { intros lib. rewrite finalRegistry_In. split.
    - intros [Hin Hact]. split; [exact Hin|].
      now apply (is_active_spec remote rawLibraries lib Hin).
    - intros (Hin & Hrepo & Harch). split; [exact Hin|].
      now apply (is_active_spec remote rawLibraries lib Hin). }
  split; [exact Hiff|].
  intros lib Hin Hrepo Hfetch.
  destruct (uniqueLibraries_spec rawLibraries) as (_ & _ & Hcreated).
  destruct (Hcreated lib Hin) as [Hnever _].
  assert (processed_alone remote lib = Library.delete_repoInfo lib) as Halone.
  { destruct (processed_alone_cases remote lib)
      as [[_ H]|[(info & _ & _ & H)|(info & data & Hinfo & Hdata & _)]];
      try exact H.
    rewrite Hinfo in Hfetch. congruence. }
  assert (Library.isArchived (processed_alone remote lib) = None) as Harch.
  { rewrite Halone. apply Hnever. }
  split; [exact Harch|]. apply Hiff. split; [|split].
  - apply enrichedLibraries_In. now exists lib.
  - now rewrite processed_alone_repository.
  - rewrite Harch. discriminate.
Qed.

Lemma finalRegistry_keeps_active_witness :
  exists final lib,
    fst (generateRegistry root_collation silent_remote sample_index)
    = Returns final
    /\ Library.name lib = "a"
    /\ Library.isArchived lib = None
    /\ In lib final.
Proof.
  destruct (finalRegistry_keeps_active root_collation silent_remote sample_index)
    as (final & trace & Hrun & _ & _ & Hkept).
  exists final,
    (processed_alone silent_remote (nth 1 (uniqueLibraries sample_index) no_library)).
  split; [now rewrite Hrun|]. split; [reflexivity|].
  apply Hkept.
  - right. left. reflexivity.
  - discriminate.
  - reflexivity.
Defined.

Lemma NoDup_map_injective {A B : Type} (f : A -> B) (l : list A) (a b : A) :
  NoDup (map f l) -> In a l -> In b l -> f a = f b -> a = b.
Proof.
  induction l as [|x l IH]; cbn [map In]; [tauto|].
  intros Hnd Ha Hb Hab. inversion Hnd as [|? ? Hx Hnd']; subst.
  destruct Ha as [->|Ha], Hb as [->|Hb]; [reflexivity| | |now apply IH].
  - exfalso. apply Hx. rewrite Hab. now apply in_map.
  - exfalso. apply Hx. rewrite <- Hab. now apply in_map.
Qed.

(** C3. When the endpoint answers 404 for the repository of a library (at
    once, or after rate-limit answers within the retries allowed), the fetch
    resolves to data with [stars = 0] and [isArchived = true], and no library
    of that name is in the final registry. *)
Theorem not_found_is_excluded (localeCompare : string -> string -> Z)
  (remote : Remote) (rawLibraries : list (option RawEntry.t))
  (lib : Library.t) (info : RepoInfo) (n : nat) :
  In lib (uniqueLibraries rawLibraries) ->
  Library._repoInfo lib = Some info ->
  (n <= MAX_RETRIES)%nat ->
  (forall j, (j < n)%nat ->
     exists response,
       answers (remote (Library.name lib) j) response /\ rate_limited response) ->
  (exists response,
     answers (remote (Library.name lib) n) response
     /\ Response.status response = 404) ->
  (exists data,
     fst (fetchGitHubData (remote (Library.name lib)) (Some info) 0)
     = Returns (Some data)
     /\ GitHubData.stars data = val 0 /\ GitHubData.isArchived data = val true)
  /\ exists final trace,
       generateRegistry localeCompare remote rawLibraries = (Returns final, trace)
       /\ ~ In (Library.name lib) (map Library.name final).
Proof.
  intros Hin Hinfo Hn Hlimited H404.
  pose proof (fetchGitHubData_not_found (remote (Library.name lib)) info n
                Hn Hlimited H404) as Hfetch.
  split; [exists not_found; repeat split; exact Hfetch|].
  destruct (generateRegistry_spec localeCompare remote rawLibraries)
    as (trace & Hrun).
  eexists. exists trace. split; [exact Hrun|].
  intros Hname. apply in_map_iff in Hname as (q & Hq & Hfinal).
  apply finalRegistry_In in Hfinal as [Henriched Hactive].
  apply enrichedLibraries_In in Henriched as (lib0 & Hin0 & ->).
  rewrite processed_alone_name in Hq.
  destruct (uniqueLibraries_spec rawLibraries) as (_ & Hnodup & _).
  assert (lib0 = lib) as ->
    by exact (NoDup_map_injective Library.name _ lib0 lib Hnodup Hin0 Hin Hq).
  assert (processed_alone remote lib
          = Library.delete_repoInfo (Library.assign_github lib not_found))
    as Halone.
  { destruct (processed_alone_cases remote lib)
      as [[H _]|[(i & Hi & Hd & _)|(i & data & Hi & Hd & H)]].
    - congruence.
    - rewrite Hinfo in Hi. injection Hi as <-. congruence.
    - rewrite Hinfo in Hi. injection Hi as <-. rewrite Hfetch in Hd.
      injection Hd as <-. exact H. }
  rewrite Halone in Hactive. unfold is_active in Hactive.
  cbn [Library.delete_repoInfo Library.assign_github Library.isArchived
       not_found GitHubData.isArchived read truthy_bool negb] in Hactive.
  now rewrite andb_false_r in Hactive.
Qed.

Lemma not_found_is_excluded_witness :
  exists lib,
    In lib (uniqueLibraries sample_index)
    /\ Library.name lib = "B"
    /\ exists final trace,
         generateRegistry root_collation sample_remote sample_index
         = (Returns final, trace)
         /\ ~ In "B" (map Library.name final).
Proof.
  set (lib := nth 0 (uniqueLibraries sample_index) no_library).
  exists lib. split; [left; reflexivity|]. split; [reflexivity|].
  refine (proj2 (not_found_is_excluded root_collation sample_remote sample_index
                   lib (mkRepoInfo "o" "B") 0 _ _ _ _ _)).
  - left. reflexivity.
  - reflexivity.
  - unfold MAX_RETRIES. lia.
  - intros j Hj. lia.
  - exists (Response.mk 404 "" null JsonNull). split; [|reflexivity].
    exists 120. split; reflexivity.
Defined.

(** Data comes from the first answer that is not a rate limit: a 404, or a
    successful answer whose body is an object. *)
Lemma fetchGitHubData_fuel_source (api : nat -> Exchange) (info : RepoInfo)
  (fuel retryCount : nat) (data : GitHubData.t) (trace : list Event) :
  fetchGitHubData_fuel fuel api (Some info) retryCount
  = (Returns (Some data), trace) ->
  exists n response,
    (retryCount <= n <= Nat.max retryCount MAX_RETRIES)%nat
    /\ limited_between api retryCount n
    /\ answers (api n) response
    /\ ((Response.status response = 404 /\ data = not_found)
        \/ (Response.ok response = true
            /\ exists json,
                 Response.body response = JsonObject json
                 /\ data = github_data_of json)).
Proof.
  revert retryCount trace.
  induction fuel as [|fuel IH]; intros retryCount trace; [discriminate|].
  cbn [fetchGitHubData_fuel]. unfold fetchWithTimeout.
  destruct (answer (api retryCount)) as [after_ms response|after_ms e|] eqn:Hanswer.
  - destruct (after_ms <? FETCH_TIMEOUT_MS) eqn:Hafter.
    + assert (answers (api retryCount) response) as Hans.
      { exists after_ms. split; [exact Hanswer|now apply Z.ltb_lt]. }
      cbn [bind emit ret fst snd app].
      destruct ((Response.status response =? 403) || (Response.status response =? 429))
        eqn:Hlimit.
      * destruct (Nat.leb_spec MAX_RETRIES retryCount) as [|Hretry];
          [discriminate|].
        destruct (fetchGitHubData_fuel fuel api (Some info) (retryCount + 1))
          as [[[d|]|e|] t] eqn:Hrec; cbn [bind sleep emit try_catch app];
          try discriminate.
        -- intros [= <- _].
           destruct (IH _ _ Hrec) as (n & r & Hn & Hbetween & Hr & Hdata).
           exists n, r. split; [lia|]. split; [|now split].
           intros j Hj. destruct (Nat.eq_dec j retryCount) as [->|Hne].
           ++ exists response. split; [exact Hans|].
              now apply rate_limited_test.
           ++ apply Hbetween. lia.
        -- destruct e as [| |e]; cbn [fetch_failed throw];
             try discriminate.
           destruct (err_name e =? "AbortError")%string; discriminate.
      * destruct (Response.status response =? 404) eqn:Hstatus.
        -- intros [= <- _]. exists retryCount, response.
           split; [lia|]. split; [intros j Hj; lia|]. split; [exact Hans|].
           left. split; [now apply Z.eqb_eq|reflexivity].
        -- destruct (Response.ok response) eqn:Hok; cbn [negb].
           ++ unfold read_body.
              destruct (Response.body response) as [e| |json] eqn:Hbody;
                cbn [bind throw ret try_catch fetch_failed app TypeError err_name].
              ** destruct (err_name e =? "AbortError")%string; discriminate.
              ** discriminate.
              ** intros [= <- _]. exists retryCount, response.
                 split; [lia|]. split; [intros j Hj; lia|].
                 split; [exact Hans|]. right. split; [exact Hok|].
                 now exists json.
           ++ cbn [bind throw ret try_catch fetch_failed app err_name].
              discriminate.
    + cbn [bind emit throw try_catch app]. discriminate.
  - destruct (after_ms <? FETCH_TIMEOUT_MS); cbn [bind emit throw try_catch app];
      [|discriminate].
    cbn [fetch_failed]. destruct (err_name e =? "AbortError")%string; discriminate.
  - cbn [bind emit throw try_catch app]. discriminate.
Qed.

Lemma assigned_not_found (lib : Library.t) :
  assigned_from not_found lib -> enriched_as_not_found lib.
Proof. intros H. exact H. Qed.

Lemma assigned_from_body (json : RepoJson.t) (lib : Library.t) :
  assigned_from (github_data_of json) lib -> enriched_from_body json lib.
Proof.
  intros (H1 & H2 & H3 & H4 & H5 & H6 & H7).
  repeat (split; [assumption|]). split; [|assumption].
  rewrite H6. cbn [github_data_of GitHubData.license]. unfold license_of.
  destruct (RepoJson.license json) as [| |l]; [now right|now right|].
  destruct (spdx_id l) as [| |id] eqn:Hid; [now right|now right|].
  left. now exists l, id.
Qed.

(** C4, as the code has it. After enrichment the seven properties of a
    library are either all missing from the object (the library has no
    repository and no fetch is made, or the fetch gave no data), or all
    assigned together from the data its fetch gave. That data comes from the
    first answer that is not a rate limit. After a 404 answer it is the
    not-found result: [stars] is 0, [isArchived] is true and the other five
    are assigned [undefined]. After a successful answer it is read from the
    body: [stars], [isArchived], [openIssues] and [topics] hold the value of
    the body or a default, [license] holds a string or [null], [pushedAt] and
    [githubDescription] hold what the body has. *)
Theorem enrichment_all_or_nothing (remote : Remote)
  (rawLibraries : list (option RawEntry.t)) :
  fst (groupLibraries rawLibraries) = Returns (uniqueLibraries rawLibraries)
  /\ fst (processInBatches (uniqueLibraries rawLibraries) CONCURRENT_REQUESTS
            (processor remote))
     = Returns (enrichedLibraries remote rawLibraries)
  /\ forall lib,
       In lib (enrichedLibraries remote rawLibraries) ->
       exists lib0,
         In lib0 (uniqueLibraries rawLibraries)
         /\ Library.name lib = Library.name lib0
         /\ let api := remote (Library.name lib0) in
            (Library._repoInfo lib0 = None /\ never_assigned lib)
            \/ (exists info,
                  Library._repoInfo lib0 = Some info
                  /\ fst (fetchGitHubData api (Some info) 0) = Returns None
                  /\ never_assigned lib)
            \/ (exists info data n response,
                  Library._repoInfo lib0 = Some info
                  /\ fst (fetchGitHubData api (Some info) 0)
                     = Returns (Some data)
                  /\ assigned_from data lib
                  /\ (n <= MAX_RETRIES)%nat
                  /\ limited_between api 0 n
                  /\ answers (api n) response
                  /\ ((Response.status response = 404
                       /\ data = not_found /\ enriched_as_not_found lib)
                      \/ (Response.ok response = true
                          /\ exists json,
                               Response.body response = JsonObject json
                               /\ enriched_from_body json lib))).
Proof.
  destruct (enrichment_stage remote rawLibraries) as (Hgroup & Hbatches).
  split; [exact Hgroup|]. split; [exact Hbatches|].
  intros lib Hin. apply enrichedLibraries_In in Hin as (lib0 & Hin & ->).
  destruct (uniqueLibraries_spec rawLibraries) as (_ & _ & Hcreated).
  destruct (Hcreated lib0 Hin) as [Hnever _].
  exists lib0. split; [exact Hin|].
  destruct (processed_alone_cases remote lib0)
    as [[Hnone ->]|[(info & Hinfo & Hnull & ->)
                   |(info & data & Hinfo & Hdata & ->)]].
  - split; [reflexivity|]. left. now split.
  - split; [reflexivity|]. right. left. now exists info.
  - split; [reflexivity|]. cbv zeta. right. right. pose proof Hdata as Hfst.
    destruct (fetchGitHubData (remote (Library.name lib0)) (Some info) 0)
      as [r t] eqn:Hfetch in Hdata. cbn [fst] in Hdata. subst r.
    unfold fetchGitHubData in Hfetch.
    destruct (fetchGitHubData_fuel_source _ _ _ _ _ _ Hfetch)
      as (n & response & Hn & Hbetween & Hans & Hsource).
    assert (assigned_from data
              (Library.delete_repoInfo (Library.assign_github lib0 data)))
      as Hassigned by repeat split.
    exists info, data, n, response.
    split; [exact Hinfo|]. split; [exact Hfst|]. split; [exact Hassigned|].
    split; [lia|]. split; [exact Hbetween|]. split; [exact Hans|].
    destruct Hsource as [[Hstatus ->]|(Hok & json & Hbody & ->)].
    + left. split; [exact Hstatus|]. split; [reflexivity|].
      now apply assigned_not_found.
    + right. split; [exact Hok|]. exists json. split; [exact Hbody|].
      now apply assigned_from_body.
Qed.

(** In the sample run the library [a] is enriched from the body of a
    successful answer, with 100 stars. *)
Lemma enrichment_all_or_nothing_witness :
  exists lib json,
    In lib (enrichedLibraries sample_remote sample_index)
    /\ Library.name lib = "a"%string
    /\ Library.stars lib = Some (val 100)
    /\ enriched_from_body json lib.
Proof.
  set (lib := nth 1 (enrichedLibraries sample_remote sample_index) no_library).
  assert (In lib (enrichedLibraries sample_remote sample_index)) as Hin
    by (right; left; reflexivity).
  assert (Library.stars lib = Some (val 100)) as Hstars by reflexivity.
  destruct (proj2 (proj2 (enrichment_all_or_nothing sample_remote sample_index))
              lib Hin)
    as (lib0 & _ & _ & [[_ Hnever]|[(info & _ & _ & Hnever)
        |(info & data & n & response & _ & _ & _ & _ & _ & _
          & [(_ & _ & Hmissing)|(_ & json & _ & Hbody)])]]).
  - exfalso. destruct Hnever as (Hnone & _). rewrite Hnone in Hstars.
    discriminate Hstars.
  - exfalso. destruct Hnever as (Hnone & _). rewrite Hnone in Hstars.
    discriminate Hstars.
  - exfalso. destruct Hmissing as (Hzero & _). rewrite Hzero in Hstars.
    discriminate Hstars.
  - exists lib, json. split; [exact Hin|]. split; [reflexivity|].
    split; [exact Hstars|exact Hbody].
Defined.

(** C4, as the specification words it, does not hold: after a 404 answer
    the library has [stars] and [isArchived] but [openIssues], [topics],
    [license], [pushedAt] and [githubDescription] read [undefined]; its
    enrichment is neither all absent nor all populated. *)
Lemma not_found_leaves_some_absent :
  exists unique enriched lib,
    fst (groupLibraries sample_index) = Returns unique
    /\ fst (processInBatches unique CONCURRENT_REQUESTS (processor missing_remote))
       = Returns enriched
    /\ In lib enriched
    /\ read (Library.stars lib) = val 0
    /\ read (Library.isArchived lib) = val true
    /\ read (Library.topics lib) = undefined
    /\ ~ (all_absent lib \/ all_populated lib).
Proof.
  destruct (enrichment_stage missing_remote sample_index) as (Hgroup & Hbatches).
  exists (uniqueLibraries sample_index),
    (enrichedLibraries missing_remote sample_index),
    (nth 0 (enrichedLibraries missing_remote sample_index) no_library).
  split; [exact Hgroup|]. split; [exact Hbatches|].
  split; [left; reflexivity|].
  split; [reflexivity|]. split; [reflexivity|]. split; [reflexivity|].
  intros [Habsent|Hpopulated].
  - destruct Habsent as (Hstars & _). discriminate Hstars.
  - destruct Hpopulated as (_ & _ & _ & _ & Htopics & _). now apply Htopics.
Qed.

(** ** The final order *)

Lemma compare_weights_antisym (a b : list nat) :
  compare_weights b a = CompOpp (compare_weights a b).
Proof.
  revert b. induction a as [|x a IH]; intros [|y b]; cbn [compare_weights];
    try reflexivity.
  rewrite (Nat.compare_antisym x y).
  destruct (Nat.compare x y); cbn [CompOpp]; [apply IH|reflexivity|reflexivity].
Qed.

(** The collation of the runtime never answers "after" both ways. *)
Lemma root_collation_flip (a b : string) :
  0 < root_collation a b -> root_collation b a <= 0.
Proof.
  unfold root_collation.
  rewrite (compare_weights_antisym (weights primary_weight a)),
    (compare_weights_antisym (weights tertiary_weight a)).
  destruct (compare_weights (weights primary_weight a) (weights primary_weight b));
    cbn [CompOpp Z_of_comparison]; try lia.
  destruct (compare_weights (weights tertiary_weight a) (weights tertiary_weight b));
    cbn [CompOpp Z_of_comparison]; lia.
Qed.

Section FinalOrder.

Variable localeCompare : string -> string -> Z.

(** A comparison of names that says [a] sorts after [b] does not say that
    [b] sorts after [a]. *)
Hypothesis localeCompare_flip :
  forall a b, 0 < localeCompare a b -> localeCompare b a <= 0.

Lemma by_stars_then_name_flip (a b : Library.t) :
  0 < by_stars_then_name localeCompare a b ->
  by_stars_then_name localeCompare b a <= 0.
Proof.
  unfold by_stars_then_name.
  destruct (Z.eqb_spec (read (Library.stars b) ?? 0) (read (Library.stars a) ?? 0))
    as [Heq|Hne], (Z.eqb_spec (read (Library.stars a) ?? 0) (read (Library.stars b) ?? 0))
    as [Heq'|Hne']; cbn [negb]; try lia.
  apply localeCompare_flip.
Qed.

(** C1, as the code has it. The final registry is sorted by stars, highest
    first, a library without stars counting as 0; of two neighbours with the
    same stars, the first does not sort after the second by the name
    comparison of the runtime ([localeCompare]). *)
Theorem finalRegistry_ranked (remote : Remote)
  (rawLibraries : list (option RawEntry.t)) :
  exists final trace,
    generateRegistry localeCompare remote rawLibraries = (Returns final, trace)
    /\ ranked (fun a b => localeCompare a b <= 0) final.
Proof.
  destruct (generateRegistry_spec localeCompare remote rawLibraries)
    as (trace & Hrun).
  eexists. exists trace. split; [exact Hrun|].
  intros i a b Ha Hb.
  pose proof (Sorted_neighbours (by_stars_then_name localeCompare) _ i a b
                (Array_sort_Sorted _ by_stars_then_name_flip _) Ha Hb) as Hab.
  unfold in_order, by_stars_then_name in Hab. unfold stars_of.
  destruct (Z.eqb_spec (read (Library.stars b) ?? 0) (read (Library.stars a) ?? 0))
    as [Heq|Hne]; cbn [negb] in Hab.
  - split; [lia|]. intros _. exact Hab.
  - split; [lia|]. intros Heq. congruence.
Qed.

End FinalOrder.

Lemma finalRegistry_ranked_witness :
  exists final trace,
    generateRegistry root_collation silent_remote sample_index
    = (Returns final, trace)
    /\ map Library.name final = ["a"; "B"]
    /\ ranked (fun a b => root_collation a b <= 0) final.
Proof.
  destruct (finalRegistry_ranked root_collation root_collation_flip
              silent_remote sample_index) as (final & trace & Hrun & Hranked).
  exists final, trace. split; [exact Hrun|]. split; [|exact Hranked].
  assert (fst (generateRegistry root_collation silent_remote sample_index)
          = Returns final) as Hfst by now rewrite Hrun.
  vm_compute in Hfst. injection Hfst as <-. reflexivity.
Defined.

(** C1, as the specification words it, does not hold: with no stars on
    either side, [a] is placed before [B], although [B] comes first code
    unit by code unit. *)
Lemma finalRegistry_not_code_unit_order :
  exists final,
    fst (generateRegistry root_collation silent_remote sample_index)
    = Returns final
    /\ map Library.name final = ["a"; "B"]
    /\ ~ ranked code_unit_le final.
Proof.
  eexists. split; [vm_compute; reflexivity|]. split; [reflexivity|].
  intros Hranked.
  destruct (Hranked 0%nat _ _ eq_refl eq_refl) as [_ Hnames].
  apply Hnames; reflexivity.
Qed.

(** * Further properties *)

(** ** parseGitHubUrl *)

Lemma span_all_chars (p : ascii -> bool) (s : string) :
  all_chars p (fst (span p s)) = true.
Proof.
  induction s as [|c s IH]; cbn [span]; [reflexivity|].
  destruct (p c) eqn:E; [|reflexivity].
  destruct (span p s) as [a b]. cbn [fst all_chars] in *. now rewrite E, IH.
Qed.

Lemma span_app_stop (p : ascii -> bool) (a b : string) :
  all_chars p a = true -> starts_with p b = false -> span p (a ++ b) = (a, b).
Proof.
  intros Ha Hb. induction a as [|c a IH]; cbn [String.append span all_chars] in *.
  - destruct b as [|c b]; [reflexivity|]. cbn [starts_with span] in *.
    now rewrite Hb.
  - apply andb_true_iff in Ha as [Hc Ha]. now rewrite Hc, (IH Ha).
Qed.

Lemma substring_all (s : string) : substring 0 (String.length s) s = s.
Proof.
  induction s as [|c s IH]; cbn [substring String.length]; [reflexivity|].
  now rewrite IH.
Qed.

Lemma prefix_empty (s : string) : prefix "" s = true.
Proof. now destruct s. Qed.

(** The pattern tried where the host name stands. *)
Lemma match_github_here_host (sep : ascii) (owner repo tail : string) :
  (sep = "/" \/ sep = ":")%char ->
  repo_segment owner -> repo_segment repo ->
  starts_with is_repo_char tail = false ->
  match_github_here ("github.com" ++ String sep (owner ++ "/" ++ repo ++ tail))
  = Some (owner, repo).
Proof.
  intros Hsep [Ho1 Ho2] [Hr1 Hr2] Htail. unfold match_github_here.
  cbn [String.append prefix].
  repeat (destruct (ascii_dec _ _) as [_|Hne]; [|congruence]).
  cbn [String.length Nat.sub substring]. rewrite substring_all.
  assert ((sep =? "/")%char || (sep =? ":")%char = true) as ->
    by (destruct Hsep as [-> | ->]; reflexivity).
  rewrite (span_app_stop is_repo_char owner (String "/" (repo ++ tail)) Ho2 eq_refl).
  rewrite (span_app_stop is_repo_char repo tail Hr2 Htail).
  apply String.eqb_neq in Ho1, Hr1. now rewrite Ho1, Hr1.
Qed.

Lemma match_github_here_other (c : ascii) (s : string) :
  c <> "g"%char -> match_github_here (String c s) = None.
Proof.
  intros Hc. unfold match_github_here. cbn [prefix].
  destruct (ascii_dec "g" c) as [E|_]; [congruence|reflexivity].
Qed.

Lemma match_github_skip (pre s : string) (m : string * string) :
  without_g pre -> match_github_here s = Some m ->
  match_github (pre ++ s) = Some m.
Proof.
  intros Hpre Hs. induction pre as [|c pre IH]; cbn [String.append].
  - destruct s; cbn [match_github]; now rewrite Hs.
  - unfold without_g in Hpre. cbn [all_chars] in Hpre.
    apply andb_true_iff in Hpre as [Hc Hpre].
    cbn [match_github]. rewrite match_github_here_other.
    + now apply IH.
    + intros ->. discriminate.
Qed.

Lemma match_github_ssh (s : string) (m : string * string) :
  match_github_here s = Some m -> match_github ("git@" ++ s) = Some m.
Proof.
  intros Hs. cbn [String.append match_github].
  assert (match_github_here (String "g" (String "i" (String "t" (String "@" s))))
          = None) as ->.
  { unfold match_github_here. cbn [prefix].
    repeat (destruct (ascii_dec _ _) as [E|E]; try discriminate E; try reflexivity). }
  rewrite !match_github_here_other by discriminate.
  destruct s; cbn [match_github]; now rewrite Hs.
Qed.

Lemma append_not_empty (a b : string) : b <> EmptyString -> (a ++ b)%string <> EmptyString.
Proof. destruct a; [now cbn|discriminate]. Qed.

Lemma parseGitHubUrl_at_host (pre : string) (sep : ascii)
  (owner repo tail : string) :
  without_g pre \/ pre = "git@" ->
  (sep = "/" \/ sep = ":")%char ->
  repo_segment owner -> repo_segment repo ->
  starts_with is_repo_char tail = false ->
  parseGitHubUrl
    (val (pre ++ "github.com" ++ String sep (owner ++ "/" ++ repo ++ tail))%string)
  = Some (mkRepoInfo owner (strip_git_suffix repo)).
Proof.
  intros Hpre Hsep Ho Hr Htail.
  pose proof (match_github_here_host sep owner repo tail Hsep Ho Hr Htail) as Hhere.
  unfold parseGitHubUrl.
  assert (truthy_string
            (val (pre ++ "github.com" ++ String sep (owner ++ "/" ++ repo ++ tail))%string)
          = true) as ->.
  { cbn [truthy_string]. apply negb_true_iff, String.eqb_neq.
    apply append_not_empty. discriminate. }
  cbn [negb]. destruct Hpre as [Hpre| ->].
  - now rewrite (match_github_skip pre _ _ Hpre Hhere).
  - now rewrite (match_github_ssh _ _ Hhere).
Qed.

Lemma length_append (a b : string) :
  String.length (a ++ b) = (String.length a + String.length b)%nat.
Proof. induction a as [|c a IH]; cbn [String.append String.length]; [reflexivity|]. now rewrite IH. Qed.

Lemma strip_git_suffix_added (r : string) : strip_git_suffix (r ++ ".git") = r.
Proof.
  induction r as [|c r IH]; [reflexivity|].
  cbn [String.append strip_git_suffix].
  assert ((String c (r ++ ".git") =? ".git")%string = false) as ->.
  { apply String.eqb_neq. intros H. apply (f_equal String.length) in H.
    cbn [String.length] in H. rewrite length_append in H.
    cbn [String.length] in H. lia. }
  now rewrite IH.
Qed.

Lemma all_chars_app (p : ascii -> bool) (a b : string) :
  all_chars p (a ++ b) = all_chars p a && all_chars p b.
Proof.
  induction a as [|c a IH]; cbn [String.append all_chars]; [reflexivity|].
  now rewrite IH, andb_assoc.
Qed.

(** X1. A URL made of a scheme without the letter g (or of [git@]), the host
    [github.com], a slash or a colon, an owner, a slash, a repository name
    and anything that does not go on with a character of the class, parses
    to that owner and that name, less one trailing [.git]; a name written
    with [.git] appended parses to the name. *)
Theorem parseGitHubUrl_shapes (pre : string) (sep : ascii)
  (owner repo tail : string) :
  without_g pre \/ pre = "git@" ->
  (sep = "/" \/ sep = ":")%char ->
  repo_segment owner -> repo_segment repo ->
  starts_with is_repo_char tail = false ->
  parseGitHubUrl
    (val (pre ++ "github.com" ++ String sep (owner ++ "/" ++ repo ++ tail))%string)
  = Some (mkRepoInfo owner (strip_git_suffix repo))
  /\ parseGitHubUrl
       (val (pre ++ "github.com"
             ++ String sep (owner ++ "/" ++ (repo ++ ".git") ++ tail))%string)
     = Some (mkRepoInfo owner repo).
Proof.
  intros Hpre Hsep Ho Hr Htail. split.
  - now apply parseGitHubUrl_at_host.
  - rewrite <- (strip_git_suffix_added repo) at 2.
    apply parseGitHubUrl_at_host; try assumption.
    destruct Hr as [Hr1 Hr2]. split.
    + destruct repo; [congruence|discriminate].
    + rewrite all_chars_app, Hr2. reflexivity.
Qed.

Lemma parseGitHubUrl_shapes_witness :
  parseGitHubUrl (val "https://github.com/arduino-libraries/Servo/tree/master")
  = Some (mkRepoInfo "arduino-libraries" "Servo")
  /\ parseGitHubUrl (val "https://github.com/arduino-libraries/Servo.git/tree/master")
     = Some (mkRepoInfo "arduino-libraries" "Servo").
Proof.
  apply (parseGitHubUrl_shapes "https://" "/" "arduino-libraries" "Servo"
           "/tree/master").
  - left. reflexivity.
  - left. reflexivity.
  - split; [discriminate|reflexivity].
  - split; [discriminate|reflexivity].
  - reflexivity.
Defined.

Lemma match_github_here_some (s g1 g2 : string) :
  match_github_here s = Some (g1, g2) -> repo_segment g1 /\ repo_segment g2.
Proof.
  unfold match_github_here. destruct (prefix "github.com" s); [|discriminate].
  destruct (substring 10 (String.length s - 10) s) as [|sep rest]; [discriminate|].
  destruct ((sep =? "/")%char || (sep =? ":")%char); [|discriminate].
  pose proof (span_all_chars is_repo_char rest) as H1.
  destruct (span is_repo_char rest) as [a rest1]. cbn [fst] in H1.
  destruct rest1 as [|c rest2]; [discriminate|].
  destruct (Ascii.eqb_spec c "/") as [->|Hc].
  - pose proof (span_all_chars is_repo_char rest2) as H2.
    destruct (span is_repo_char rest2) as [b rest3]. cbn [fst] in H2.
    destruct (String.eqb_spec a "") as [->|Ha]; [discriminate|].
    destruct (String.eqb_spec b "") as [->|Hb]; [discriminate|].
    cbn [orb]. intros [= <- <-]. now repeat split.
  - destruct c as [[] [] [] [] [] [] [] []]; try discriminate. congruence.
Qed.

Lemma match_github_some (s g1 g2 : string) :
  match_github s = Some (g1, g2) -> repo_segment g1 /\ repo_segment g2.
Proof.
  induction s as [|c s IH]; cbn [match_github].
  - destruct (match_github_here "") as [m|] eqn:E; [|discriminate].
    intros [= ->]. now apply (match_github_here_some "").
  - destruct (match_github_here (String c s)) as [m|] eqn:E; [|exact IH].
    intros [= ->]. now apply (match_github_here_some (String c s)).
Qed.

Lemma strip_git_suffix_chars (p : ascii -> bool) (s : string) :
  all_chars p s = true -> all_chars p (strip_git_suffix s) = true.
Proof.
  induction s as [|c s IH]; [reflexivity|].
  cbn [strip_git_suffix all_chars]. intros H.
  apply andb_true_iff in H as [Hc Hs].
  destruct (String c s =? ".git")%string; [reflexivity|].
  cbn [all_chars]. now rewrite Hc, IH.
Qed.

Lemma parseGitHubUrl_some (url : js string) (info : RepoInfo) :
  parseGitHubUrl url = Some info ->
  exists u g2,
    url = val u /\ match_github u = Some (owner info, g2)
    /\ repo info = strip_git_suffix g2.
Proof.
  unfold parseGitHubUrl. destruct (truthy_string url); [|discriminate].
  cbn [negb]. destruct url as [| |u]; try discriminate.
  destruct (match_github u) as [[g1 g2]|] eqn:E; [|discriminate].
  intros [= <-]. now exists u, g2.
Qed.

(** X2. Only a string that is not empty parses; and an identity the parser
    returns has an owner that is not empty, and an owner and a repository
    name made only of letters, digits, underscores, dots and hyphens (the
    name may be empty: it is what is left of a segment [.git]). *)
Theorem parseGitHubUrl_wellformed (url : js string) (info : RepoInfo) :
  parseGitHubUrl url = Some info ->
  (exists u, url = val u /\ u <> EmptyString)
  /\ repo_segment (owner info)
  /\ all_chars is_repo_char (repo info) = true.
Proof.
  intros H.
  destruct (parseGitHubUrl_some url info H) as (u & g2 & Hu & Hm & Hrepo).
  destruct (match_github_some u _ _ Hm) as [Ho [_ Hg2]].
  split; [|split].
  - exists u. split; [exact Hu|]. intros ->. discriminate Hm.
  - exact Ho.
  - rewrite Hrepo. now apply strip_git_suffix_chars.
Qed.

Lemma parseGitHubUrl_wellformed_witness :
  (exists u, val "https://github.com/o/.git" = val u /\ u <> EmptyString)
  /\ repo_segment "o"
  /\ all_chars is_repo_char "" = true.
Proof.
  exact (parseGitHubUrl_wellformed (val "https://github.com/o/.git")
           (mkRepoInfo "o" "") eq_refl).
Defined.

(** X3. The canonical URL built from an identity with a repository name
    parses back to the same owner and to the name less one trailing [.git]:
    to the same identity exactly when the name does not end in [.git]. *)
Theorem parseGitHubUrl_canonical (url : js string) (info : RepoInfo) :
  parseGitHubUrl url = Some info ->
  repo info <> EmptyString ->
  parseGitHubUrl (val ("https://github.com/" ++ repo_path info)%string)
  = Some (mkRepoInfo (owner info) (strip_git_suffix (repo info))).
Proof.
  intros H Hrepo.
  destruct (parseGitHubUrl_some url info H) as (u & g2 & _ & Hm & Hstrip).
  destruct (match_github_some u _ _ Hm) as [Ho [_ Hg2]].
  assert (repo_segment (repo info)) as Hr.
  { split; [exact Hrepo|]. rewrite Hstrip. now apply strip_git_suffix_chars. }
  pose proof (parseGitHubUrl_at_host "https://" "/" (owner info) (repo info) ""
                (or_introl eq_refl) (or_introl eq_refl) Ho Hr eq_refl) as Hparse.
  unfold repo_path.
  replace (owner info ++ "/" ++ repo info)%string
    with (owner info ++ "/" ++ repo info ++ "")%string; [exact Hparse|].
  f_equal. f_equal. clear. induction (repo info); cbn; congruence.
Qed.

Lemma parseGitHubUrl_canonical_witness :
  parseGitHubUrl (val "https://github.com/o/r.git") = Some (mkRepoInfo "o" "r")
  /\ parseGitHubUrl (val "https://github.com/o/r") = Some (mkRepoInfo "o" "r").
Proof.
  split; [reflexivity|].
  apply (parseGitHubUrl_canonical (val "https://github.com/o/r.git")
           (mkRepoInfo "o" "r")); [reflexivity|discriminate].
Defined.

(** ** fetchGitHubData, request by request *)

Lemma requests_app (t1 t2 : list Event) :
  requests (t1 ++ t2) = requests t1 ++ requests t2.
Proof. apply flat_map_app. Qed.

Lemma fetch_failed_logs (info : RepoInfo) (e : JsError) :
  exists line, fetch_failed info (val e) = (Returns None, [Console_error line]).
Proof.
  unfold fetch_failed. destruct (err_name e =? "AbortError")%string;
    eexists; reflexivity.
Qed.

Ltac logged :=
  match goal with
  | |- context [fetch_failed ?info (val ?e)] =>
      destruct (fetch_failed_logs info e) as (? & ->)
  end.

(** A request that brings nothing usable: [null], after one error line. *)
Lemma fetchGitHubData_unusable (api : nat -> Exchange) (info : RepoInfo)
  (retryCount : nat) :
  unusable (api retryCount) ->
  exists line,
    fetchGitHubData api (Some info) retryCount
    = (Returns None, [Request (apiUrl_of info); Console_error line]).
Proof.
  intros H. unfold fetchGitHubData. cbn [fetchGitHubData_fuel].
  unfold fetchWithTimeout.
  destruct H as [H|after_ms r H Hlate|after_ms e H
                |r (after_ms & H & Hin) Hlim H404 Hok
                |r (after_ms & H & Hin) Hok Hbody]; rewrite H.
  - cbn [bind emit throw ret try_catch fst snd app]. logged. now eexists.
  - apply Z.ltb_ge in Hlate. rewrite Hlate.
    cbn [bind emit throw ret try_catch fst snd app]. logged. now eexists.
  - destruct (after_ms <? FETCH_TIMEOUT_MS);
      cbn [bind emit throw ret try_catch fst snd app]; logged; now eexists.
  - apply Z.ltb_lt in Hin. rewrite Hin.
    cbn [bind emit throw ret try_catch fst snd app].
    rewrite rate_limited_test in Hlim. apply not_true_is_false in Hlim.
    rewrite Hlim. apply Z.eqb_neq in H404. rewrite H404, Hok. cbn [negb].
    cbn [bind emit throw ret try_catch fst snd app]. logged. now eexists.
  - apply Z.ltb_lt in Hin. rewrite Hin.
    cbn [bind emit throw ret try_catch fst snd app].
    unfold Response.ok in Hok. apply andb_true_iff in Hok as [Hlo Hhi].
    apply Z.leb_le in Hlo. apply Z.ltb_lt in Hhi.
    assert ((Response.status r =? 403) || (Response.status r =? 429) = false) as ->.
    { apply orb_false_iff. split; apply Z.eqb_neq; lia. }
    assert ((Response.status r =? 404) = false) as -> by (apply Z.eqb_neq; lia).
    assert (Response.ok r = true) as ->.
    { unfold Response.ok. apply andb_true_iff.
      split; [apply Z.leb_le|apply Z.ltb_lt]; lia. }
    cbn [negb]. unfold read_body.
    destruct (Response.body r) as [e| |data].
    + cbn [bind emit throw ret try_catch fst snd app]. logged. now eexists.
    + cbn [bind emit throw ret try_catch fst snd app]. logged. now eexists.
    + now destruct (Hbody data).
Qed.

(** A successful answer with an object for a body. *)
Lemma fetchGitHubData_ok (api : nat -> Exchange) (info : RepoInfo)
  (retryCount : nat) (response : Response.t) (data : RepoJson.t) :
  answers (api retryCount) response -> Response.ok response = true ->
  Response.body response = JsonObject data ->
  fetchGitHubData api (Some info) retryCount
  = (Returns (Some (github_data_of data)), [Request (apiUrl_of info)]).
Proof.
  intros (after_ms & H & Hin) Hok Hbody.
  unfold fetchGitHubData. cbn [fetchGitHubData_fuel].
  unfold fetchWithTimeout. rewrite H. apply Z.ltb_lt in Hin. rewrite Hin.
  cbn [bind emit throw ret try_catch fst snd app].
  pose proof Hok as Hok'.
  unfold Response.ok in Hok. apply andb_true_iff in Hok as [Hlo Hhi].
  apply Z.leb_le in Hlo. apply Z.ltb_lt in Hhi.
  assert ((Response.status response =? 403) || (Response.status response =? 429)
          = false) as ->.
  { apply orb_false_iff. split; apply Z.eqb_neq; lia. }
  assert ((Response.status response =? 404) = false) as -> by (apply Z.eqb_neq; lia).
  rewrite Hok'. cbn [negb]. unfold read_body. rewrite Hbody. reflexivity.
Qed.

(** A rate-limit answer when no retry is left. *)
Lemma fetchGitHubData_exhausted (api : nat -> Exchange) (info : RepoInfo)
  (retryCount : nat) (response : Response.t) :
  answers (api retryCount) response -> rate_limited response ->
  (MAX_RETRIES <= retryCount)%nat ->
  fetchGitHubData api (Some info) retryCount
  = (Returns None,
     [Request (apiUrl_of info);
      Console_error ("::error::Rate limit: Max retries ("
                     ++ string_of_nat MAX_RETRIES ++ ") exceeded for "
                     ++ repo_path info)%string]).
Proof.
  intros (after_ms & H & Hin) Hlim Hmax.
  unfold fetchGitHubData. cbn [fetchGitHubData_fuel].
  unfold fetchWithTimeout. rewrite H. apply Z.ltb_lt in Hin. rewrite Hin.
  cbn [bind emit throw ret try_catch fst snd app].
  apply rate_limited_test in Hlim. rewrite Hlim.
  apply Nat.leb_le in Hmax. rewrite Hmax. reflexivity.
Qed.

(** Rate-limit answers to the requests [k], ..., [n - 1]: the call with
    [retryCount = k] ends as the one with [retryCount = n] does, after
    [n - k] requests and as many sleeps. *)
Lemma fetchGitHubData_after_limits (api : nat -> Exchange) (info : RepoInfo)
  (n : nat) :
  (n <= MAX_RETRIES)%nat ->
  forall d k, (k + d = n)%nat ->
    limited_between api k n ->
    exists before,
      fetchGitHubData api (Some info) k
      = (fst (fetchGitHubData api (Some info) n),
         before ++ snd (fetchGitHubData api (Some info) n))
      /\ requests before = repeat (apiUrl_of info) d
      /\ List.length (sleeps before) = d.
Proof.
  intros Hn. induction d as [|d IH]; intros k Hk Hlimited.
  - replace k with n by lia. exists []. split; [|split; reflexivity].
    now destruct (fetchGitHubData api (Some info) n).
  - destruct (Hlimited k ltac:(lia)) as (r & Hr & Hlim).
    destruct (fetchGitHubData_rate_limited api info k r Hr Hlim ltac:(lia))
      as (line & ->).
    destruct (IH (S k) ltac:(lia)) as (before & -> & Hreq & Hsl).
    { intros j Hj. apply Hlimited. lia. }
    cbn [fst snd]. eexists (_ :: _ :: _ :: before). split; [reflexivity|].
    split.
    + cbn [requests flat_map app]. fold (requests before). now rewrite Hreq.
    + cbn [sleeps flat_map app List.length]. fold (sleeps before).
      now rewrite Hsl.
Qed.

(** One call that is not followed by another: one request and no sleep. *)
Lemma fetchGitHubData_budget_from (api : nat -> Exchange) (info : RepoInfo) :
  forall d retryCount, (MAX_RETRIES - retryCount <= d)%nat ->
    let trace := snd (fetchGitHubData api (Some info) retryCount) in
    requests trace = repeat (apiUrl_of info) (S (List.length (sleeps trace)))
    /\ (List.length (sleeps trace) <= MAX_RETRIES - retryCount)%nat.
Proof.
  assert (forall retryCount,
            (forall r, answers (api retryCount) r -> rate_limited r ->
                       (MAX_RETRIES <= retryCount)%nat) ->
            exists result rest,
              fetchGitHubData api (Some info) retryCount
              = (result, Request (apiUrl_of info) :: rest)
              /\ requests rest = [] /\ sleeps rest = []) as Hsingle.
  { intros retryCount Hlast. unfold fetchGitHubData. cbn [fetchGitHubData_fuel].
    unfold fetchWithTimeout.
    destruct (answer (api retryCount)) as [after_ms response|after_ms e|] eqn:Hans;
      try destruct (Z.ltb_spec after_ms FETCH_TIMEOUT_MS) as [Hin|Hlate];
      cbn [bind emit throw ret try_catch fst snd app];
      try (logged; do 2 eexists; split; [reflexivity|split; reflexivity]).
    destruct ((Response.status response =? 403) || (Response.status response =? 429))
      eqn:Hlim.
    - apply rate_limited_test in Hlim.
      assert (MAX_RETRIES <= retryCount)%nat as Hmax.
      { apply (Hlast response); [|exact Hlim]. now exists after_ms. }
      apply Nat.leb_le in Hmax. rewrite Hmax.
      do 2 eexists; split; [reflexivity|split; reflexivity].
    - destruct (Response.status response =? 404);
        [do 2 eexists; split; [reflexivity|split; reflexivity]|].
      destruct (Response.ok response); cbn [negb].
      + unfold read_body.
        destruct (Response.body response) as [e| |data];
          cbn [bind throw ret try_catch app]; try logged;
          do 2 eexists; (split; [reflexivity|split; reflexivity]).
      + cbn [bind throw ret try_catch app]. logged.
        do 2 eexists; (split; [reflexivity|split; reflexivity]). }
  induction d as [|d IH]; intros retryCount Hd trace; subst trace.
  - destruct (Hsingle retryCount) as (result & rest & -> & Hreq & Hsl).
    { intros; lia. }
    cbn [snd requests sleeps flat_map app]. fold (requests rest) (sleeps rest).
    rewrite Hreq, Hsl. split; [reflexivity|cbn; lia].
  - destruct (Nat.le_gt_cases MAX_RETRIES retryCount) as [Hmax|Hless].
    { apply IH. lia. }
    destruct (answer (api retryCount)) as [after_ms response|after_ms e|] eqn:Hans.
    2,3: destruct (Hsingle retryCount) as (result & rest & -> & Hreq & Hsl);
      [intros r (a & Ha & _); congruence|];
      cbn [snd requests sleeps flat_map app]; fold (requests rest) (sleeps rest);
      rewrite Hreq, Hsl; split; [reflexivity|cbn; lia].
    destruct (Z.ltb_spec after_ms FETCH_TIMEOUT_MS) as [Hin|Hlate].
    2: { destruct (Hsingle retryCount) as (result & rest & -> & Hreq & Hsl).
         - intros r (a & Ha & Hlt). rewrite Hans in Ha. injection Ha as <- <-. lia.
         - cbn [snd requests sleeps flat_map app].
           fold (requests rest) (sleeps rest).
           rewrite Hreq, Hsl. split; [reflexivity|cbn; lia]. }
    destruct ((Response.status response =? 403) || (Response.status response =? 429))
      eqn:Hlim.
    + apply rate_limited_test in Hlim.
      assert (answers (api retryCount) response) as Hr by now exists after_ms.
      destruct (fetchGitHubData_rate_limited api info retryCount response
                  Hr Hlim Hless) as (line & ->).
      destruct (IH (S retryCount) ltac:(lia)) as [Hreq Hsl].
      cbn [snd requests sleeps flat_map app List.length].
      fold (requests (snd (fetchGitHubData api (Some info) (S retryCount)))).
      fold (sleeps (snd (fetchGitHubData api (Some info) (S retryCount)))).
      rewrite Hreq. split; [reflexivity|lia].
    + destruct (Hsingle retryCount) as (result & rest & -> & Hreq & Hsl).
      * intros r (a & Ha & _) Hr. rewrite Hans in Ha. injection Ha as <- <-.
        apply rate_limited_test in Hr. congruence.
      * cbn [snd requests sleeps flat_map app].
        fold (requests rest) (sleeps rest).
        rewrite Hreq, Hsl. split; [reflexivity|cbn; lia].
Qed.

(** X4. One call of the fetch, whatever the endpoint does: every request
    goes to the URL of the repository, there is one request more than there
    are sleeps, and at most [MAX_RETRIES - retryCount] sleeps, so at most
    four requests and three sleeps from [retryCount = 0]; without a
    repository the call returns [null] and does nothing. *)
Theorem fetchGitHubData_request_budget (api : nat -> Exchange)
  (repoInfo : option RepoInfo) (retryCount : nat) :
  let trace := snd (fetchGitHubData api repoInfo retryCount) in
  match repoInfo with
  | Some info =>
      requests trace = repeat (apiUrl_of info) (S (List.length (sleeps trace)))
      /\ (List.length (sleeps trace) <= MAX_RETRIES - retryCount)%nat
      /\ (List.length (requests trace) <= S MAX_RETRIES)%nat
  | None => fetchGitHubData api repoInfo retryCount = (Returns None, [])
  end.
Proof.
  destruct repoInfo as [info|]; [|reflexivity].
  destruct (fetchGitHubData_budget_from api info (MAX_RETRIES - retryCount)
              retryCount (Nat.le_refl _)) as [Hreq Hsl].
  cbv zeta. split; [exact Hreq|]. split; [exact Hsl|].
  rewrite Hreq, repeat_length. lia.
Qed.

(** X5. When the endpoint answers every request with a rate-limit status,
    the fetch gives up after [MAX_RETRIES] sleeps and [MAX_RETRIES + 1]
    requests: it returns [null], and its last effect is the error line that
    names the repository. *)
Theorem fetchGitHubData_gives_up (api : nat -> Exchange) (info : RepoInfo) :
  limited_between api 0 (S MAX_RETRIES) ->
  exists before,
    fetchGitHubData api (Some info) 0
    = (Returns None,
       before
       ++ [Console_error ("::error::Rate limit: Max retries (3) exceeded for "
                          ++ repo_path info)%string])
    /\ requests before = repeat (apiUrl_of info) (S MAX_RETRIES)
    /\ List.length (sleeps before) = MAX_RETRIES.
Proof.
  intros Hlimited.
  destruct (fetchGitHubData_after_limits api info MAX_RETRIES (Nat.le_refl _)
              MAX_RETRIES 0%nat eq_refl) as (before & -> & Hreq & Hsl).
  { intros j Hj. apply Hlimited. lia. }
  destruct (Hlimited MAX_RETRIES ltac:(lia)) as (r & Hr & Hlim).
  rewrite (fetchGitHubData_exhausted api info MAX_RETRIES r Hr Hlim (Nat.le_refl _)).
  cbn [fst snd]. exists (before ++ [Request (apiUrl_of info)]). split; [|split].
  - now rewrite <- app_assoc.
  - rewrite requests_app, Hreq. cbn [requests flat_map app].
    change (S MAX_RETRIES) with (MAX_RETRIES + 1)%nat.
    now rewrite repeat_app.
  - rewrite sleeps_app, length_app, Hsl. cbn [sleeps flat_map app List.length]. lia.
Qed.

Lemma fetchGitHubData_gives_up_witness :
  exists before,
    fetchGitHubData limiting_api (Some (mkRepoInfo "a" "foo")) 0
    = (Returns None,
       before
       ++ [Console_error "::error::Rate limit: Max retries (3) exceeded for a/foo"])
    /\ requests before = repeat "https://api.github.com/repos/a/foo" 4
    /\ List.length (sleeps before) = 3%nat.
Proof.
  apply (fetchGitHubData_gives_up limiting_api (mkRepoInfo "a" "foo")).
  intros j _. exists (Response.mk 429 "" null JsonNull). split.
  - exists 120. split; reflexivity.
  - right. reflexivity.
Defined.

(** X6. A request that brings nothing usable (no answer before the timeout,
    a transport failure, an error status other than 403, 429 and 404, a body
    that cannot be read), coming after [n] rate-limit answers, ends the
    fetch with [null]: it is not retried, and the last effect is one error
    line. *)
Theorem fetchGitHubData_failure_is_null (api : nat -> Exchange)
  (info : RepoInfo) (n : nat) :
  (n <= MAX_RETRIES)%nat ->
  limited_between api 0 n ->
  unusable (api n) ->
  exists before line,
    fetchGitHubData api (Some info) 0
    = (Returns None, before ++ [Console_error line])
    /\ requests before = repeat (apiUrl_of info) (S n)
    /\ List.length (sleeps before) = n.
Proof.
  intros Hn Hlimited Hbad.
  destruct (fetchGitHubData_after_limits api info n Hn n 0%nat eq_refl Hlimited)
    as (before & -> & Hreq & Hsl).
  destruct (fetchGitHubData_unusable api info n Hbad) as (line & ->).
  cbn [fst snd]. exists (before ++ [Request (apiUrl_of info)]), line.
  split; [|split].
  - now rewrite <- app_assoc.
  - rewrite requests_app, Hreq. cbn [requests flat_map app].
    replace (S n) with (n + 1)%nat by lia. now rewrite repeat_app.
  - rewrite sleeps_app, length_app, Hsl. cbn [sleeps flat_map app List.length]. lia.
Qed.

Lemma fetchGitHubData_failure_is_null_witness :
  exists before line,
    fetchGitHubData
      (fun k => if (k =? 0)%nat then sample_answer 429 JsonNull
                else sample_answer 500 JsonNull)
      (Some (mkRepoInfo "a" "foo")) 0
    = (Returns None, before ++ [Console_error line])
    /\ requests before = repeat "https://api.github.com/repos/a/foo" 2
    /\ List.length (sleeps before) = 1%nat.
Proof.
  apply (fetchGitHubData_failure_is_null
           (fun k => if (k =? 0)%nat then sample_answer 429 JsonNull
                     else sample_answer 500 JsonNull)
           (mkRepoInfo "a" "foo") 1).
  - unfold MAX_RETRIES. lia.
  - intros j Hj. assert (j = 0%nat) as -> by lia.
    exists (Response.mk 429 "" null JsonNull). split.
    + exists 120. split; reflexivity.
    + right. reflexivity.
  - apply (error_status _ (Response.mk 500 "" null JsonNull)).
    + exists 120. split; reflexivity.
    + intros [H|H]; discriminate H.
    + discriminate.
    + reflexivity.
Defined.

(** X7. A successful answer whose body is an object, coming after [n]
    rate-limit answers, ends the fetch with the data read from that body,
    after [n + 1] requests and [n] sleeps and without any error line. *)
Theorem fetchGitHubData_first_success (api : nat -> Exchange)
  (info : RepoInfo) (n : nat) (response : Response.t) (data : RepoJson.t) :
  (n <= MAX_RETRIES)%nat ->
  limited_between api 0 n ->
  answers (api n) response -> Response.ok response = true ->
  Response.body response = JsonObject data ->
  exists trace,
    fetchGitHubData api (Some info) 0
    = (Returns (Some (github_data_of data)), trace)
    /\ requests trace = repeat (apiUrl_of info) (S n)
    /\ List.length (sleeps trace) = n
    /\ forall line, ~ In (Console_error line) trace.
Proof.
  intros Hn Hlimited Hans Hok Hbody.
  assert (forall d k, (k + d = n)%nat ->
            exists trace,
              fetchGitHubData api (Some info) k
              = (Returns (Some (github_data_of data)), trace)
              /\ requests trace = repeat (apiUrl_of info) (S d)
              /\ List.length (sleeps trace) = d
              /\ forall line, ~ In (Console_error line) trace) as Hall.
  { induction d as [|d IH]; intros k Hk.
    - replace k with n by lia.
      rewrite (fetchGitHubData_ok api info n response data Hans Hok Hbody).
      eexists. split; [reflexivity|]. repeat split.
      intros line [H|[]]. discriminate H.
    - destruct (Hlimited k ltac:(lia)) as (r & Hr & Hlim).
      destruct (fetchGitHubData_rate_limited api info k r Hr Hlim ltac:(lia))
        as (warning & ->).
      destruct (IH (S k) ltac:(lia)) as (trace & -> & Hreq & Hsl & Hquiet).
      cbn [fst snd]. eexists. split; [reflexivity|]. split; [|split].
      + cbn [requests flat_map app]. fold (requests trace). now rewrite Hreq.
      + cbn [sleeps flat_map app List.length]. fold (sleeps trace).
        now rewrite Hsl.
      + intros line [H|[H|[H|H]]]; try discriminate H. now apply (Hquiet line). }
  apply (Hall n 0%nat). lia.
Qed.

Lemma fetchGitHubData_first_success_witness :
  exists trace,
    fetchGitHubData
      (fun k => if (k =? 0)%nat then sample_answer 403 JsonNull
                else sample_answer 200 (sample_repo 100))
      (Some (mkRepoInfo "a" "foo")) 0
    = (Returns (Some (GitHubData.mk (val 100) (val false)
                        (val "2024-05-01T10:00:00Z") (val 3) null (val "MIT")
                        (val ["arduino"]) undefined)), trace)
    /\ requests trace = repeat "https://api.github.com/repos/a/foo" 2
    /\ List.length (sleeps trace) = 1%nat
    /\ forall line, ~ In (Console_error line) trace.
Proof.
  apply (fetchGitHubData_first_success
           (fun k => if (k =? 0)%nat then sample_answer 403 JsonNull
                     else sample_answer 200 (sample_repo 100))
           (mkRepoInfo "a" "foo") 1
           (Response.mk 200 "" null (sample_repo 100))
           (RepoJson.mk (val 100) (val false) (val "2024-05-01T10:00:00Z")
              (val 3) null (val (mkLicense (val "MIT"))) (val ["arduino"]))).
  - unfold MAX_RETRIES. lia.
  - intros j Hj. assert (j = 0%nat) as -> by lia.
    exists (Response.mk 403 "" null JsonNull). split.
    + exists 120. split; reflexivity.
    + left. reflexivity.
  - exists 120. split; reflexivity.
  - reflexivity.
  - reflexivity.
Defined.





(** ** Grouping, entry by entry *)

Section Stability.

Context {A : Type}.
Variable compareFn : A -> A -> Z.
Variable p : A -> bool.

(** The elements picked by [p] compare equal to one another. *)
Hypothesis p_equal :
  forall x y, p x = true -> p y = true -> compareFn x y <= 0.

Lemma sort_insert_filter (x : A) (l : list A) :
  filter p (sort_insert compareFn x l) = filter p (x :: l).
Proof.
  induction l as [|y l IH]; [reflexivity|]. cbn [sort_insert].
  destruct (Z.leb_spec (compareFn x y) 0) as [Hle|Hgt]; [reflexivity|].
  cbn [filter] in *. rewrite IH.
  destruct (p x) eqn:Hx, (p y) eqn:Hy; try reflexivity.
  specialize (p_equal x y Hx Hy). lia.
Qed.

(** The sort keeps elements that compare equal in the order they had. *)
Lemma Array_sort_stable (l : list A) :
  filter p (Array_sort compareFn l) = filter p l.
Proof.
  induction l as [|x l IH]; [reflexivity|].
  cbn [Array_sort fold_right]. fold (Array_sort compareFn l).
  rewrite sort_insert_filter. cbn [filter]. now rewrite IH.
Qed.

End Stability.

Lemma same_version_key (w : string) (x : VersionInfo.t) :
  same_version w x = true ->
  version_key (VersionInfo.version x) = version_key w.
Proof.
  unfold same_version. rewrite Z.eqb_eq, compareSemver_key. intros Hx.
  apply descending_sign. lia.
Qed.

Lemma same_version_equal (w : string) (x y : VersionInfo.t) :
  same_version w x = true -> same_version w y = true ->
  compare_versions x y <= 0.
Proof.
  intros Hx Hy. rewrite compare_versions_key.
  rewrite (same_version_key w x Hx), (same_version_key w y Hy).
  assert (descending (version_key w) (version_key w) = 0) as ->; [|reflexivity].
  now apply descending_sign.
Qed.

(** The libraries after grouping come from the map, with the versions of
    their entries. *)
Lemma uniqueLibraries_In (rawLibraries : list (option RawEntry.t))
  (lib : Library.t) :
  In lib (uniqueLibraries rawLibraries) ->
  exists m lib0 trace,
    group_loop rawLibraries [] = (Returns m, trace)
    /\ Map_get m (Library.name lib) = Some lib0
    /\ Library.versions lib0 = versions_named (Library.name lib) rawLibraries
    /\ lib = sort_versions lib0.
Proof.
  intros Hin.
  destruct (group_loop_spec rawLibraries [] grouped_ok_empty)
    as (m & Hrun & Hok & _ & Hvers).
  unfold uniqueLibraries, value_or, groupLibraries in Hin.
  rewrite Hrun in Hin. cbn [bind ret fst] in Hin.
  apply in_map_iff in Hin as (lib0 & <- & Hin).
  apply in_map_iff in Hin as ([k lib1] & <- & Hin). cbn [snd].
  destruct (proj2 Hok k lib1 Hin) as [Hname _].
  assert (Map_get m k = Some lib1) as Hget
    by (apply In_Map_get; [apply Hok|exact Hin]).
  exists m, lib1. eexists. split; [exact Hrun|].
  cbn [sort_versions Library.set_versions Library.name]. rewrite Hname.
  split; [exact Hget|]. split; [|reflexivity].
  now rewrite (Hvers k lib1 Hget).
Qed.

(** X9. The version sort is stable: in the list of a library, the version
    records whose versions compare equal (such as [1.0] and [1.0.0]) stand
    in the order in which the index has their entries. *)
Theorem version_sort_is_stable (rawLibraries : list (option RawEntry.t))
  (lib : Library.t) (w : string) :
  In lib (uniqueLibraries rawLibraries) ->
  filter (same_version w) (Library.versions lib)
  = filter (same_version w) (versions_named (Library.name lib) rawLibraries).
Proof.
  intros Hin.
  destruct (uniqueLibraries_In rawLibraries lib Hin)
    as (m & lib0 & trace & _ & _ & Hvers & ->).
  cbn [sort_versions Library.set_versions Library.versions Library.name] in *.
  rewrite <- Hvers. apply Array_sort_stable. apply same_version_equal.
Qed.

Lemma version_sort_is_stable_witness :
  let index :=
    [sample_entry "Foo" "1.0" "https://github.com/a/foo";
     sample_entry "Foo" "2.0" "https://github.com/a/foo";
     sample_entry "Foo" "1.0.0-rc1" "https://github.com/a/foo"] in
  map VersionInfo.version
    (filter (same_version "1")
       (Library.versions (hd no_library (uniqueLibraries index))))
  = ["1.0"; "1.0.0-rc1"].
Proof.
  intros index.
  rewrite (version_sort_is_stable index (hd no_library (uniqueLibraries index)) "1").
  - reflexivity.
  - left. reflexivity.
Defined.

(** A library's properties other than its versions. *)
Lemma group_loop_first (rawLibraries : list (option RawEntry.t)) :
  forall m m' trace,
    group_loop rawLibraries m = (Returns m', trace) ->
    forall k lib',
      Map_get m' k = Some lib' ->
      match Map_get m k with
      | Some lib0 => Library.set_versions lib' [] = Library.set_versions lib0 []
      | None =>
          exists entry,
            first_entry k rawLibraries = Some entry
            /\ Library.set_versions lib' []
               = Library.set_versions (new_library entry k) []
      end.
Proof.
  induction rawLibraries as [|lib rest IH]; intros m m' trace.
  - cbn [group_loop ret]. intros [= <- _] k lib' Hget. now rewrite Hget.
  - destruct (usable_name lib) as [n|] eqn:Hname.
    + destruct (usable_name_entry lib n Hname) as (entry & ->).
      rewrite (group_loop_usable entry n rest m Hname).
      cbn [first_entry]. rewrite Hname.
      destruct (Map_has m n) eqn:Hhas; cbn [negb]; intros Hrun k lib' Hget.
      * specialize (IH _ _ _ Hrun k lib' Hget).
        rewrite Map_get_mutate in IH.
        destruct (String.eqb_spec n k) as [->|Hne].
        -- destruct (Map_get m k) as [lib0|] eqn:Hm; cbn [option_map] in IH.
           ++ exact IH.
           ++ apply Map_get_None in Hm. apply Map_has_keys in Hhas. tauto.
        -- exact IH.
      * rewrite (Map_set_new m n _ Hhas) in Hrun.
        specialize (IH _ _ _ Hrun k lib' Hget).
        rewrite Map_get_app_new in IH.
        destruct (Map_get m k) as [lib0|] eqn:Hm; [exact IH|].
        destruct (String.eqb_spec n k) as [->|Hne]; [|exact IH].
        exists entry. split; [reflexivity|exact IH].
    + rewrite (group_loop_skip lib rest m Hname). cbn [emit bind].
      destruct (group_loop rest m) as [[m1|e|] t] eqn:Hrun; try discriminate.
      intros [= <- _] k lib' Hget.
      specialize (IH _ _ _ Hrun k lib' Hget).
      destruct (Map_get m k) as [lib0|]; [exact IH|].
      destruct IH as (entry & Hfirst & Hsame). exists entry.
      split; [|exact Hsame]. cbn [first_entry].
      destruct lib; [rewrite Hname|]; exact Hfirst.
Qed.

(** A library after grouping, rebuilt from the index. *)
Lemma uniqueLibraries_built (rawLibraries : list (option RawEntry.t))
  (lib : Library.t) :
  In lib (uniqueLibraries rawLibraries) ->
  exists entry,
    first_entry (Library.name lib) rawLibraries = Some entry
    /\ lib
       = Library.set_versions (new_library entry (Library.name lib))
           (Array_sort compare_versions
              (versions_named (Library.name lib) rawLibraries)).
Proof.
  intros Hin.
  destruct (uniqueLibraries_In rawLibraries lib Hin)
    as (m & lib0 & trace & Hrun & Hget & Hvers & Hlib).
  destruct (group_loop_first rawLibraries [] m trace Hrun _ lib0 Hget)
    as (entry & Hfirst & Hsame).
  exists entry. split; [exact Hfirst|].
  rewrite Hlib at 1. unfold sort_versions. rewrite Hvers.
  destruct lib0. cbn [Library.set_versions Library.name Library.author
    Library.maintainer Library.sentence Library.paragraph Library.website
    Library.category Library.architectures Library.types Library.repository
    Library._repoInfo Library.versions Library.stars Library.isArchived
    Library.pushedAt Library.openIssues Library.githubDescription
    Library.license Library.topics] in *.
  injection Hsame as -> -> -> -> -> -> -> -> -> -> -> -> -> -> -> -> -> ->.
  reflexivity.
Qed.

(** X10. A library after grouping is the object built from the first entry
    of the index that bears its name (the descriptive properties of that
    entry, and the repository parsed from its website or else from its
    repository URL), with the version records of all the entries of the
    name, sorted; later entries of the name contribute their version record
    and nothing else. *)
Theorem grouping_first_entry_wins (rawLibraries : list (option RawEntry.t))
  (lib : Library.t) :
  In lib (uniqueLibraries rawLibraries) ->
  exists entry,
    first_entry (Library.name lib) rawLibraries = Some entry
    /\ lib
       = Library.set_versions (new_library entry (Library.name lib))
           (Array_sort compare_versions
              (versions_named (Library.name lib) rawLibraries)).
Proof. apply uniqueLibraries_built. Qed.

Lemma grouping_first_entry_wins_witness :
  let index :=
    [sample_entry "Foo" "1.0.0" "https://example.org/foo";
     sample_entry "Foo" "2.0.0" "https://github.com/a/foo"] in
  Library.website (hd no_library (uniqueLibraries index))
  = val "https://example.org/foo"
  /\ Library.repository (hd no_library (uniqueLibraries index)) = null.
Proof.
  intros index.
  destruct (grouping_first_entry_wins index
              (hd no_library (uniqueLibraries index)))
    as (entry & Hfirst & ->).
  - left. reflexivity.
  - injection Hfirst as <-. split; reflexivity.
Defined.

(** ** processInBatches, batch by batch *)

Lemma Promise_all_trace {B : Type} (tasks : list (M B)) :
  snd (Promise_all tasks) = flat_map snd tasks.
Proof.
  induction tasks as [|[r t] tasks IH]; [reflexivity|].
  cbn [Promise_all flat_map]. destruct (Promise_all tasks) as [rs t'].
  cbn [snd] in *. now rewrite IH.
Qed.

Lemma Promise_all_rejects {B : Type} (tasks : list (M B)) :
  (exists task e, In task tasks /\ fst task = Throws e) ->
  exists task e,
    In task tasks /\ fst task = Throws e
    /\ fst (Promise_all tasks) = Throws e.
Proof.
  induction tasks as [|[r t] tasks IH]; intros (task & e & Hin & He);
    [destruct Hin|].
  cbn [Promise_all]. destruct (Promise_all tasks) as [rs t'] eqn:Hall.
  destruct r as [b|e0|].
  - destruct Hin as [<-|Hin]; [discriminate He|].
    destruct (IH (ex_intro _ task (ex_intro _ e (conj Hin He))))
      as (task' & e' & Hin' & He' & Hrs).
    cbn [fst] in Hrs. subst rs. exists task', e'. cbn [In fst]. tauto.
  - exists (Throws e0, t), e0. cbn [In fst]. tauto.
  - destruct Hin as [<-|Hin]; [discriminate He|].
    destruct (IH (ex_intro _ task (ex_intro _ e (conj Hin He))))
      as (task' & e' & Hin' & He' & Hrs).
    cbn [fst] in Hrs. subst rs. exists task', e'. cbn [In fst]. tauto.
Qed.

(** X11. With a batch size of 0 and at least one item the loop never ends:
    however many iterations it is given, it has not returned, it has called
    the processor on no item, and it has logged the same progress line at
    every iteration. *)
Theorem processInBatches_zero_batch {A B : Type} (items : list A)
  (processor : A -> M B) (fuel : nat) :
  items <> [] ->
  processInBatches_loop fuel items 0 processor 0 []
  = (OutOfFuel,
     repeat (Console_log ("Processed 0/" ++ string_of_nat (List.length items)
                          ++ " libraries...")%string) fuel).
Proof.
  intros Hitems.
  assert ((0 <? List.length items)%nat = true) as Hlt.
  { apply Nat.ltb_lt. destruct items; [congruence|cbn; lia]. }
  induction fuel as [|fuel IH]; cbn [processInBatches_loop]; rewrite Hlt.
  - reflexivity.
  - unfold slice. cbn [Nat.add Nat.sub firstn map Promise_all ret bind app
                       Nat.min Nat.modulo Nat.divmod Nat.eqb orb emit snd fst].
    rewrite IH. reflexivity.
Qed.

Lemma processInBatches_zero_batch_witness :
  processInBatches_loop 2 ["a"; "b"] 0 (fun s : string => ret s) 0 []
  = (OutOfFuel,
     [Console_log "Processed 0/2 libraries...";
      Console_log "Processed 0/2 libraries..."]).
Proof.
  apply (processInBatches_zero_batch ["a"; "b"] (fun s : string => ret s) 2).
  discriminate.
Defined.

(** X12. When the processor rejects for an item of the first batch, the
    whole call rejects with the error of such an item, and every effect of
    the call is an effect of an item of that batch: no item of a later batch
    is processed. *)
Theorem processInBatches_rejects {A B : Type} (items : list A)
  (batchSize : nat) (processor : A -> M B) :
  (exists a e, In a (firstn batchSize items) /\ fst (processor a) = Throws e) ->
  exists a e,
    In a (firstn batchSize items) /\ fst (processor a) = Throws e
    /\ fst (processInBatches items batchSize processor) = Throws e
    /\ forall effect,
         In effect (snd (processInBatches items batchSize processor)) ->
         exists a',
           In a' (firstn batchSize items) /\ In effect (snd (processor a')).
Proof.
  intros (a & e & Hin & He).
  assert ((0 <? List.length items)%nat = true) as Hlt.
  { apply Nat.ltb_lt. destruct batchSize, items; cbn in Hin |- *;
      try destruct Hin; lia. }
  destruct (Promise_all_rejects (map processor (firstn batchSize items)))
    as (task & e' & Htask & He' & Hall).
  { exists (processor a), e. split; [now apply in_map|exact He]. }
  apply in_map_iff in Htask as (a' & <- & Hin').
  exists a', e'. split; [exact Hin'|]. split; [exact He'|].
  unfold processInBatches. destruct items as [|x items]; [discriminate Hlt|].
  cbn [List.length processInBatches_loop] in Hlt |- *. rewrite Hlt.
  unfold slice.
  cbn [Nat.add]. rewrite Nat.sub_0_r. cbn [skipn].
  pose proof (Promise_all_trace (map processor (firstn batchSize (x :: items))))
    as Htrace.
  destruct (Promise_all _) as [r t]. cbn [fst snd] in Hall, Htrace. subst r t.
  cbn [bind fst snd]. split; [reflexivity|].
  intros effect Heffect. apply in_flat_map in Heffect as (task & Htask & Heffect).
  apply in_map_iff in Htask as (a0 & <- & Ha0). now exists a0.
Qed.

Lemma processInBatches_rejects_witness :
  let processor := fun n : nat =>
    if (n =? 2)%nat then (Throws (val (mkError "Error" "two")), [Invoked n])
    else (Returns n, [Invoked n]) in
  exists a e,
    In a (firstn 3 [1; 2; 3; 4]%nat) /\ fst (processor a) = Throws e
    /\ fst (processInBatches [1; 2; 3; 4]%nat 3 processor) = Throws e
    /\ ~ In (Invoked 4) (snd (processInBatches [1; 2; 3; 4]%nat 3 processor)).
Proof.
  intros processor.
  destruct (processInBatches_rejects [1; 2; 3; 4]%nat 3 processor)
    as (a & e & Hin & He & Hrejects & Heffects).
  - exists 2%nat, (val (mkError "Error" "two")). split; [|reflexivity].
    right. left. reflexivity.
  - exists a, e. split; [exact Hin|]. split; [exact He|].
    split; [exact Hrejects|].
    intros Hfour. destruct (Heffects _ Hfour) as (a' & Ha' & Heffect).
    destruct Ha' as [<-|[<-|[<-|[]]]]; cbn in Heffect;
      destruct Heffect as [Heq|[]]; discriminate Heq.
Defined.

Section BatchEffects.

Context {A B : Type}.
Variable processor : A -> M B.

(** The processor resolves, whatever the item. *)
Hypothesis processor_returns : forall a, exists b, fst (processor a) = Returns b.

Lemma Promise_all_returns (batch : list A) :
  exists bs, fst (Promise_all (map processor batch)) = Returns bs.
Proof.
  induction batch as [|a batch IH]; [now exists []|].
  cbn [map Promise_all]. destruct (processor_returns a) as (b & Hb).
  destruct (processor a) as [r t]. cbn [fst] in Hb. subst r.
  destruct IH as (bs & Hbs).
  destruct (Promise_all (map processor batch)) as [rs t']. cbn [fst] in Hbs.
  subst rs. now exists (b :: bs).
Qed.

Lemma requests_of_batch (batch : list A) :
  requests (flat_map snd (map processor batch))
  = flat_map (fun a => requests (snd (processor a))) batch.
Proof.
  induction batch as [|a batch IH]; [reflexivity|].
  cbn [map flat_map]. now rewrite requests_app, IH.
Qed.

Lemma processInBatches_loop_requests (items : list A) (batchSize : nat) :
  (0 < batchSize)%nat ->
  forall fuel i results,
    (List.length items - i <= fuel)%nat ->
    requests (snd (processInBatches_loop fuel items batchSize processor i results))
    = flat_map (fun a => requests (snd (processor a))) (skipn i items).
Proof.
  intros Hsize. induction fuel as [|fuel IH]; intros i results Hfuel;
    cbn [processInBatches_loop];
    destruct (Nat.ltb_spec i (List.length items)) as [Hlt|Hge]; try lia.
  - now rewrite skipn_all2.
  - destruct (Promise_all_returns (slice items i (i + batchSize))) as (bs & Hbs).
    pose proof (Promise_all_trace (map processor (slice items i (i + batchSize))))
      as Htrace.
    destruct (Promise_all _) as [r t]. cbn [fst snd] in Hbs, Htrace. subst r t.
    cbn [bind].
    specialize (IH (i + batchSize)%nat (results ++ bs) ltac:(lia)).
    destruct (processInBatches_loop fuel items batchSize processor _ _)
      as [r t3]. cbn [snd] in IH.
    assert (forall (log : M unit),
              requests (snd log) = [] -> fst log = Returns tt ->
              requests (snd (let (r0, t1) := bind log (fun _ => (r, t3)) in
                             (r0, flat_map snd (map processor
                                (slice items i (i + batchSize))) ++ t1)))
              = flat_map (fun a => requests (snd (processor a))) (skipn i items))
      as Hlog.
    { intros [r0 t0] Ht0 Hr0. cbn [fst snd] in Ht0, Hr0. subst r0.
      cbn [bind snd]. rewrite !requests_app, Ht0, IH. cbn [app].
      unfold slice. replace (i + batchSize - i)%nat with batchSize by lia.
      transitivity
        (flat_map (fun a => requests (snd (processor a)))
           (firstn batchSize (skipn i items) ++ skipn batchSize (skipn i items)));
        [|now rewrite firstn_skipn].
      rewrite flat_map_app, skipn_skipn, (Nat.add_comm batchSize i). f_equal.
      apply requests_of_batch. }
    match goal with |- context [if ?c then _ else _] => destruct c end;
      now apply Hlog.
  - now rewrite skipn_all2.
Qed.

(** The requests of a batched run are those of the items (listed item by
    item, as [Promise_all] lists the effects of a batch). *)
Lemma processInBatches_requests (items : list A) (batchSize : nat) :
  (0 < batchSize)%nat ->
  requests (snd (processInBatches items batchSize processor))
  = flat_map (fun a => requests (snd (processor a))) items.
Proof.
  intros Hsize. unfold processInBatches.
  now rewrite (processInBatches_loop_requests items batchSize Hsize) by lia.
Qed.

End BatchEffects.

(** ** The processor and the requests of a run *)

Lemma processor_returns (remote : Remote) (lib : Library.t) :
  exists lib', fst (processor remote lib) = Returns lib'.
Proof. eexists. apply processor_resolves. Qed.

Lemma processed_alone_listed (remote : Remote) (lib : Library.t) :
  as_listed (processed_alone remote lib) = as_listed lib.
Proof.
  destruct (processed_alone_cases remote lib)
    as [[_ ->]|[(info & _ & _ & ->)|(info & data & _ & _ & ->)]]; reflexivity.
Qed.

Lemma processed_alone_repoInfo (remote : Remote) (lib : Library.t) :
  Library._repoInfo (processed_alone remote lib) = None.
Proof.
  destruct (processed_alone_cases remote lib)
    as [[_ ->]|[(info & _ & _ & ->)|(info & data & _ & _ & ->)]]; reflexivity.
Qed.

(** X13. The processor resolves for every library and every endpoint. It
    changes none of the properties that come from the index (name,
    descriptive properties, repository, versions) and always removes
    [_repoInfo]; for a library without a repository it issues no request,
    writes one warning and returns the library otherwise unchanged. *)
Theorem processor_keeps_index_properties (remote : Remote) (lib : Library.t) :
  exists lib' trace,
    processor remote lib = (Returns lib', trace)
    /\ as_listed lib' = as_listed lib
    /\ Library._repoInfo lib' = None
    /\ (Library._repoInfo lib = None ->
        lib' = Library.delete_repoInfo lib
        /\ trace
           = [Console_warn ("::warning::[Skipping] No GitHub URL for library: "
                            ++ Library.name lib)%string]).
Proof.
  pose proof (processor_resolves remote lib) as Hrun.
  destruct (processor remote lib) as [r trace] eqn:Hproc. cbn [fst] in Hrun.
  subst r. exists (processed_alone remote lib), trace.
  split; [reflexivity|]. split; [apply processed_alone_listed|].
  split; [apply processed_alone_repoInfo|].
  intros Hnone. unfold processed_alone, value_or. unfold processor in *.
  rewrite Hnone in *. cbn [bind emit ret fst snd app] in *.
  injection Hproc as _ <-. split; reflexivity.
Qed.

Lemma requests_of_warnings (n : nat) : requests (repeat skip_warning n) = [].
Proof. induction n as [|n IH]; [reflexivity|exact IH]. Qed.

(** The requests for one library: to its repository, between one and
    [MAX_RETRIES + 1] of them; none without a repository. *)
Lemma requests_for_cases (remote : Remote) (lib : Library.t) :
  match Library._repoInfo lib with
  | Some info =>
      exists k, (1 <= k <= S MAX_RETRIES)%nat
        /\ requests_for remote lib = repeat (apiUrl_of info) k
  | None => requests_for remote lib = []
  end.
Proof.
  unfold requests_for, processor.
  destruct (Library._repoInfo lib) as [info|]; [|reflexivity].
  destruct (fetchGitHubData_budget_from (remote (Library.name lib)) info
              MAX_RETRIES 0 ltac:(lia)) as [Hreq Hsl].
  destruct (fetchGitHubData_returns (remote (Library.name lib)) (Some info) 0)
    as (data & trace & Hfetch).
  rewrite Hfetch in *. cbn [snd] in Hreq, Hsl.
  exists (S (List.length (sleeps trace))). split; [lia|].
  rewrite <- Hreq. destruct data; cbn [bind ret snd]; now rewrite !app_nil_r.
Qed.

Lemma requests_for_length (remote : Remote) (libs : list Library.t) :
  (List.length (flat_map (requests_for remote) libs)
   <= S MAX_RETRIES * List.length libs)%nat.
Proof.
  induction libs as [|lib libs IH]; [cbn; lia|].
  cbn [flat_map List.length]. rewrite length_app.
  pose proof (requests_for_cases remote lib) as H.
  destruct (Library._repoInfo lib) as [info|].
  - destruct H as (k & Hk & ->). rewrite repeat_length. lia.
  - rewrite H. cbn [List.length]. lia.
Qed.

(** The requests of steps 2 to 5 are those of the enrichment. *)
Lemma generateRegistry_trace_requests (localeCompare : string -> string -> Z)
  (remote : Remote) (rawLibraries : list (option RawEntry.t)) :
  requests (snd (generateRegistry localeCompare remote rawLibraries))
  = flat_map (requests_for remote) (uniqueLibraries rawLibraries).
Proof.
  destruct (groupLibraries_spec rawLibraries) as (m & Hrun & _).
  pose proof (processInBatches_requests (processor remote)
                (processor_returns remote) (uniqueLibraries rawLibraries)
                CONCURRENT_REQUESTS ltac:(unfold CONCURRENT_REQUESTS; lia))
    as Hbatches.
  destruct (enrichment_stage remote rawLibraries) as (_ & Hres).
  unfold generateRegistry.
  assert (uniqueLibraries rawLibraries = map sort_versions (Map_values m)) as Hu
    by (unfold uniqueLibraries, value_or; now rewrite Hrun).
  rewrite Hrun, <- Hu. cbn [bind emit].
  destruct (processInBatches _ _ _) as [r t]. cbn [fst snd] in Hres, Hbatches.
  subst r. cbn [bind emit ret snd app].
  cbn [requests flat_map app].
  change (flat_map _ (?a ++ ?b)) with (requests (a ++ b)).
  rewrite requests_app, requests_of_warnings. cbn [app requests flat_map].
  change (flat_map _ (?a ++ ?b)) with (requests (a ++ b)).
  rewrite requests_app. cbn [requests flat_map app]. rewrite app_nil_r.
  exact Hbatches.
Qed.

(** X14. The requests of a run (steps 2 to 5) are those of the libraries
    after grouping, in an order that the batches decide: for a library with
    a repository, between one and four requests to the URL of that
    repository; for a library without, none. A run therefore issues at most
    four requests per library. *)
Theorem generateRegistry_requests (localeCompare : string -> string -> Z)
  (remote : Remote) (rawLibraries : list (option RawEntry.t)) :
  let trace := snd (generateRegistry localeCompare remote rawLibraries) in
  Permutation (requests trace)
    (flat_map (requests_for remote) (uniqueLibraries rawLibraries))
  /\ (forall lib,
        match Library._repoInfo lib with
        | Some info =>
            exists k, (1 <= k <= S MAX_RETRIES)%nat
              /\ requests_for remote lib = repeat (apiUrl_of info) k
        | None => requests_for remote lib = []
        end)
  /\ (List.length (requests trace)
      <= S MAX_RETRIES * List.length (uniqueLibraries rawLibraries))%nat.
Proof.
  cbv zeta. split; [now rewrite generateRegistry_trace_requests|].
  split; [apply requests_for_cases|].
  rewrite generateRegistry_trace_requests. apply requests_for_length.
Qed.

(** ** The shape of the final registry *)

(** Filtering libraries keeps their names distinct. *)
Lemma distinct_names_filter (keep : Library.t -> bool) (libs : list Library.t) :
  NoDup (map Library.name libs) ->
  NoDup (map Library.name (filter keep libs)).
Proof.
  induction libs as [|lib libs IH]; cbn [map filter]; [trivial|].
  rewrite NoDup_cons_iff. intros [Hfresh Hrest].
  destruct (keep lib); [|now apply IH].
  cbn [map]. apply NoDup_cons_iff. split; [|now apply IH].
  rewrite in_map_iff. intros (other & Hname & Hin).
  apply filter_In in Hin as [Hin _]. apply Hfresh.
  rewrite <- Hname. now apply in_map.
Qed.

(** X15. The final registry has no two libraries of the same name. Each of
    its libraries has lost [_repoInfo], has at least one version, and has
    for repository the canonical URL of the repository parsed from the
    website, or else from the repository URL, of the first entry of the
    index that bears its name. *)
Theorem finalRegistry_shape (localeCompare : string -> string -> Z)
  (remote : Remote) (rawLibraries : list (option RawEntry.t)) :
  exists final trace,
    generateRegistry localeCompare remote rawLibraries = (Returns final, trace)
    /\ NoDup (map Library.name final)
    /\ (List.length final <= List.length (uniqueLibraries rawLibraries))%nat
    /\ forall lib,
         In lib final ->
         Library._repoInfo lib = None
         /\ Library.versions lib <> []
         /\ exists entry info,
              first_entry (Library.name lib) rawLibraries = Some entry
              /\ or_else (parseGitHubUrl (RawEntry.website entry))
                         (parseGitHubUrl (RawEntry.repository entry))
                 = Some info
              /\ Library.repository lib
                 = val ("https://github.com/" ++ repo_path info)%string.
Proof.
  destruct (generateRegistry_spec localeCompare remote rawLibraries)
    as (trace & Hrun).
  eexists. exists trace. split; [exact Hrun|].
  destruct (uniqueLibraries_spec rawLibraries) as (_ & Hnodup & _).
  assert (map Library.name (enrichedLibraries remote rawLibraries)
          = map Library.name (uniqueLibraries rawLibraries)) as Hnames.
  { unfold enrichedLibraries. rewrite map_map. apply map_ext.
    intros lib. apply processed_alone_name. }
  split; [|split].
  - unfold finalRegistry.
    apply (Permutation_NoDup
             (l := map Library.name
                     (filter is_active (enrichedLibraries remote rawLibraries)))).
    + apply Permutation_map, Permutation_sym, Array_sort_perm.
    + rewrite <- Hnames in Hnodup. now apply distinct_names_filter.
  - unfold finalRegistry. rewrite Array_sort_length.
    etransitivity; [apply filter_length_le|].
    unfold enrichedLibraries. now rewrite length_map.
  - intros lib Hin. apply finalRegistry_In in Hin as [Hin Hactive].
    apply enrichedLibraries_In in Hin as (lib0 & Hin0 & ->).
    split; [apply processed_alone_repoInfo|].
    pose proof (processed_alone_listed remote lib0) as Hlisted.
    unfold is_active in Hactive. apply andb_true_iff in Hactive as [Hrepo _].
    rewrite processed_alone_repository in Hrepo.
    rewrite processed_alone_name, processed_alone_repository.
    assert (Library.versions (processed_alone remote lib0) = Library.versions lib0)
      as -> by (now injection Hlisted).
    destruct (uniqueLibraries_built rawLibraries lib0 Hin0) as (entry & Hfirst & Hlib).
    split.
    + rewrite Hlib. cbn [Library.set_versions Library.versions]. intros Hnil.
      apply (f_equal (@List.length _)) in Hnil.
      rewrite Array_sort_length in Hnil.
      apply length_zero_iff_nil in Hnil. revert Hnil.
      apply versions_named_not_empty.
      destruct (groupLibraries_spec rawLibraries) as (m & Hrun' & Hok & _ & Hkeys & _).
      apply Hkeys. rewrite <- (uniqueLibraries_names m Hok).
      assert (uniqueLibraries rawLibraries = map sort_versions (Map_values m)) as <-
        by (unfold uniqueLibraries, value_or; now rewrite Hrun').
      now apply in_map.
    + exists entry. rewrite Hlib in Hrepo |- *.
      cbn [Library.set_versions Library.repository new_library] in Hrepo |- *.
      destruct (or_else _ _) as [info|]; [|discriminate Hrepo].
      exists info. repeat split. exact Hfirst.
Qed.

(** ** The whole run *)

Lemma fetch_index_delivers (x : IndexExchange) (data : IndexData) :
  delivers x data ->
  fetch_index x = (Returns data, [Request LIBRARY_INDEX_URL]).
Proof.
  intros (after_ms & response & Hans & Hin & Hok & Hbody).
  unfold fetch_index, fetchWithTimeout. rewrite Hans.
  apply Z.ltb_lt in Hin. rewrite Hin. cbn [bind emit ret fst snd app].
  rewrite Hok, Hbody. reflexivity.
Qed.

(** One attempt at the index issues one request, and either delivers the
    parsed body or throws an error. *)
Lemma fetch_index_cases (x : IndexExchange) :
  (exists data,
     delivers x data
     /\ fetch_index x = (Returns data, [Request LIBRARY_INDEX_URL]))
  \/ ((forall data, ~ delivers x data)
      /\ exists e, fetch_index x = (Throws (val e), [Request LIBRARY_INDEX_URL])).
Proof.
  unfold fetch_index, fetchWithTimeout.
  destruct (index_answer x) as [after_ms response|after_ms e|] eqn:Hans.
  - destruct (Z.ltb_spec after_ms FETCH_TIMEOUT_MS) as [Hin|Hlate];
      cbn [bind emit throw ret fst snd app].
    + destruct (Response.ok response) eqn:Hok; cbn [negb].
      * destruct (index_body x) as [e|data] eqn:Hbody.
        -- right. split; [|now eexists].
           intros data (a & r & Ha & _ & _ & Hb). congruence.
        -- left. exists data. split; [|reflexivity].
           now exists after_ms, response.
      * right. split; [|now eexists].
        intros data (a & r & Ha & _ & Hr & _).
        rewrite Hans in Ha. injection Ha as <- <-. congruence.
    + right. split; [|now eexists].
      intros data (a & r & Ha & Hlt & _).
      rewrite Hans in Ha. injection Ha as <- <-. lia.
  - right. split; [intros data (a & r & Ha & _); congruence|].
    destruct (after_ms <? FETCH_TIMEOUT_MS); now eexists.
  - right. split; [intros data (a & r & Ha & _); congruence|]. now eexists.
Qed.

Section RetriedRequest.

Context {A : Type}.
Variable fn : nat -> M A.
Variable maxRetries : nat.
Variable context : string.
Variable url : string.

(** Each attempt issues one request and resolves or throws an error. *)
Hypothesis fn_cases :
  forall k,
    (exists a, fn k = (Returns a, [Request url]))
    \/ (exists e, fn k = (Throws (val e), [Request url])).

Let delay := fun attempt => Num (inject_Z (backoff_delay attempt)).

(** How the loop ends from [attempt] on: with the value of the first
    attempt that resolves, or with the error of the last attempt. *)
Lemma withRetry_loop_ends :
  forall remaining attempt lastError,
    (1 <= remaining)%nat -> (attempt + remaining = S maxRetries)%nat ->
    let run := withRetry_loop fn maxRetries context remaining attempt lastError in
    (exists k a,
       (attempt <= k <= maxRetries)%nat
       /\ fst (fn k) = Returns a
       /\ (forall j, (attempt <= j < k)%nat -> exists e, fst (fn j) = Throws (val e))
       /\ fst run = Returns a
       /\ requests (snd run) = repeat url (S (k - attempt))
       /\ sleeps (snd run) = map delay (seq attempt (k - attempt)))
    \/ (exists e,
          fst (fn maxRetries) = Throws (val e)
          /\ (forall j, (attempt <= j <= maxRetries)%nat ->
                exists e', fst (fn j) = Throws (val e'))
          /\ fst run = Throws (val e)
          /\ requests (snd run) = repeat url remaining
          /\ sleeps (snd run) = map delay (seq attempt (remaining - 1))).
Proof.
  induction remaining as [|remaining IH]; intros attempt lastError Hpos Hsum;
    [lia|].
  cbv zeta. cbn [withRetry_loop].
  destruct (fn_cases attempt) as [(a & Hfn)|(e & Hfn)]; rewrite Hfn.
  - left. exists attempt, a. rewrite Hfn, Nat.sub_diag.
    split; [lia|]. split; [reflexivity|]. split; [intros j Hj; lia|].
    repeat split.
  - destruct remaining as [|remaining].
    + assert (attempt = maxRetries) as -> by lia.
      rewrite Nat.ltb_irrefl. right. exists e. rewrite Hfn.
      split; [reflexivity|]. split.
      * intros j Hj. assert (j = maxRetries) as -> by lia.
        exists e. now rewrite Hfn.
      * repeat split.
    + assert ((attempt <? maxRetries)%nat = true) as ->
        by (apply Nat.ltb_lt; lia).
      specialize (IH (S attempt) (val e) ltac:(lia) ltac:(lia)).
      cbv zeta in IH.
      destruct (withRetry_loop fn maxRetries context (S remaining) (S attempt)
                  (val e)) as [r t].
      cbn [fst snd] in IH.
      cbn [emit_all emit sleep bind ret fst snd app requests sleeps flat_map].
      fold (requests t) (sleeps t).
      destruct IH as [(k & a & Hk & Hres & Hrej & Hr & Hreq & Hsl)
                     |(e' & Hlast & Hrej & Hr & Hreq & Hsl)].
      * left. exists k, a. split; [lia|]. split; [exact Hres|]. split.
        { intros j Hj. destruct (Nat.eq_dec j attempt) as [->|Hne].
          - exists e. now rewrite Hfn.
          - apply Hrej. lia. }
        split; [exact Hr|]. rewrite Hreq, Hsl.
        replace (k - attempt)%nat with (S (k - S attempt)) by lia.
        split; reflexivity.
      * right. exists e'. split; [exact Hlast|]. split.
        { intros j Hj. destruct (Nat.eq_dec j attempt) as [->|Hne].
          - exists e. now rewrite Hfn.
          - apply Hrej. lia. }
        split; [exact Hr|]. rewrite Hreq, Hsl.
        replace (S (S remaining) - 1)%nat with (S (S remaining - 1)) by lia.
        split; reflexivity.
Qed.

End RetriedRequest.

Section WholeRunFacts.

Variable localeCompare : string -> string -> Z.
Variable OUTPUT_FILE : string.
Variable GITHUB_TOKEN : js string.
Variable arduino : nat -> IndexExchange.
Variable remote : Remote.
Variable clock : string.

Let fetching := fun attempt => fetch_index (arduino attempt).

Lemma fetching_cases (k : nat) :
  (exists data, fetching k = (Returns data, [Request LIBRARY_INDEX_URL]))
  \/ (exists e, fetching k = (Throws (val e), [Request LIBRARY_INDEX_URL])).
Proof.
  unfold fetching.
  destruct (fetch_index_cases (arduino k)) as [(data & _ & H)|(_ & e & H)];
    [left|right]; eexists; exact H.
Qed.

(** The index fetch with its retries: the body of the first attempt that
    delivers, or the error of the third attempt. *)
Lemma index_fetch_ends :
  let run := withRetry fetching MAX_RETRIES "[Arduino API]" in
  (exists k data,
     (1 <= k <= MAX_RETRIES)%nat
     /\ undelivered_before arduino k
     /\ delivers (arduino k) data
     /\ fst run = Returns data
     /\ requests (snd run) = repeat LIBRARY_INDEX_URL k
     /\ sleeps (snd run) = backoff_sleeps (k - 1))
  \/ (exists e,
        undelivered_before arduino (S MAX_RETRIES)
        /\ fst (fetch_index (arduino MAX_RETRIES)) = Throws (val e)
        /\ fst run = Throws (val e)
        /\ requests (snd run) = repeat LIBRARY_INDEX_URL MAX_RETRIES
        /\ sleeps (snd run) = backoff_sleeps (MAX_RETRIES - 1)).
Proof.
  assert (forall j e, fst (fetching j) = Throws (val e) ->
            forall data, ~ delivers (arduino j) data) as Hthrown.
  { intros j e He data Hd. unfold fetching in He.
    rewrite (fetch_index_delivers _ _ Hd) in He. discriminate He. }
  assert (forall j data, fst (fetching j) = Returns data ->
            delivers (arduino j) data) as Hreturned.
  { intros j data Hd. unfold fetching in Hd.
    destruct (fetch_index_cases (arduino j)) as [(d & Hdel & H)|(_ & e & H)];
      rewrite H in Hd; [|discriminate Hd].
    now injection Hd as <-. }
  cbv zeta. unfold withRetry.
  destruct (withRetry_loop_ends fetching MAX_RETRIES "[Arduino API]"
              LIBRARY_INDEX_URL fetching_cases MAX_RETRIES 1 undefined
              ltac:(unfold MAX_RETRIES; lia) ltac:(lia))
    as [(k & data & Hk & Hres & Hrej & Hr & Hreq & Hsl)
       |(e & Hlast & Hrej & Hr & Hreq & Hsl)].
  - left. exists k, data. split; [exact Hk|]. split.
    { intros j d Hj. destruct (Hrej j Hj) as (e & He). now apply (Hthrown j e). }
    split; [now apply Hreturned|]. split; [exact Hr|].
    replace (S (k - 1)) with k in Hreq by lia. split; [exact Hreq|exact Hsl].
  - right. exists e. split.
    { intros j d Hj. destruct (Hrej j ltac:(lia)) as (e' & He').
      now apply (Hthrown j e'). }
    split; [exact Hlast|]. split; [exact Hr|]. split; [exact Hreq|exact Hsl].
Qed.


Lemma delivers_unique (x : IndexExchange) (data data' : IndexData) :
  delivers x data -> delivers x data' -> data = data'.
Proof.
  intros (_ & _ & _ & _ & _ & H) (_ & _ & _ & _ & _ & H'). congruence.
Qed.

(** The first attempt that delivers is the only one. *)
Lemma first_delivery_unique (k k' : nat) (data data' : IndexData) :
  undelivered_before arduino k -> delivers (arduino k) data ->
  undelivered_before arduino k' -> delivers (arduino k') data' ->
  (1 <= k)%nat -> (1 <= k')%nat ->
  k = k' /\ data = data'.
Proof.
  intros Hbefore Hk Hbefore' Hk' H1 H1'.
  assert (k = k') as <-.
  { destruct (Nat.lt_trichotomy k k') as [Hlt|[Heq|Hgt]]; [|exact Heq|].
    - now destruct (Hbefore' k data ltac:(lia)).
    - now destruct (Hbefore k' data' ltac:(lia)). }
  split; [reflexivity|]. exact (delivers_unique _ _ _ Hk Hk').
Qed.

(** The three ways the run reaches, or does not reach, the output. *)
Lemma build_output_ends :
  let run := build_output localeCompare arduino remote clock in
  (exists k rawLibraries,
     (1 <= k <= MAX_RETRIES)%nat
     /\ undelivered_before arduino k
     /\ delivers (arduino k) (IndexLibraries rawLibraries)
     /\ fst run
        = Returns
            (Registry.mk clock
               (List.length
                  (finalRegistry localeCompare
                     (enrichedLibraries remote rawLibraries)))
               (finalRegistry localeCompare
                  (enrichedLibraries remote rawLibraries)))
     /\ requests (snd run)
        = repeat LIBRARY_INDEX_URL k
          ++ flat_map (requests_for remote) (uniqueLibraries rawLibraries))
  \/ (exists k data,
        (1 <= k <= MAX_RETRIES)%nat
        /\ undelivered_before arduino k
        /\ delivers (arduino k) data
        /\ (forall rawLibraries, data <> IndexLibraries rawLibraries)
        /\ fst run = Throws (val invalid_index)
        /\ requests (snd run) = repeat LIBRARY_INDEX_URL k
        /\ sleeps (snd run) = backoff_sleeps (k - 1))
  \/ (exists e,
        undelivered_before arduino (S MAX_RETRIES)
        /\ fst (fetch_index (arduino MAX_RETRIES)) = Throws (val e)
        /\ fst run = Throws (val e)
        /\ requests (snd run) = repeat LIBRARY_INDEX_URL MAX_RETRIES
        /\ sleeps (snd run) = backoff_sleeps (MAX_RETRIES - 1)).
Proof.
  cbv zeta. unfold build_output. cbn [bind emit].
  destruct index_fetch_ends
    as [(k & data & Hk & Hbefore & Hdel & Hr & Hreq & Hsl)
       |(e & Hbefore & Hlast & Hr & Hreq & Hsl)];
    fold fetching;
    destruct (withRetry fetching MAX_RETRIES "[Arduino API]") as [r t];
    cbn [fst snd] in Hr, Hreq, Hsl; subst r; cbn [bind].
  - destruct data as [| |rawLibraries]; cbn [validate_index throw ret bind emit].
    + right. left. exists k, IndexFalsy. repeat (split; [assumption||discriminate|]).
      cbn [fst snd app requests sleeps flat_map].
      fold (requests (t ++ [])) (sleeps (t ++ [])).
      rewrite app_nil_r. split; [reflexivity|]. split; assumption.
    + right. left. exists k, IndexWithoutLibraries.
      repeat (split; [assumption||discriminate|]).
      cbn [fst snd app requests sleeps flat_map].
      fold (requests (t ++ [])) (sleeps (t ++ [])).
      rewrite app_nil_r. split; [reflexivity|]. split; assumption.
    + left. exists k, rawLibraries. repeat (split; [assumption|]).
      pose proof (generateRegistry_trace_requests localeCompare remote rawLibraries)
        as Hrequests.
      destruct (generateRegistry_spec localeCompare remote rawLibraries)
        as (trace & Hrun).
      rewrite Hrun in Hrequests |- *. cbn [snd] in Hrequests.
      cbn [bind ret fst snd app]. split; [reflexivity|].
      cbn [requests flat_map app].
      change (flat_map _ (?a ++ ?b)) with (requests (a ++ b)).
      rewrite app_nil_r, requests_app, Hreq. f_equal.
      cbn [requests flat_map app]. exact Hrequests.
  - right. right. exists e. split; [exact Hbefore|]. split; [exact Hlast|].
    cbn [fst snd app requests sleeps flat_map].
    fold (requests t) (sleeps t).
    split; [reflexivity|]. split; assumption.
Qed.

End WholeRunFacts.

Section ScriptFacts.

Variable localeCompare : string -> string -> Z.
Variable OUTPUT_FILE : string.
Variable GITHUB_TOKEN : js string.
Variable arduino : nat -> IndexExchange.
Variable remote : Remote.
Variable clock : string.

Let run := build_output localeCompare arduino remote clock.
Let process := script localeCompare OUTPUT_FILE GITHUB_TOKEN arduino remote clock.

Lemma startup_quiet :
  requests (startup GITHUB_TOKEN) = [] /\ sleeps (startup GITHUB_TOKEN) = [].
Proof. unfold startup. destruct (truthy_string GITHUB_TOKEN); split; reflexivity. Qed.

(** A run that reaches the output and a write that resolves. *)
Lemma script_written (output : Registry.t) (t : list Event) :
  run = (Returns output, t) ->
  process None
  = mkProcess Completes
      (startup GITHUB_TOKEN
       ++ t ++ [Console_log ("Successfully wrote registry to " ++ OUTPUT_FILE)%string])
      (Some output).
Proof.
  unfold run, process, script, generateRegistry_whole. now intros ->.
Qed.

(** A run that reaches the output and a write that rejects. *)
Lemma script_write_rejected (output : Registry.t) (t : list Event) (e : JsError) :
  run = (Returns output, t) ->
  process (Some e)
  = mkProcess (Exits 1)
      (startup GITHUB_TOKEN
       ++ t ++ [Console_error ("::error::FATAL: Registry generation failed. "
                               ++ err_message e)%string])
      None.
Proof.
  unfold run, process, script, generateRegistry_whole. now intros ->.
Qed.

(** A run that throws before the output. *)
Lemma script_thrown (e : JsError) (t : list Event) (disk : option JsError) :
  run = (Throws (val e), t) ->
  process disk
  = mkProcess (Exits 1)
      (startup GITHUB_TOKEN
       ++ t ++ [Console_error ("::error::FATAL: Registry generation failed. "
                               ++ err_message e)%string])
      None.
Proof.
  unfold run, process, script, generateRegistry_whole. now intros ->.
Qed.

Lemma script_requests (t last : list Event) :
  requests last = [] ->
  requests (startup GITHUB_TOKEN ++ t ++ last) = requests t.
Proof.
  intros Hlast. rewrite !requests_app, (proj1 startup_quiet), Hlast.
  now rewrite app_nil_r.
Qed.

Lemma script_sleeps (t last : list Event) :
  sleeps last = [] ->
  sleeps (startup GITHUB_TOKEN ++ t ++ last) = sleeps t.
Proof.
  intros Hlast. rewrite !sleeps_app, (proj2 startup_quiet), Hlast.
  now rewrite app_nil_r.
Qed.

(** The run, decided by the first attempt at the index that delivers. *)
Lemma run_delivered (k : nat) (data : IndexData) :
  (1 <= k <= MAX_RETRIES)%nat ->
  undelivered_before arduino k -> delivers (arduino k) data ->
  match data with
  | IndexLibraries rawLibraries =>
      fst run
      = Returns
          (Registry.mk clock
             (List.length
                (finalRegistry localeCompare (enrichedLibraries remote rawLibraries)))
             (finalRegistry localeCompare (enrichedLibraries remote rawLibraries)))
      /\ requests (snd run)
         = repeat LIBRARY_INDEX_URL k
           ++ flat_map (requests_for remote) (uniqueLibraries rawLibraries)
  | _ =>
      fst run = Throws (val invalid_index)
      /\ requests (snd run) = repeat LIBRARY_INDEX_URL k
      /\ sleeps (snd run) = backoff_sleeps (k - 1)
  end.
Proof.
  intros Hk Hbefore Hdel.
  destruct (build_output_ends localeCompare arduino remote clock)
    as [(k' & raw & Hk' & Hbefore' & Hdel' & Hres & Hreq)
       |[(k' & data' & Hk' & Hbefore' & Hdel' & Hbad & Hres & Hreq & Hsl)
        |(e & Hnone & _)]].
  - destruct (first_delivery_unique arduino k k' _ _ Hbefore Hdel Hbefore' Hdel')
      as [<- ->]; try lia.
    split; assumption.
  - destruct (first_delivery_unique arduino k k' _ _ Hbefore Hdel Hbefore' Hdel')
      as [<- <-]; try lia.
    destruct data as [| |raw]; [repeat split; assumption..|].
    now destruct (Hbad raw).
  - now destruct (Hnone k data ltac:(lia)).
Qed.

End ScriptFacts.

(** X16. When none of the three attempts at the index delivers it, the
    script exits with code 1 and writes no registry: it has issued three
    requests, all to the index, has slept 2 and 4 seconds between them, and
    its last line is the fatal error with the message of the third
    attempt's error. The metadata endpoint is never asked. *)
Theorem script_index_unreachable (localeCompare : string -> string -> Z)
  (OUTPUT_FILE : string) (GITHUB_TOKEN : js string)
  (arduino : nat -> IndexExchange) (remote : Remote) (clock : string)
  (disk : option JsError) :
  undelivered_before arduino (S MAX_RETRIES) ->
  let process :=
    script localeCompare OUTPUT_FILE GITHUB_TOKEN arduino remote clock disk in
  ending process = Exits 1
  /\ registry_file process = None
  /\ requests (output process) = repeat LIBRARY_INDEX_URL MAX_RETRIES
  /\ sleeps (output process) = [Num (inject_Z 2000); Num (inject_Z 4000)]
  /\ exists before e,
       fst (fetch_index (arduino MAX_RETRIES)) = Throws (val e)
       /\ output process
          = before
            ++ [Console_error ("::error::FATAL: Registry generation failed. "
                               ++ err_message e)%string].
Proof.
  intros Hnone.
  destruct (build_output_ends localeCompare arduino remote clock)
    as [(k & raw & Hk & _ & Hdel & _)
       |[(k & data & Hk & _ & Hdel & _)
        |(e & _ & Hlast & Hres & Hreq & Hsl)]].
  - now destruct (Hnone k (IndexLibraries raw) ltac:(lia)).
  - now destruct (Hnone k data ltac:(lia)).
  - destruct (build_output localeCompare arduino remote clock) as [r t] eqn:Hrun.
    cbn [fst snd] in Hres, Hreq, Hsl. subst r. cbv zeta.
    rewrite (script_thrown localeCompare OUTPUT_FILE GITHUB_TOKEN arduino remote
               clock e t disk Hrun).
    cbn [ending registry_file output]. split; [reflexivity|].
    split; [reflexivity|].
    rewrite script_requests, script_sleeps by reflexivity.
    split; [exact Hreq|]. split; [exact Hsl|].
    exists (startup GITHUB_TOKEN ++ t), e. split; [exact Hlast|].
    now rewrite app_assoc.
Qed.

Lemma script_index_unreachable_witness :
  let process :=
    script root_collation "registry.json" undefined (fun _ => index_down)
      sample_remote "2024-05-01T10:00:00.000Z" None in
  ending process = Exits 1
  /\ registry_file process = None
  /\ requests (output process) = repeat LIBRARY_INDEX_URL MAX_RETRIES
  /\ sleeps (output process) = [Num (inject_Z 2000); Num (inject_Z 4000)]
  /\ exists before e,
       fst (fetch_index index_down) = Throws (val e)
       /\ output process
          = before
            ++ [Console_error ("::error::FATAL: Registry generation failed. "
                               ++ err_message e)%string].
Proof.
  apply (script_index_unreachable root_collation "registry.json" undefined
           (fun _ => index_down) sample_remote "2024-05-01T10:00:00.000Z" None).
  intros j data _ (after_ms & response & Hans & _ & Hok & _).
  injection Hans as <- <-. discriminate Hok.
Defined.

(** X17. When the index is delivered, at the first attempt or after failed
    ones, with a [libraries] array, and the write resolves, the script ends
    without an exit code of its own and the file holds the registry: the
    clock's timestamp, the number of libraries, and the final registry of
    the enriched libraries. This holds whatever the metadata endpoint does:
    no failure of the enrichment stops the run. The requests are those to
    the index, then those of the libraries in an order that the batches
    decide. *)
Theorem script_writes_registry (localeCompare : string -> string -> Z)
  (OUTPUT_FILE : string) (GITHUB_TOKEN : js string)
  (arduino : nat -> IndexExchange) (remote : Remote) (clock : string)
  (k : nat) (rawLibraries : list (option RawEntry.t)) :
  (1 <= k <= MAX_RETRIES)%nat ->
  undelivered_before arduino k ->
  delivers (arduino k) (IndexLibraries rawLibraries) ->
  let process :=
    script localeCompare OUTPUT_FILE GITHUB_TOKEN arduino remote clock None in
  let final := finalRegistry localeCompare (enrichedLibraries remote rawLibraries) in
  ending process = Completes
  /\ registry_file process = Some (Registry.mk clock (List.length final) final)
  /\ (exists metadata,
        requests (output process) = repeat LIBRARY_INDEX_URL k ++ metadata
        /\ Permutation metadata
             (flat_map (requests_for remote) (uniqueLibraries rawLibraries)))
  /\ exists before,
       output process
       = before
         ++ [Console_log ("Successfully wrote registry to " ++ OUTPUT_FILE)%string].
Proof.
  intros Hk Hbefore Hdel.
  destruct (run_delivered localeCompare arduino remote clock k _ Hk Hbefore Hdel)
    as [Hres Hreq].
  destruct (build_output localeCompare arduino remote clock) as [r t] eqn:Hrun.
  cbn [fst snd] in Hres, Hreq. subst r. cbv zeta.
  rewrite (script_written localeCompare OUTPUT_FILE GITHUB_TOKEN arduino remote
             clock _ t Hrun).
  cbn [ending registry_file output]. split; [reflexivity|].
  split; [reflexivity|]. rewrite script_requests by reflexivity.
  split; [eexists; split; [exact Hreq|reflexivity]|].
  exists (startup GITHUB_TOKEN ++ t). now rewrite app_assoc.
Qed.

Lemma script_writes_registry_witness :
  let arduino := fun attempt =>
    if (attempt =? 1)%nat then index_down
    else index_delivering (IndexLibraries sample_index) in
  let process :=
    script root_collation "registry.json" (val "t0ken") arduino sample_remote
      "2024-05-01T10:00:00.000Z" None in
  ending process = Completes
  /\ option_map Registry.totalLibraries (registry_file process) = Some 1%nat
  /\ option_map (fun r => map Library.name (Registry.libraries r))
       (registry_file process) = Some ["a"]
  /\ exists metadata,
       requests (output process)
       = [LIBRARY_INDEX_URL; LIBRARY_INDEX_URL] ++ metadata
       /\ Permutation metadata
            ["https://api.github.com/repos/o/B";
             "https://api.github.com/repos/o/a"]%string.
Proof.
  intros arduino.
  destruct (script_writes_registry root_collation "registry.json" (val "t0ken")
              arduino sample_remote "2024-05-01T10:00:00.000Z" 2 sample_index)
    as (Hend & Hfile & (metadata & Hreq & Hperm) & _).
  - unfold MAX_RETRIES. lia.
  - intros j data Hj (after_ms & response & Hans & _ & Hok & _).
    assert (j = 1%nat) as -> by lia.
    injection Hans as <- <-. discriminate Hok.
  - exists 80, (Response.mk 200 "OK" null JsonNull). repeat split.
  - cbv zeta. rewrite Hend, Hfile. repeat split.
    exists metadata. split; [exact Hreq|exact Hperm].
Defined.

(** X18. When the first index body that is delivered is falsy or has no
    [libraries] array, the script exits with code 1 at once: the index is
    not asked again, the metadata endpoint is never asked, no registry is
    written, and the last line is the fatal error that names the format. *)
Theorem script_rejects_invalid_index (localeCompare : string -> string -> Z)
  (OUTPUT_FILE : string) (GITHUB_TOKEN : js string)
  (arduino : nat -> IndexExchange) (remote : Remote) (clock : string)
  (disk : option JsError) (k : nat) (data : IndexData) :
  (1 <= k <= MAX_RETRIES)%nat ->
  undelivered_before arduino k ->
  delivers (arduino k) data ->
  (forall rawLibraries, data <> IndexLibraries rawLibraries) ->
  let process :=
    script localeCompare OUTPUT_FILE GITHUB_TOKEN arduino remote clock disk in
  ending process = Exits 1
  /\ registry_file process = None
  /\ requests (output process) = repeat LIBRARY_INDEX_URL k
  /\ sleeps (output process) = backoff_sleeps (k - 1)
  /\ exists before,
       output process
       = before
         ++ [Console_error
               ("::error::FATAL: Registry generation failed. "
                ++ "Invalid Arduino library index format: 'libraries' array not found")%string].
Proof.
  intros Hk Hbefore Hdel Hbad.
  pose proof (run_delivered localeCompare arduino remote clock k _ Hk Hbefore Hdel)
    as Hrun.
  assert (fst (build_output localeCompare arduino remote clock)
          = Throws (val invalid_index)
          /\ requests (snd (build_output localeCompare arduino remote clock))
             = repeat LIBRARY_INDEX_URL k
          /\ sleeps (snd (build_output localeCompare arduino remote clock))
             = backoff_sleeps (k - 1)) as (Hres & Hreq & Hsl).
  { destruct data as [| |raw]; [exact Hrun..|]. now destruct (Hbad raw). }
  clear Hrun.
  destruct (build_output localeCompare arduino remote clock) as [r t] eqn:Hrun.
  cbn [fst snd] in Hres, Hreq, Hsl. subst r. cbv zeta.
  rewrite (script_thrown localeCompare OUTPUT_FILE GITHUB_TOKEN arduino remote
             clock invalid_index t disk Hrun).
  cbn [ending registry_file output]. split; [reflexivity|].
  split; [reflexivity|].
  rewrite script_requests, script_sleeps by reflexivity.
  split; [exact Hreq|]. split; [exact Hsl|].
  exists (startup GITHUB_TOKEN ++ t). now rewrite app_assoc.
Qed.

Lemma script_rejects_invalid_index_witness :
  let process :=
    script root_collation "registry.json" undefined
      (fun _ => index_delivering IndexWithoutLibraries) sample_remote
      "2024-05-01T10:00:00.000Z" None in
  ending process = Exits 1
  /\ registry_file process = None
  /\ requests (output process) = [LIBRARY_INDEX_URL]
  /\ sleeps (output process) = [].
Proof.
  destruct (script_rejects_invalid_index root_collation "registry.json" undefined
              (fun _ => index_delivering IndexWithoutLibraries) sample_remote
              "2024-05-01T10:00:00.000Z" None 1 IndexWithoutLibraries)
    as (Hend & Hfile & Hreq & Hsl & _).
  - unfold MAX_RETRIES. lia.
  - intros j data Hj. lia.
  - exists 80, (Response.mk 200 "OK" null JsonNull). repeat split.
  - discriminate.
  - repeat split; assumption.
Defined.

(** X19. When the write of the output file rejects, after a run that
    reached the output, the script exits with code 1 with the message of
    the write's error in its last line, and no registry is held by the
    file, although every request of the run has been issued: those to the
    index, then those of the libraries in an order that the batches
    decide. *)
Theorem script_write_failure (localeCompare : string -> string -> Z)
  (OUTPUT_FILE : string) (GITHUB_TOKEN : js string)
  (arduino : nat -> IndexExchange) (remote : Remote) (clock : string)
  (k : nat) (rawLibraries : list (option RawEntry.t)) (e : JsError) :
  (1 <= k <= MAX_RETRIES)%nat ->
  undelivered_before arduino k ->
  delivers (arduino k) (IndexLibraries rawLibraries) ->
  let process :=
    script localeCompare OUTPUT_FILE GITHUB_TOKEN arduino remote clock (Some e) in
  ending process = Exits 1
  /\ registry_file process = None
  /\ (exists metadata,
        requests (output process) = repeat LIBRARY_INDEX_URL k ++ metadata
        /\ Permutation metadata
             (flat_map (requests_for remote) (uniqueLibraries rawLibraries)))
  /\ exists before,
       output process
       = before
         ++ [Console_error ("::error::FATAL: Registry generation failed. "
                            ++ err_message e)%string].
Proof.
  intros Hk Hbefore Hdel.
  destruct (run_delivered localeCompare arduino remote clock k _ Hk Hbefore Hdel)
    as [Hres Hreq].
  destruct (build_output localeCompare arduino remote clock) as [r t] eqn:Hrun.
  cbn [fst snd] in Hres, Hreq. subst r. cbv zeta.
  rewrite (script_write_rejected localeCompare OUTPUT_FILE GITHUB_TOKEN arduino
             remote clock _ t e Hrun).
  cbn [ending registry_file output]. split; [reflexivity|].
  split; [reflexivity|]. rewrite script_requests by reflexivity.
  split; [eexists; split; [exact Hreq|reflexivity]|].
  exists (startup GITHUB_TOKEN ++ t). now rewrite app_assoc.
Qed.

Lemma script_write_failure_witness :
  let process :=
    script root_collation "registry.json" undefined
      (fun _ => index_delivering (IndexLibraries sample_index)) sample_remote
      "2024-05-01T10:00:00.000Z"
      (Some (mkError "Error" "EACCES: permission denied")) in
  ending process = Exits 1
  /\ registry_file process = None
  /\ List.length (requests (output process)) = 3%nat.
Proof.
  destruct (script_write_failure root_collation "registry.json" undefined
              (fun _ => index_delivering (IndexLibraries sample_index))
              sample_remote "2024-05-01T10:00:00.000Z" 1 sample_index
              (mkError "Error" "EACCES: permission denied"))
    as (Hend & Hfile & (metadata & Hreq & Hperm) & _).
  - unfold MAX_RETRIES. lia.
  - intros j data Hj. lia.
  - exists 80, (Response.mk 200 "OK" null JsonNull). repeat split.
  - cbv zeta. rewrite Hend, Hfile, Hreq. repeat split.
    rewrite length_app, (Permutation_length Hperm). reflexivity.
Defined.

(** X20. Provided every response body that is read arrives (the timer of
    [fetchWithTimeout] is cleared once the headers are in, and a read that
    never settles is outside [JsonBody] and [IndexBody]), the script ends in
    one of two ways, whatever the statuses, the transport errors, the
    timeouts before the headers, the unreadable bodies and the disk. Either
    it ends without an exit code of its own: then the write resolved, the
    file holds a registry whose [totalLibraries] is the number of its
    libraries and whose timestamp is the clock's, and the last line reports
    the write. Or it exits with code 1: then the file holds no registry and
    the last line is the fatal error. The warning about a missing token, if
    any, is the first line. *)
Theorem script_ends_one_of_two_ways (localeCompare : string -> string -> Z)
  (OUTPUT_FILE : string) (GITHUB_TOKEN : js string)
  (arduino : nat -> IndexExchange) (remote : Remote) (clock : string)
  (disk : option JsError) :
  let process :=
    script localeCompare OUTPUT_FILE GITHUB_TOKEN arduino remote clock disk in
  ((ending process = Completes
    /\ disk = None
    /\ exists registry before,
         registry_file process = Some registry
         /\ Registry.generatedAt registry = clock
         /\ Registry.totalLibraries registry
            = List.length (Registry.libraries registry)
         /\ output process
            = before
              ++ [Console_log
                    ("Successfully wrote registry to " ++ OUTPUT_FILE)%string])
   \/ (ending process = Exits 1
       /\ registry_file process = None
       /\ exists before message,
            output process
            = before
              ++ [Console_error
                    ("::error::FATAL: Registry generation failed. "
                     ++ message)%string]))
  /\ exists rest,
       output process
       = startup GITHUB_TOKEN
         ++ Console_log "Starting registry generation..." :: rest.
Proof.
  cbv zeta.
  assert (exists rest,
            snd (build_output localeCompare arduino remote clock)
            = Console_log "Starting registry generation..." :: rest) as (rest & Hstart).
  { unfold build_output.
    match goal with |- context [bind ?m ?k] =>
      destruct (bind_trace m k) as (rest & ->) end.
    now exists rest. }
  assert ((exists registry,
             fst (build_output localeCompare arduino remote clock) = Returns registry
             /\ Registry.generatedAt registry = clock
             /\ Registry.totalLibraries registry
                = List.length (Registry.libraries registry))
          \/ exists e,
               fst (build_output localeCompare arduino remote clock)
               = Throws (val e)) as Hrun.
  { destruct (build_output_ends localeCompare arduino remote clock)
      as [(k & raw & _ & _ & _ & Hres & _)
         |[(k & data & _ & _ & _ & _ & Hres & _)|(e & _ & _ & Hres & _)]].
    - left. eexists. split; [exact Hres|]. split; reflexivity.
    - right. now exists invalid_index.
    - right. now exists e. }
  destruct (build_output localeCompare arduino remote clock) as [r t] eqn:Hbuild.
  cbn [fst snd] in Hstart, Hrun. subst t.
  destruct Hrun as [(registry & -> & Hclock & Htotal)|(e & ->)].
  - destruct disk as [e|].
    + rewrite (script_write_rejected localeCompare OUTPUT_FILE GITHUB_TOKEN
                 arduino remote clock _ _ e Hbuild).
      cbn [ending registry_file output]. split; [|now eexists].
      right. split; [reflexivity|]. split; [reflexivity|].
      eexists (startup GITHUB_TOKEN ++ _), _. now rewrite app_assoc.
    + rewrite (script_written localeCompare OUTPUT_FILE GITHUB_TOKEN
                 arduino remote clock _ _ Hbuild).
      cbn [ending registry_file output]. split; [|now eexists].
      left. split; [reflexivity|]. split; [reflexivity|].
      exists registry. eexists (startup GITHUB_TOKEN ++ _).
      split; [reflexivity|]. split; [exact Hclock|]. split; [exact Htotal|].
      now rewrite app_assoc.
  - rewrite (script_thrown localeCompare OUTPUT_FILE GITHUB_TOKEN
               arduino remote clock e _ disk Hbuild).
    cbn [ending registry_file output]. split; [|now eexists].
    right. split; [reflexivity|]. split; [reflexivity|].
    eexists (startup GITHUB_TOKEN ++ _), _. now rewrite app_assoc.
Qed.

(** ** compareSemver as a comparison function *)

Lemma compareSemver_self (a : string) :
  compareSemver a a = Num 0 \/ compareSemver a a = NaN.
Proof.
  unfold compareSemver. pose proof (parseVersion_whole a) as Hwhole.
  destruct (parseVersion a) as [[a1 a2] a3].
  destruct Hwhole as (H1 & H2 & H3).
  rewrite (proj2 (minus_whole a1 a1 H1 H1)), (proj2 (minus_whole a2 a2 H2 H2)).
  rewrite !Z.eqb_refl. cbn [negb].
  destruct H3 as [->|(z & -> & _)]; [now right|left].
  unfold Number_minus. cbn [Number_opp Number_plus].
  rewrite (double_comp _ 0); [reflexivity|ring].
Qed.

(** X21. As the sort reads its results ([NaN] as 0, the others by their
    sign), the comparator is a consistent comparison function: a version
    compares equal to itself, swapping the arguments changes the sign, the
    order is transitive, and two versions that compare equal compare alike
    with every third one. The result for a version and itself is 0 or
    [NaN]. *)
Theorem compareSemver_consistent :
  (forall a, SortCompare (compareSemver a a) = 0)
  /\ (forall a, compareSemver a a = Num 0 \/ compareSemver a a = NaN)
  /\ (forall a b,
        SortCompare (compareSemver b a) = - SortCompare (compareSemver a b))
  /\ (forall a b c,
        SortCompare (compareSemver a b) <= 0 ->
        SortCompare (compareSemver b c) <= 0 ->
        SortCompare (compareSemver a c) <= 0)
  /\ (forall a b c,
        SortCompare (compareSemver a b) = 0 ->
        SortCompare (compareSemver a c) = SortCompare (compareSemver b c)).
Proof.
  split; [|split; [|split; [|split]]].
  - intros a. destruct (compareSemver_self a) as [-> | ->]; reflexivity.
  - exact compareSemver_self.
  - intros a b. rewrite !compareSemver_key.
    rewrite (descending_flip (version_key a) (version_key b)). lia.
  - intros a b c. rewrite !compareSemver_key. intros Hab Hbc.
    pose proof (descending_trans (version_key a) (version_key b)
                  (version_key c)) as Htrans.
    lia.
  - intros a b c. rewrite !compareSemver_key. intros Hab.
    assert (version_key a = version_key b) as ->; [|reflexivity].
    apply descending_sign. lia.
Qed.

(** The component 2 followed by 308 zeros parses to [Infinity], and a
    version with such a patch number compared with itself gives [NaN]. *)
Example compareSemver_huge :
  let huge := String "2" (string_of_list_ascii (repeat "0"%char 308)) in
  parseVersion huge = (Infinity false, Num 0, Num 0)
  /\ compareSemver huge "2" = Infinity true
  /\ compareSemver ("1.0." ++ huge) ("1.0." ++ huge) = NaN.
Proof. repeat split; vm_compute; reflexivity. Qed.
